(** * BreezeAPI caching: the duration parser and the cache-aside middleware

    A shallow embedding of [src/parseDuration.ts] and of the latest
    [cacheMiddleware] (the version with [shouldCloseClient] and the single
    reconnect), with the properties of the specification stated over it;
    then of the other functions of these files ([parseDurationToString],
    [isCacheInitialized], [initializeCache], [setCache] and the first
    [cacheMiddleware] of [src/lib.ts]), with properties read off the code. *)

From Stdlib Require Import ZArith NArith List String Ascii Lia Bool Floats Uint63.
From stdpp Require Import gmap strings list.
From Equations Require Import Equations.

Local Open Scope Z_scope.

(** ** JavaScript numbers, as far as this program uses them

    Every number the program computes is a non-negative integer, [Infinity]
    or (through a numeric [duration] handed in from outside) [NaN].  A double
    holds every integer up to [2^53] exactly; above that, each operation
    returns the nearest representable value, ties to the even significand. *)

Inductive number :=
| Fin (z : Z)
| PosInf
| NaN.

(** The integer nearest to [n / d], ties to even ([0 <= n], [0 < d]). *)
Definition round_half_even (n d : Z) : Z :=
  let q := n / d in
  let r := n mod d in
  if 2 * r <? d then q
  else if d <? 2 * r then q + 1
  else if Z.even q then q else q + 1.

(** The double nearest to the non-negative integer [z]. *)
Definition rnd (z : Z) : number :=
  if z <=? 2 ^ 53 then Fin z
  else
    let e := Z.log2 z - 52 in
    let v := round_half_even z (2 ^ e) * 2 ^ e in
    if v <? 2 ^ 1024 then Fin v else PosInf.

Definition jsadd (x y : number) : number :=
  match x, y with
  | Fin a, Fin b => rnd (a + b)
  | NaN, _ | _, NaN => NaN
  | _, _ => PosInf
  end.

Definition jsmul (x y : number) : number :=
  match x, y with
  | Fin a, Fin b => rnd (a * b)
  | NaN, _ | _, NaN => NaN
  | PosInf, Fin b => if b =? 0 then NaN else PosInf
  | Fin a, PosInf => if a =? 0 then NaN else PosInf
  | PosInf, PosInf => PosInf
  end.

(** [Math.floor(x / d)] for a positive integer constant [d]: the quotient is
    first rounded to a double with 53 significant bits, then floored. *)
Definition floor_div (x : number) (d : Z) : number :=
  match x with
  | Fin z =>
      if z =? 0 then Fin 0
      else
        (* l = floor (log2 (z / d)) *)
        let l0 := Z.log2 z - Z.log2 d in
        let l := if l0 >=? 0
                 then (if d * 2 ^ l0 <=? z then l0 else l0 - 1)
                 else (if d <=? z * 2 ^ (- l0) then l0 else l0 - 1) in
        let e := l - 52 in
        if e >=? 0
        then rnd (round_half_even z (d * 2 ^ e) * 2 ^ e)
        else Fin (round_half_even (z * 2 ^ (- e)) d / 2 ^ (- e))
  | other => other
  end.

Declare Scope js_scope.
Delimit Scope js_scope with js.
Infix "+" := jsadd : js_scope.
Infix "*" := jsmul : js_scope.
Coercion Fin : Z >-> number.

(** ** Strings and the regular expression

    A string is its sequence of UTF-16 code units. *)

Definition jsstring := list N.

Definition units (s : string) : jsstring :=
  map N_of_ascii (list_ascii_of_string s).

Fixpoint str_eqb (a b : jsstring) : bool :=
  match a, b with
  | [], [] => true
  | x :: a', y :: b' => N.eqb x y && str_eqb a' b'
  | _, _ => false
  end.

(** [\d] *)
Definition is_digit (c : N) : bool := ((48 <=? c) && (c <=? 57))%N.

(** [\s]: WhiteSpace and LineTerminator of ECMAScript. *)
Definition is_space (c : N) : bool :=
  ((9 <=? c) && (c <=? 13) || (c =? 32) || (c =? 160) || (c =? 5760)
   || (8192 <=? c) && (c <=? 8202) || (c =? 8232) || (c =? 8233)
   || (c =? 8239) || (c =? 8287) || (c =? 12288) || (c =? 65279))%N.

(** Canonicalize of the [i] flag without the [u] flag: the upper-case form,
    except that a unit of 128 or more never canonicalizes to one below 128.
    All pattern characters are ASCII letters, so for the comparison with them
    the identity on the units of 128 and more gives the same answer. *)
Definition canonicalize (c : N) : N :=
  (if (97 <=? c) && (c <=? 122) then c - 32 else c)%N.

(** [String.prototype.toLowerCase] on the ASCII range (the matched unit text
    holds ASCII letters only). *)
Definition lower (c : N) : N :=
  (if (65 <=? c) && (c <=? 90) then c + 32 else c)%N.

Definition toLowerCase (s : jsstring) : jsstring := map lower s.

Inductive atom :=
| Chr (c : N)
| Digit
| Space.

Definition atom_matches (a : atom) (c : N) : bool :=
  match a with
  | Chr p => N.eqb (canonicalize c) (canonicalize p)
  | Digit => is_digit c
  | Space => is_space c
  end.

Inductive regex :=
| Eps
| Atom (a : atom)
| Cat (r1 r2 : regex)
| Alt (r1 r2 : regex)
| Star (a : atom)
| Plus (a : atom)
| Group (n : nat) (r : regex).

(** The numbered captures of a match. *)
Definition captures := list (nat * jsstring).

Fixpoint capture (n : nat) (caps : captures) : jsstring :=
  match caps with
  | [] => []
  | (m, s) :: rest => if Nat.eqb n m then s else capture n rest
  end.

(** A backtracking matcher in continuation-passing style: [k] is the rest of
    the pattern.  A greedy quantifier first tries one more repetition and
    falls back to the continuation; a disjunction tries its alternatives from
    left to right. *)
Fixpoint star {R} (a : atom) (k : jsstring -> option R) (s : jsstring) : option R :=
  match s with
  | c :: s' =>
      if atom_matches a c
      then match star a k s' with
           | Some r => Some r
           | None => k s
           end
      else k s
  | [] => k s
  end.

Fixpoint matcher {R} (r : regex) (s : jsstring) (caps : captures)
    (k : jsstring -> captures -> option R) : option R :=
  match r with
  | Eps => k s caps
  | Atom a =>
      match s with
      | c :: s' => if atom_matches a c then k s' caps else None
      | [] => None
      end
  | Cat r1 r2 => matcher r1 s caps (fun s1 caps1 => matcher r2 s1 caps1 k)
  | Alt r1 r2 =>
      match matcher r1 s caps k with
      | Some x => Some x
      | None => matcher r2 s caps k
      end
  | Star a => star a (fun s' => k s' caps) s
  | Plus a =>
      match s with
      | c :: s' => if atom_matches a c then star a (fun s'' => k s'' caps) s' else None
      | [] => None
      end
  | Group n r1 =>
      matcher r1 s caps
        (fun s1 caps1 => k s1 ((n, take (length s - length s1) s) :: caps1))
  end.

Fixpoint lit (w : jsstring) : regex :=
  match w with
  | [] => Eps
  | [c] => Atom (Chr c)
  | c :: w' => Cat (Atom (Chr c)) (lit w')
  end.

Fixpoint alternatives (ws : list string) : regex :=
  match ws with
  | [] => Eps
  | [w] => lit (units w)
  | w :: ws' => Alt (lit (units w)) (alternatives ws')
  end.

Definition unit_words : list string :=
  ["mo"; "month"; "months"; "w"; "week"; "weeks"; "d"; "day"; "days";
   "h"; "hour"; "hours"; "m"; "min"; "minute"; "minutes";
   "s"; "sec"; "second"; "seconds"]%string.

(** [/(\d+)\s*(mo|month|months|w|week|weeks|d|day|days|h|hour|hours|m|min|minute|minutes|s|sec|second|seconds)/gi] *)
Definition duration_regex : regex :=
  Cat (Group 1 (Plus Digit))
      (Cat (Star Space) (Group 2 (alternatives unit_words))).

(** One attempt of the pattern at the start of [s]: the captures and the
    number of units the match consumed. *)
Definition match_here (r : regex) (s : jsstring) : option (captures * nat) :=
  matcher r s [] (fun s' caps => Some (caps, (length s - length s')%nat)).

(** [regex.exec(input)] for a global regex whose [lastIndex] is [i]: the
    leftmost position at or after [i] where the pattern matches; the new
    [lastIndex] is the end of the match.  [s] is the input from [i] on. *)
Fixpoint exec_from (r : regex) (s : jsstring) (i : nat) : option (captures * nat) :=
  match match_here r s with
  | Some (caps, len) => Some (caps, (i + len)%nat)
  | None =>
      match s with
      | [] => None
      | _ :: s' => exec_from r s' (S i)
      end
  end.

Definition regex_exec (r : regex) (input : jsstring) (lastIndex : nat)
  : option (captures * nat) :=
  exec_from r (drop lastIndex input) lastIndex.

(** [parseInt(digits, 10)] on a non-empty run of decimal digits: the number
    nearest to the integer they spell.  (The language lets an implementation
    approximate a numeral after its 20th significant digit; the exact value
    is taken here.) *)
Definition digits_value (ds : jsstring) : Z :=
  fold_left (fun acc c => 10 * acc + (Z.of_N c - 48)) ds 0.

Definition parseInt (ds : jsstring) : number := rnd (digits_value ds).

Definition is_case (u : jsstring) (labels : list string) : bool :=
  existsb (fun l => str_eqb u (units l)) labels.

(** The [switch (unit)] of [parseDuration]: the new value of [ms]. *)
Definition switch_unit (u : jsstring) (value ms : number) : number :=
  if is_case u ["mo"; "month"; "months"]%string
  then (ms + value * 30 * 24 * 60 * 60 * 1000)%js
  else if is_case u ["w"; "week"; "weeks"]%string
  then (ms + value * 7 * 24 * 60 * 60 * 1000)%js
  else if is_case u ["d"; "day"; "days"]%string
  then (ms + value * 24 * 60 * 60 * 1000)%js
  else if is_case u ["h"; "hour"; "hours"]%string
  then (ms + value * 60 * 60 * 1000)%js
  else if is_case u ["m"; "min"; "minute"; "minutes"]%string
  then (ms + value * 60 * 1000)%js
  else if is_case u ["s"; "sec"; "second"; "seconds"]%string
  then (ms + value * 1000)%js
  else ms.

(** The [while ((match = regex.exec(input)) !== null)] loop. *)
Fixpoint parseDuration_loop (fuel : nat) (input : jsstring) (lastIndex : nat)
    (ms : number) : number :=
  match fuel with
  | O => ms
  | S fuel' =>
      match regex_exec duration_regex input lastIndex with
      | None => ms
      | Some (m, lastIndex') =>
          let value := parseInt (capture 1 m) in
          let unit := toLowerCase (capture 2 m) in
          parseDuration_loop fuel' input lastIndex' (switch_unit unit value ms)
      end
  end.

(** Every match consumes at least one unit, so the loop runs at most
    [length input] times before [exec] returns [null]. *)
Definition parseDuration (input : jsstring) : number :=
  parseDuration_loop (S (length input)) input 0 (Fin 0).

(** ** The cache middleware

    [cacheMiddleware] runs against three pieces of state: the module-level
    variables ([_cacheInitialized], [_sharedRedisClient], [_sharedRedisUrl]),
    the outside world (the configuration registry, the store and its
    connections) and the response object whose [json] property it replaces.
    The variables that the closures [res.json], [cache] and [tryGetCache]
    share are kept in the state as well, so that an update by one closure is
    seen by the others.  Console logging has no effect on the control flow
    and is left out.  Every effect is appended to a trace. *)

Definition Client := nat.

(** What [JSON.parse], [JSON.stringify] and zod's [url()] check do is not
    part of this repository. *)
Class JsonLib := {
  Json : Type;
  JSON_parse : jsstring -> option Json;     (* [None]: it throws *)
  JSON_stringify : Json -> jsstring;
  is_url : jsstring -> bool
}.

(** A property of a configuration object handed to a zod schema. *)
Inductive field (A : Type) :=
| Absent
| Present (a : A)
| IllTyped.
Arguments Absent {A}.
Arguments Present {A} a.
Arguments IllTyped {A}.

(** The value under ['breezeCache'] in the registry. *)
Record RawBreezeConfig := {
  raw_redisUrl : field jsstring;
  raw_enabled : field bool;
  raw_excludedPaths : field (list jsstring);
  raw_debug : field bool
}.

Record BreezeCacheConfig := {
  redisUrl : jsstring;
  enabled : bool;
  excludedPaths : option (list jsstring);
  debug : option bool
}.

Definition optional {A} (f : field A) : option (option A) :=
  match f with
  | Absent => Some None
  | Present a => Some (Some a)
  | IllTyped => None
  end.

(** The [duration] the caller passed: the declared type says string, the
    code also looks for a number. *)
Inductive DurationValue :=
| DString (s : jsstring)
| DNumber (n : number)
| DOther.

(** The argument [conf] of [cacheMiddleware], as the caller passed it. *)
Record CacheConf := {
  conf_enabled : option bool;
  conf_cacheKey : option jsstring;
  conf_duration : option DurationValue
}.

(** A value of the type [z.infer<typeof cacheConfigSchema>]. *)
Record CacheConfig := {
  cfg_enabled : bool;
  cfg_cacheKey : option jsstring;
  cfg_duration : jsstring
}.

(** [cacheConfigSchema]: [enabled] defaults to [true], [cacheKey] is
    optional, [duration] is a required string. *)
Definition cacheConfigSchema_safeParse (conf : CacheConf) : option CacheConfig :=
  match conf_duration conf with
  | Some (DString d) =>
      Some {| cfg_enabled := match conf_enabled conf with Some b => b | None => true end;
              cfg_cacheKey := conf_cacheKey conf;
              cfg_duration := d |}
  | _ => None
  end.

Record Request := { url : jsstring }.

Inductive Completion (A : Type) :=
| Normal (a : A)
| Throw (code : option jsstring).     (* [err?.code] *)
Arguments Normal {A} a.
Arguments Throw {A} code.

(** What the store will do to the next call of [get], [set] or [expire]. *)
Inductive Fault :=
| NoFault
| Fails (code : option jsstring).

Definition ERR_REDIS_CONNECTION_CLOSED : jsstring := units "ERR_REDIS_CONNECTION_CLOSED".
Definition X_BREEZEAPI_CACHE : jsstring := units "X-BREEZEAPI-CACHE".
Definition HIT : jsstring := units "HIT".
Definition MISS : jsstring := units "MISS".

Definition is_closed_code (code : option jsstring) : bool :=
  match code with
  | Some c => str_eqb c ERR_REDIS_CONNECTION_CLOSED
  | None => false
  end.

Fixpoint startsWith (s p : jsstring) : bool :=
  match p, s with
  | [], _ => true
  | x :: p', y :: s' => N.eqb x y && startsWith s' p'
  | _ :: _, [] => false
  end.

(** Truthiness of a string. *)
Definition truthy (s : jsstring) : bool :=
  match s with [] => false | _ :: _ => true end.

Section Middleware.
Context `{JsonLib}.

(** [breezeCacheConfigSchema.safeParse]: [redisUrl] is a required URL,
    [enabled] defaults to [true], the other two are optional. *)
Definition breezeCacheConfigSchema_safeParse (v : option RawBreezeConfig)
  : option BreezeCacheConfig :=
  match v with
  | None => None
  | Some raw =>
      match raw_redisUrl raw, optional (raw_enabled raw),
            optional (raw_excludedPaths raw), optional (raw_debug raw) with
      | Present u, Some e, Some x, Some d =>
          if is_url u
          then Some {| redisUrl := u;
                       enabled := match e with Some b => b | None => true end;
                       excludedPaths := x;
                       debug := d |}
          else None
      | _, _, _, _ => None
      end
  end.

Inductive Event :=
| EvNew (c : Client) (url : jsstring)             (* [new RedisClient(url)] *)
| EvGet (c : Client) (key : jsstring)
| EvSet (c : Client) (key value : jsstring)
| EvExpire (c : Client) (key : jsstring) (seconds : number)
| EvClose (c : Client)
| EvPatch                                          (* [res.json = ...] *)
| EvJson (body : option Json)                      (* [originalJson(body)] *)
| EvHeader (name value : jsstring)
| EvNext.                                          (* [next()] *)

Record Module_ := {
  _cacheInitialized : bool;
  _sharedRedisClient : option Client;
  _sharedRedisUrl : option jsstring
}.

Record World := {
  registry : option RawBreezeConfig;
  store : gmap jsstring jsstring;
  faults : list Fault;
  nextClient : Client
}.

Record Res := {
  jsonPatched : bool;
  headers : gmap jsstring jsstring
}.

(** The [let] variables of one invocation. *)
Record Locals := {
  client : Client;
  shouldCloseClient : bool;
  alreadyCached : bool;
  cacheHitValue : option Json;           (* [None]: [undefined] *)
  cacheHit : bool;
  cached : option jsstring;              (* [None]: [null] *)
  retried : bool
}.

(** The [cache] property of an object returned by [res.json]. *)
Inductive CacheMethod :=
| NoCacheMethod                 (* the original [json]: no such property *)
| CacheNoop                     (* the closure of the hit branch *)
| CacheCommit (body : Json).    (* the closure that writes [body] *)

(** An object that [originalJson] returned, with the property the patch
    defined on it. *)
Record Response := {
  sent : option Json;
  cache_method : CacheMethod
}.

Record State := {
  module_ : Module_;
  world : World;
  res : Res;
  vars : Locals;
  objects : list Response;       (* the objects [res.json] has returned *)
  trace : list Event
}.

Definition on_module (f : Module_ -> Module_) (st : State) : State :=
  {| module_ := f (module_ st); world := world st; res := res st;
     vars := vars st; objects := objects st; trace := trace st |}.
Definition on_world (f : World -> World) (st : State) : State :=
  {| module_ := module_ st; world := f (world st); res := res st;
     vars := vars st; objects := objects st; trace := trace st |}.
Definition on_res (f : Res -> Res) (st : State) : State :=
  {| module_ := module_ st; world := world st; res := f (res st);
     vars := vars st; objects := objects st; trace := trace st |}.
Definition on_vars (f : Locals -> Locals) (st : State) : State :=
  {| module_ := module_ st; world := world st; res := res st;
     vars := f (vars st); objects := objects st; trace := trace st |}.
Definition on_objects (f : list Response -> list Response) (st : State) : State :=
  {| module_ := module_ st; world := world st; res := res st;
     vars := vars st; objects := f (objects st); trace := trace st |}.
Definition on_trace (f : list Event -> list Event) (st : State) : State :=
  {| module_ := module_ st; world := world st; res := res st;
     vars := vars st; objects := objects st; trace := f (trace st) |}.

Definition with_cacheInitialized (b : bool) (m : Module_) : Module_ :=
  {| _cacheInitialized := b; _sharedRedisClient := _sharedRedisClient m;
     _sharedRedisUrl := _sharedRedisUrl m |}.
Definition with_sharedRedisClient (c : option Client) (m : Module_) : Module_ :=
  {| _cacheInitialized := _cacheInitialized m; _sharedRedisClient := c;
     _sharedRedisUrl := _sharedRedisUrl m |}.

Definition with_store (s : gmap jsstring jsstring) (w : World) : World :=
  {| registry := registry w; store := s; faults := faults w; nextClient := nextClient w |}.
Definition with_faults (f : list Fault) (w : World) : World :=
  {| registry := registry w; store := store w; faults := f; nextClient := nextClient w |}.
Definition with_nextClient (c : Client) (w : World) : World :=
  {| registry := registry w; store := store w; faults := faults w; nextClient := c |}.

Definition with_jsonPatched (b : bool) (r : Res) : Res :=
  {| jsonPatched := b; headers := headers r |}.
Definition with_headers (h : gmap jsstring jsstring) (r : Res) : Res :=
  {| jsonPatched := jsonPatched r; headers := h |}.

Definition with_client (c : Client) (l : Locals) : Locals :=
  {| client := c; shouldCloseClient := shouldCloseClient l;
     alreadyCached := alreadyCached l; cacheHitValue := cacheHitValue l;
     cacheHit := cacheHit l; cached := cached l; retried := retried l |}.
Definition with_shouldCloseClient (b : bool) (l : Locals) : Locals :=
  {| client := client l; shouldCloseClient := b;
     alreadyCached := alreadyCached l; cacheHitValue := cacheHitValue l;
     cacheHit := cacheHit l; cached := cached l; retried := retried l |}.
Definition with_alreadyCached (b : bool) (l : Locals) : Locals :=
  {| client := client l; shouldCloseClient := shouldCloseClient l;
     alreadyCached := b; cacheHitValue := cacheHitValue l;
     cacheHit := cacheHit l; cached := cached l; retried := retried l |}.
Definition with_cacheHitValue (v : option Json) (l : Locals) : Locals :=
  {| client := client l; shouldCloseClient := shouldCloseClient l;
     alreadyCached := alreadyCached l; cacheHitValue := v;
     cacheHit := cacheHit l; cached := cached l; retried := retried l |}.
Definition with_cacheHit (b : bool) (l : Locals) : Locals :=
  {| client := client l; shouldCloseClient := shouldCloseClient l;
     alreadyCached := alreadyCached l; cacheHitValue := cacheHitValue l;
     cacheHit := b; cached := cached l; retried := retried l |}.
Definition with_cached (v : option jsstring) (l : Locals) : Locals :=
  {| client := client l; shouldCloseClient := shouldCloseClient l;
     alreadyCached := alreadyCached l; cacheHitValue := cacheHitValue l;
     cacheHit := cacheHit l; cached := v; retried := retried l |}.
Definition with_retried (b : bool) (l : Locals) : Locals :=
  {| client := client l; shouldCloseClient := shouldCloseClient l;
     alreadyCached := alreadyCached l; cacheHitValue := cacheHitValue l;
     cacheHit := cacheHit l; cached := cached l; retried := b |}.

(** *** The state monad of one invocation *)

Definition M (A : Type) : Type := State -> A * State.

Definition ret {A} (a : A) : M A := fun st => (a, st).
Definition bind {A B} (m : M A) (k : A -> M B) : M B :=
  fun st => let (a, st') := m st in k a st'.
Definition read {A} (f : State -> A) : M A := fun st => (f st, st).
Definition write (f : State -> State) : M unit := fun st => (tt, f st).

Notation "'let*' x ':=' m 'in' k" := (bind m (fun x => k))
  (at level 10, x name, m at level 100, k at level 200).
Notation "m ';;' k" := (bind m (fun _ => k))
  (at level 100, k at level 200, right associativity).

Definition emit (e : Event) : M unit := write (on_trace (fun t => t ++ [e])).
Definition when (b : bool) (m : M unit) : M unit := if b then m else ret tt.

(** *** The store client *)

(** [new RedisClient(url)]: the connection is opened lazily, so the
    constructor does not fail. *)
Definition new_RedisClient (u : jsstring) : M Client :=
  let* c := read (fun st => nextClient (world st)) in
  write (on_world (with_nextClient (S c))) ;;
  emit (EvNew c u) ;;
  ret c.

Definition next_fault : M Fault :=
  let* fs := read (fun st => faults (world st)) in
  match fs with
  | [] => ret NoFault
  | f :: rest => write (on_world (with_faults rest)) ;; ret f
  end.

Definition client_get (c : Client) (key : jsstring) : M (Completion (option jsstring)) :=
  emit (EvGet c key) ;;
  let* f := next_fault in
  match f with
  | NoFault => let* v := read (fun st => store (world st) !! key) in ret (Normal v)
  | Fails code => ret (Throw code)
  end.

Definition client_set (c : Client) (key value : jsstring) : M (Completion unit) :=
  emit (EvSet c key value) ;;
  let* f := next_fault in
  match f with
  | NoFault =>
      let* s := read (fun st => store (world st)) in
      write (on_world (with_store (<[key := value]> s))) ;;
      ret (Normal tt)
  | Fails code => ret (Throw code)
  end.

Definition client_expire (c : Client) (key : jsstring) (seconds : number)
  : M (Completion unit) :=
  emit (EvExpire c key seconds) ;;
  let* f := next_fault in
  match f with
  | NoFault => ret (Normal tt)
  | Fails code => ret (Throw code)
  end.

(** [try { await client.close(); } catch {}] *)
Definition client_close (c : Client) : M unit := emit (EvClose c).

(** [res.header?.(name, value)] *)
Definition res_header (name value : jsstring) : M unit :=
  let* h := read (fun st => headers (res st)) in
  write (on_res (with_headers (<[name := value]> h))) ;;
  emit (EvHeader name value).

(** [_sharedRedisClient && _sharedRedisUrl === redisUrl] *)
Definition shared_for (u : jsstring) (m : Module_) : option Client :=
  match _sharedRedisClient m with
  | Some c => if decide (_sharedRedisUrl m = Some u) then Some c else None
  | None => None
  end.

(** *** The response object and the handler *)

(** The downstream handler, as far as the middleware can observe it: it
    calls [res.json], awaits [.cache()] on the [i]-th object that [res.json]
    gave it, and returns. *)
Inductive Handler :=
| Return (r : option Response)
| CallJson (body : Json) (k : Response -> Handler)
| CallCache (i : nat) (k : Response -> Handler).

Inductive Outcome :=
| Returned (r : option Response)
| Threw.                   (* of the handler's making: [x.cache] is not a function *)

(** [originalJson(body)] returns a new object; [Object.defineProperty] then
    gives it its [cache] property. *)
Definition originalJson (body : option Json) (method : CacheMethod) : M Response :=
  emit (EvJson body) ;;
  let r := {| sent := body; cache_method := method |} in
  write (on_objects (fun os => os ++ [r])) ;;
  ret r.

(** The function assigned to [res.json]. *)
Definition patched_json (body : Json) : M Response :=
  let* hit := read (fun st => cacheHit (vars st)) in
  if hit then
    let* v := read (fun st => cacheHitValue (vars st)) in
    originalJson v CacheNoop
  else
    originalJson (Some body) (CacheCommit body).

(** [res.json(body)], whichever function the property holds. *)
Definition res_json (body : Json) : M Response :=
  let* patched := read (fun st => jsonPatched (res st)) in
  if patched then patched_json body
  else originalJson (Some body) NoCacheMethod.

Definition durationSeconds (conf : CacheConf) : number :=
  match conf_duration conf with
  | Some (DString d) => floor_div (parseDuration d) 1000
  | Some (DNumber n) => n
  | Some DOther => Fin 60
  | None => Fin 60
  end.

Definition close_per_request : M unit :=
  let* should := read (fun st => shouldCloseClient (vars st)) in
  let* c := read (fun st => client (vars st)) in
  when should (client_close c).

(** The [cache] closure of the miss branch; [response] is the object it is
    defined on. *)
Definition cache (conf : CacheConf) (cacheKey : jsstring) (response : Response)
    (body : Json) : M Response :=
  let* already := read (fun st => alreadyCached (vars st)) in
  if already then ret response
  else
    write (on_vars (with_alreadyCached true)) ;;
    let seconds := durationSeconds conf in
    let* c := read (fun st => client (vars st)) in
    let* r := client_set c cacheKey (JSON_stringify body) in
    (match r with
     | Normal _ => let* _ := client_expire c cacheKey seconds in ret tt
     | Throw _ => ret tt
     end) ;;
    close_per_request ;;
    res_header X_BREEZEAPI_CACHE MISS ;;
    ret response.

Fixpoint run_handler (conf : CacheConf) (cacheKey : jsstring) (h : Handler) : M Outcome :=
  match h with
  | Return r => ret (Returned r)
  | CallJson body k =>
      let* r := res_json body in
      run_handler conf cacheKey (k r)
  | CallCache i k =>
      let* object := read (fun st => objects st !! i) in
      match object with
      | None => ret Threw
      | Some r =>
          match cache_method r with
          | NoCacheMethod => ret Threw
          | CacheNoop => run_handler conf cacheKey (k r)
          | CacheCommit body =>
              let* r' := cache conf cacheKey r body in
              run_handler conf cacheKey (k r')
          end
      end
  end.

(** [return next()] *)
Definition call_next (conf : CacheConf) (cacheKey : jsstring) (next : Handler) : M Outcome :=
  emit EvNext ;;
  run_handler conf cacheKey next.

(** *** The lookup *)

Definition tryGetCache (redisUrl cacheKey : jsstring) : M bool :=
  let* c := read (fun st => client (vars st)) in
  let* r := client_get c cacheKey in
  match r with
  | Normal v => write (on_vars (with_cached v)) ;; ret true
  | Throw code =>
      let* again := read (fun st => retried (vars st)) in
      if negb again && is_closed_code code then
        write (on_vars (with_retried true)) ;;
        close_per_request ;;
        let* should := read (fun st => shouldCloseClient (vars st)) in
        (if should then
           let* c' := new_RedisClient redisUrl in
           write (on_vars (with_client c'))
         else
           let* shared := read (fun st => shared_for redisUrl (module_ st)) in
           match shared with
           | Some _ =>
               let* c' := new_RedisClient redisUrl in
               write (on_module (with_sharedRedisClient (Some c'))) ;;
               write (on_vars (with_client c'))
           | None => ret tt
           end) ;;
        let* c2 := read (fun st => client (vars st)) in
        let* r2 := client_get c2 cacheKey in
        match r2 with
        | Normal v => write (on_vars (with_cached v)) ;; ret true
        | Throw _ => ret false
        end
      else ret false
  end.

(** *** The middleware *)

Definition cacheMiddleware (conf : CacheConf) (req : Request) (next : Handler) : M Outcome :=
  let cacheKey := url req in
  let* BreezeConfig := read (fun st => registry (world st)) in
  match breezeCacheConfigSchema_safeParse BreezeConfig with
  | None =>
      write (on_module (with_cacheInitialized false)) ;;
      call_next conf cacheKey next
  | Some data =>
      if negb (truthy (redisUrl data)) then
        write (on_module (with_cacheInitialized false)) ;;
        call_next conf cacheKey next
      else if negb (enabled data) then
        write (on_module (with_cacheInitialized false)) ;;
        call_next conf cacheKey next
      else if match excludedPaths data with
              | Some paths => existsb (fun path => startsWith (url req) path) paths
              | None => false
              end
      then call_next conf cacheKey next
      else
        write (on_vars (with_shouldCloseClient false)) ;;
        let* shared := read (fun st => shared_for (redisUrl data) (module_ st)) in
        (match shared with
         | Some c =>
             write (on_vars (with_client c)) ;;
             write (on_module (with_cacheInitialized true))
         | None =>
             let* c := new_RedisClient (redisUrl data) in
             write (on_vars (with_client c)) ;;
             write (on_module (with_cacheInitialized true)) ;;
             write (on_vars (with_shouldCloseClient true))
         end) ;;
        (* Patch res.json BEFORE cache check so .cache() is always available *)
        write (on_vars (with_alreadyCached false)) ;;
        write (on_vars (with_cacheHitValue None)) ;;
        write (on_vars (with_cacheHit false)) ;;
        write (on_res (with_jsonPatched true)) ;;
        emit EvPatch ;;
        write (on_vars (with_cached None)) ;;
        write (on_vars (with_retried false)) ;;
        let* cacheOk := tryGetCache (redisUrl data) cacheKey in
        if negb cacheOk then
          close_per_request ;;
          call_next conf cacheKey next
        else
          let* text := read (fun st => cached (vars st)) in
          (match text with
           | Some t =>
               if truthy t then
                 write (on_vars (with_alreadyCached true)) ;;
                 write (on_vars (with_cacheHit true)) ;;
                 match JSON_parse t with
                 | Some v =>
                     write (on_vars (with_cacheHitValue (Some v))) ;;
                     res_header X_BREEZEAPI_CACHE HIT ;;
                     close_per_request
                 | None => ret tt
                 end
               else ret tt
           | None => ret tt
           end) ;;
          call_next conf cacheKey next
  end.

(** The state in which a request arrives: the response object is new, no
    variable of the invocation is assigned yet and nothing has happened. *)
Definition arrival (m : Module_) (w : World) (h : gmap jsstring jsstring) : State :=
  {| module_ := m; world := w;
     res := {| jsonPatched := false; headers := h |};
     vars := {| client := 0%nat; shouldCloseClient := false; alreadyCached := false;
                cacheHitValue := None; cacheHit := false; cached := None;
                retried := false |};
     objects := [];
     trace := [] |}.

End Middleware.

Notation "'let*' x ':=' m 'in' k" := (bind m (fun x => k))
  (at level 10, x name, m at level 100, k at level 200).
Notation "m ';;' k" := (bind m (fun _ => k))
  (at level 100, k at level 200, right associativity).

(** ** [parseDurationToString]

    The template literal [`${value} ${label}`] turns the number [value] into
    a string. *)

(** The decimal digits of a non-negative integer. *)
Fixpoint decimal_loop (fuel : nat) (z : Z) (acc : jsstring) : jsstring :=
  match fuel with
  | O => acc
  | S fuel' =>
      let acc' := Z.to_N (48 + z mod 10) :: acc in
      if z / 10 =? 0 then acc' else decimal_loop fuel' (z / 10) acc'
  end.

Definition decimal (z : Z) : jsstring :=
  decimal_loop (S (Z.to_nat (Z.log2 z))) z [].

Definition number_eqb (x y : number) : bool :=
  match x, y with
  | Fin a, Fin b => a =? b
  | PosInf, PosInf => true
  | _, _ => false
  end.

(** The integer with the fewest significant digits that still rounds to the
    double [z]; among several of that length, the one nearest to [z], and of
    two equally near the one whose last significant digit is even.  [p] is
    the power of ten under the last significant digit that is tried. *)
Fixpoint shortest_loop (fuel : nat) (p z : Z) : Z :=
  match fuel with
  | O => z
  | S fuel' =>
      let lo := z / p * p in
      let hi := lo + p in
      let ok_lo := number_eqb (rnd lo) (Fin z) in
      let ok_hi := number_eqb (rnd hi) (Fin z) in
      if ok_lo && ok_hi then
        if z - lo <? hi - z then lo
        else if hi - z <? z - lo then hi
        else if Z.even (z / p) then lo else hi
      else if ok_lo then lo
      else if ok_hi then hi
      else shortest_loop fuel' (p / 10) z
  end.

Definition shortest (z : Z) : Z :=
  let n := length (decimal z) in
  shortest_loop n (10 ^ Z.of_nat (n - 1)) z.

Fixpoint strip_zeros (ds : jsstring) : jsstring :=
  match ds with
  | [] => []
  | d :: ds' =>
      match strip_zeros ds' with
      | [] => if N.eqb d 48 then [] else [d]
      | rest => d :: rest
      end
  end.

(** [Number::toString] in radix 10, for the numbers of this program.  Up to
    [2^53] every integer is a double, so the shortest digits that tell it
    from its neighbours are its own; from 22 digits on the exponent form is
    used.  (Where several digit strings of the shortest length identify the
    number, the language leaves the choice open; the nearest is taken.) *)
Definition Number_toString (x : number) : jsstring :=
  match x with
  | NaN => units "NaN"
  | PosInf => units "Infinity"
  | Fin z =>
      if z <=? 2 ^ 53 then decimal z
      else
        let ds := decimal (shortest z) in
        let n := length ds in
        if (n <=? 21)%nat then ds
        else
          let exponent := units "e+" ++ decimal (Z.of_nat n - 1) in
          match strip_zeros ds with
          | [] => []
          | [d] => d :: exponent
          | d :: more => d :: units "." ++ more ++ exponent
          end
  end.

(** [value === 1] *)
Definition is_one (value : number) : bool := number_eqb value (Fin 1).

(** The [switch (unit)] of [parseDurationToString]: the value of [label]. *)
Definition switch_label (u : jsstring) (value : number) : jsstring :=
  if is_case u ["mo"; "month"; "months"]%string
  then (if is_one value then units "month" else units "months")
  else if is_case u ["w"; "week"; "weeks"]%string
  then (if is_one value then units "week" else units "weeks")
  else if is_case u ["d"; "day"; "days"]%string
  then (if is_one value then units "day" else units "days")
  else if is_case u ["h"; "hour"; "hours"]%string
  then (if is_one value then units "hour" else units "hours")
  else if is_case u ["m"; "min"; "minute"; "minutes"]%string
  then (if is_one value then units "minute" else units "minutes")
  else if is_case u ["s"; "sec"; "second"; "seconds"]%string
  then (if is_one value then units "second" else units "seconds")
  else [].

(** [parts.join(sep)] *)
Fixpoint join (sep : jsstring) (parts : list jsstring) : jsstring :=
  match parts with
  | [] => []
  | [p] => p
  | p :: rest => p ++ sep ++ join sep rest
  end.

(** The [while] loop of [parseDurationToString]: the array [parts]. *)
Fixpoint parseDurationToString_loop (fuel : nat) (input : jsstring) (lastIndex : nat)
    (parts : list jsstring) : list jsstring :=
  match fuel with
  | O => parts
  | S fuel' =>
      match regex_exec duration_regex input lastIndex with
      | None => parts
      | Some (m, lastIndex') =>
          let value := parseInt (capture 1 m) in
          let unit := toLowerCase (capture 2 m) in
          let label := switch_label unit value in
          parseDurationToString_loop fuel' input lastIndex'
            (if truthy label
             then parts ++ [Number_toString value ++ units " " ++ label]
             else parts)
      end
  end.

Definition parseDurationToString (input : jsstring) : jsstring :=
  join (units " ") (parseDurationToString_loop (S (length input)) input 0 []).

(** ** The other entry points of the module

    [isCacheInitialized] and [initializeCache] are those of the latest
    version; [setCache] exists in the version before it only, over the same
    three module variables. *)

Section EntryPoints.
Context `{JsonLib}.

Definition with_sharedRedisUrl (u : option jsstring) (m : Module_) : Module_ :=
  {| _cacheInitialized := _cacheInitialized m; _sharedRedisClient := _sharedRedisClient m;
     _sharedRedisUrl := u |}.

Definition isCacheInitialized : M bool :=
  read (fun st => _cacheInitialized (module_ st)).

(** [initializeCache]: the two [throw new Error(...)] carry no [code]. *)
Definition initializeCache : M (Completion unit) :=
  let* BreezeConfig := read (fun st => registry (world st)) in
  match breezeCacheConfigSchema_safeParse BreezeConfig with
  | None => ret (Throw None)
  | Some data =>
      if negb (truthy (redisUrl data)) then ret (Throw None)
      else
        let* shared := read (fun st => shared_for (redisUrl data) (module_ st)) in
        match shared with
        | Some _ => ret (Normal tt)    (* Already initialized with same URL *)
        | None =>
            (* If changing Redis URL, close previous shared client *)
            let* previous := read (fun st => _sharedRedisClient (module_ st)) in
            let* previousUrl := read (fun st => _sharedRedisUrl (module_ st)) in
            (match previous, previousUrl with
             | Some c, Some u =>
                 when (truthy u && negb (bool_decide (u = redisUrl data))) (client_close c)
             | _, _ => ret tt
             end) ;;
            let* c := new_RedisClient (redisUrl data) in
            write (on_module (with_sharedRedisClient (Some c))) ;;
            write (on_module (with_sharedRedisUrl (Some (redisUrl data)))) ;;
            write (on_module (with_cacheInitialized true)) ;;
            ret (Normal tt)
        end
  end.

(** [setCache(req, res, conf, body)]: nothing is caught, so a failure of
    the store rejects the promise it returns. *)
Definition setCache (req : Request) (conf : CacheConf) (body : Json) : M (Completion unit) :=
  let* BreezeConfig := read (fun st => registry (world st)) in
  match breezeCacheConfigSchema_safeParse BreezeConfig with
  | None => ret (Normal tt)
  | Some data =>
      if negb (truthy (redisUrl data)) then ret (Normal tt)
      else
        let* shared := read (fun st => shared_for (redisUrl data) (module_ st)) in
        let* c := match shared with
                  | Some c => ret c
                  | None => new_RedisClient (redisUrl data)
                  end in
        let cacheKey := url req in
        let seconds := durationSeconds conf in
        let* r := client_set c cacheKey (JSON_stringify body) in
        match r with
        | Throw code => ret (Throw code)
        | Normal _ =>
            let* r' := client_expire c cacheKey seconds in
            match r' with
            | Throw code => ret (Throw code)
            | Normal _ => res_header X_BREEZEAPI_CACHE MISS ;; ret (Normal tt)
            end
        end
  end.

End EntryPoints.

(** ** The first version of the middleware ([src/lib.ts])

    One connection for every request that reaches the store, the lookup
    outside of any [try], and a [res.json] that writes on every call. *)

Section FirstVersion.
Context `{JsonLib}.

(** Its [breezeCacheConfigSchema] has no [debug]; zod drops the properties
    that a schema does not name. *)
Definition breezeCacheConfigSchema_v1_safeParse (v : option RawBreezeConfig)
  : option BreezeCacheConfig :=
  match v with
  | None => None
  | Some raw =>
      match raw_redisUrl raw, optional (raw_enabled raw),
            optional (raw_excludedPaths raw) with
      | Present u, Some e, Some x =>
          if is_url u
          then Some {| redisUrl := u;
                       enabled := match e with Some b => b | None => true end;
                       excludedPaths := x;
                       debug := None |}
          else None
      | _, _, _ => None
      end
  end.

(** The function assigned to [res.json].  [set] and [expire] are not
    awaited: a failure of the store is a rejected promise that nobody
    holds, and the function goes on. *)
Definition wrapped_json (conf : CacheConf) (cacheKey : jsstring) (body : Json) : M Response :=
  let seconds := durationSeconds conf in
  let* c := read (fun st => client (vars st)) in
  let* _ := client_set c cacheKey (JSON_stringify body) in
  let* _ := client_expire c cacheKey seconds in
  res_header X_BREEZEAPI_CACHE MISS ;;
  originalJson (Some body) NoCacheMethod.

Definition res_json_v1 (conf : CacheConf) (cacheKey : jsstring) (body : Json) : M Response :=
  let* patched := read (fun st => jsonPatched (res st)) in
  if patched then wrapped_json conf cacheKey body
  else originalJson (Some body) NoCacheMethod.

(** No object has a [cache] property here. *)
Fixpoint run_handler_v1 (conf : CacheConf) (cacheKey : jsstring) (h : Handler) : M Outcome :=
  match h with
  | Return r => ret (Returned r)
  | CallJson body k =>
      let* r := res_json_v1 conf cacheKey body in
      run_handler_v1 conf cacheKey (k r)
  | CallCache _ _ => ret Threw
  end.

Definition call_next_v1 (conf : CacheConf) (cacheKey : jsstring) (next : Handler)
  : M (Completion Outcome) :=
  emit EvNext ;;
  let* o := run_handler_v1 conf cacheKey next in
  ret (Normal o).

Definition cacheMiddleware_v1 (conf : CacheConf) (req : Request) (next : Handler)
  : M (Completion Outcome) :=
  let* BreezeConfig := read (fun st => registry (world st)) in
  match breezeCacheConfigSchema_v1_safeParse BreezeConfig with
  | None => call_next_v1 conf (url req) next
  | Some data =>
      if negb (truthy (redisUrl data)) then call_next_v1 conf (url req) next
      else if negb (enabled data) then call_next_v1 conf (url req) next
      else if match excludedPaths data with
              | Some paths => existsb (fun path => startsWith (url req) path) paths
              | None => false
              end
      then call_next_v1 conf (url req) next
      else
        (* Use a dedicated Redis client for this config *)
        let* c := new_RedisClient (redisUrl data) in
        write (on_vars (with_client c)) ;;
        let cacheKey := url req in
        let* got := client_get c cacheKey in
        match got with
        | Throw code => ret (Throw code)
        | Normal text =>
            let* served :=
              match text with
              | Some t =>
                  if truthy t then
                    res_header X_BREEZEAPI_CACHE HIT ;;
                    match JSON_parse t with
                    | Some v =>
                        let* r := res_json_v1 conf cacheKey v in
                        ret (Some r)
                    | None => ret None     (* caught: the entry is ignored *)
                    end
                  else ret None
              | None => ret None
              end in
            match served with
            | Some r => ret (Normal (Returned (Some r)))
            | None =>
                (* Wrap res.json to cache the response after handler runs *)
                write (on_res (with_jsonPatched true)) ;;
                emit EvPatch ;;
                call_next_v1 conf cacheKey next
            end
        end
  end.

End FirstVersion.

(** ** The duration of a string, read off directly

    The reading of the specification: scan from the left; a token is a
    maximal run of digits, any white space, and a unit word; each token
    counts its integer times the fixed factor of its unit. *)

Inductive time_unit := Second | Minute | Hour | Day | Week | Month.

Definition factor (u : time_unit) : Z :=
  match u with
  | Second => 1000
  | Minute => 60 * 1000
  | Hour => 3600 * 1000
  | Day => 86400 * 1000
  | Week => 7 * (86400 * 1000)
  | Month => 30 * (86400 * 1000)
  end.

Fixpoint span (p : N -> bool) (s : jsstring) : jsstring * jsstring :=
  match s with
  | c :: s' => if p c then let (a, b) := span p s' in (c :: a, b) else ([], s)
  | [] => ([], [])
  end.

(** The letter [c], in either case, is the ASCII letter [p]. *)
Definition letter (c : N) (p : string) : bool :=
  match units p with
  | [x] => N.eqb (canonicalize c) (canonicalize x)
  | _ => false
  end.

(** The unit whose word starts [s], and what follows the letters that
    decide it.  Every word of a unit starts with the same letter; only [m]
    needs a second one ([mo...] is a month, any other [m...] a minute). *)
Definition unit_at (s : jsstring) : option (time_unit * jsstring) :=
  match s with
  | c :: s' =>
      if letter c "m" then
        match s' with
        | c' :: s'' => if letter c' "o" then Some (Month, s'') else Some (Minute, s')
        | [] => Some (Minute, s')
        end
      else if letter c "w" then Some (Week, s')
      else if letter c "d" then Some (Day, s')
      else if letter c "h" then Some (Hour, s')
      else if letter c "s" then Some (Second, s')
      else None
  | [] => None
  end.

Definition token_at (s : jsstring) : option (Z * time_unit * jsstring) :=
  let (ds, r1) := span is_digit s in
  match ds with
  | [] => None
  | _ :: _ =>
      match unit_at (snd (span is_space r1)) with
      | Some (u, rest) => Some (digits_value ds, u, rest)
      | None => None
      end
  end.

Lemma span_length p s : (length (snd (span p s)) <= length s)%nat.
Proof.
  induction s as [|c s IH]; simpl; [lia|].
  destruct (p c); [|simpl; lia].
  destruct (span p s) as [a b]; simpl in *; lia.
Qed.

Lemma unit_at_length s u rest :
  unit_at s = Some (u, rest) -> (length rest < length s)%nat.
Proof.
  unfold unit_at. destruct s as [|c [|c' s'']]; [discriminate| |];
    repeat (match goal with |- context [if ?b then _ else _] => destruct b end);
    intros [= <- <-] || discriminate; simpl; lia.
Qed.

Lemma token_at_length s q u rest :
  token_at s = Some (q, u, rest) -> (length rest < length s)%nat.
Proof.
  unfold token_at. pose proof (span_length is_digit s) as H1.
  destruct (span is_digit s) as [ds r1]; simpl in H1.
  destruct ds; [discriminate|].
  pose proof (span_length is_space r1) as H2.
  destruct (unit_at (snd (span is_space r1))) as [[u' rest']|] eqn:E; [|discriminate].
  intros [= <- <- <-]. apply unit_at_length in E. lia.
Qed.

Definition inspect {A} (a : A) : {b : A | a = b} := exist _ a eq_refl.

(** The tokens of a string, in source order. *)
Equations? tokens (s : jsstring) : list (Z * time_unit) by wf (length s) lt :=
  tokens [] := [];
  tokens (c :: s') with inspect (token_at (c :: s')) := {
    | exist _ (Some (q, u, rest)) _ => (q, u) :: tokens rest
    | exist _ None _ => tokens s' }.
Proof.
  match goal with H : token_at _ = Some _ |- _ => apply token_at_length in H end.
  simpl in *. lia.
Qed.

(** The exact total, in milliseconds. *)
Definition total (ts : list (Z * time_unit)) : Z :=
  fold_right (fun t acc => fst t * factor (snd t) + acc) 0 ts.

(** What one token adds, computed as the program computes it. *)
Definition unit_ms (u : time_unit) (value : number) : number :=
  match u with
  | Month => value * 30 * 24 * 60 * 60 * 1000
  | Week => value * 7 * 24 * 60 * 60 * 1000
  | Day => value * 24 * 60 * 60 * 1000
  | Hour => value * 60 * 60 * 1000
  | Minute => value * 60 * 1000
  | Second => value * 1000
  end%js.

Definition js_total (ts : list (Z * time_unit)) : number :=
  fold_left (fun ms t => (ms + unit_ms (snd t) (rnd (fst t)))%js) ts (Fin 0).

(** A well-formed duration string: integers directly followed by unit
    words (in any letter case), one pair after the other. *)
Definition is_unit_word (w : jsstring) : bool :=
  existsb (fun l => str_eqb (toLowerCase w) (units l)) unit_words.

Inductive well_formed : jsstring -> Prop :=
| wf_empty : well_formed []
| wf_pair ds w rest :
    ds <> [] -> forallb is_digit ds = true -> is_unit_word w = true ->
    well_formed rest -> well_formed (ds ++ w ++ rest).

(** ** Notions used to state and prove the properties of the parser *)

(** [w], compared as the [i] flag compares, starts [s]. *)
Fixpoint prefix_ci (w s : jsstring) : bool :=
  match w, s with
  | [], _ => true
  | p :: w', c :: s' => atom_matches (Chr p) c && prefix_ci w' s'
  | _ :: _, [] => false
  end.

(** The first word of [ws], in their order, that starts [s]. *)
Definition first_word (s : jsstring) (ws : list string) : option string :=
  find (fun w => prefix_ci (units w) s) ws.

(** The first alternative of the pattern that a unit stands for. *)
Definition word_of (u : time_unit) : string :=
  match u with
  | Month => "mo" | Week => "w" | Day => "d" | Hour => "h" | Minute => "m" | Second => "s"
  end.

(** [unit_at] and the first matching alternative, brought to one type. *)
Definition unit_at_word (s : jsstring) : option (string * jsstring) :=
  match unit_at s with
  | Some (u, rest) => Some (word_of u, rest)
  | None => None
  end.

Definition first_word_rest (s : jsstring) : option (string * jsstring) :=
  match first_word s unit_words with
  | Some w => Some (w, drop (length (units w)) s)
  | None => None
  end.

Definition is_letter (c : N) : bool :=
  ((65 <=? c) && (c <=? 90) || (97 <=? c) && (c <=? 122))%N.

(** The continuation at the end of the pattern. *)
Definition final (len : nat) : jsstring -> captures -> option (captures * nat) :=
  fun s' caps => Some (caps, (len - length s')%nat).

Definition is_lower (c : N) : bool := ((97 <=? c) && (c <=? 122))%N.

(** One round of the loop, seen from the token it matched. *)
Definition step (ms : number) (t : Z * time_unit) : number :=
  jsadd ms (unit_ms (snd t) (rnd (fst t))).

(** The unit of a unit word, the letters that follow the deciding ones,
    and whether a text can follow a unit word without changing its unit. *)
Definition word_unit (w : jsstring) : time_unit :=
  match unit_at w with Some (u, _) => u | None => Second end.

Definition word_rest (w : jsstring) : jsstring :=
  match unit_at w with Some (_, r) => r | None => [] end.

Definition starts_clean (s : jsstring) : bool :=
  match s with [] => true | c :: _ => negb (is_letter c) end.

(** The rounding written out in [rnd] is that of the machine's binary64
    arithmetic, here on the sums that separate the two sides of the
    concatenation law. *)
Definition binary64_value (x : float) : option Z :=
  match Prim2SF x with
  | S754_zero _ => Some 0
  | S754_finite false m e => if 0 <=? e then Some (Z.pos m * 2 ^ e) else None
  | _ => None
  end.

Definition of_number (x : number) : option Z :=
  match x with Fin z => Some z | _ => None end.

(** The word [parseDurationToString] prints for a unit. *)
Definition label_of (u : time_unit) (singular : bool) : string :=
  match u, singular with
  | Month, true => "month" | Month, false => "months"
  | Week, true => "week" | Week, false => "weeks"
  | Day, true => "day" | Day, false => "days"
  | Hour, true => "hour" | Hour, false => "hours"
  | Minute, true => "minute" | Minute, false => "minutes"
  | Second, true => "second" | Second, false => "seconds"
  end.

(** What one token becomes: its integer as the program's number prints, a
    space, and the word of its unit, singular for the integer one only. *)
Definition part (t : Z * time_unit) : jsstring :=
  Number_toString (rnd (fst t)) ++ units " " ++ units (label_of (snd t) (fst t =? 1)).

(** Two strings differ at most in the case of ASCII letters. *)
Definition same_up_to_case (a b : jsstring) : Prop := map lower a = map lower b.

(** Every integer written in [s] is at most [2^53]. *)
Definition safe_integers (s : jsstring) : Prop :=
  Forall (fun t => fst t <= 2 ^ 53) (tokens s).

(** ** Notions used to state and prove the properties of the middleware *)

Section Observations.
Context `{JsonLib}.

(** How many events of [t] satisfy [p]. *)
Fixpoint count (p : Event -> bool) (t : list Event) : nat :=
  match t with
  | [] => 0
  | e :: t' => ((if p e then 1 else 0) + count p t')%nat
  end.

Definition is_get (e : Event) : bool := match e with EvGet _ _ => true | _ => false end.
Definition is_set (e : Event) : bool := match e with EvSet _ _ _ => true | _ => false end.
Definition is_new (e : Event) : bool := match e with EvNew _ _ => true | _ => false end.
Definition is_next (e : Event) : bool := match e with EvNext => true | _ => false end.
Definition is_patch (e : Event) : bool := match e with EvPatch => true | _ => false end.
Definition store_io (e : Event) : bool :=
  match e with
  | EvGet _ _ | EvSet _ _ _ | EvExpire _ _ _ | EvClose _ => true
  | _ => false
  end.

(** What stays as it is while the handler runs. *)
Record Fixed := {
  f_module : Module_;
  f_nextClient : Client;
  f_patched : bool;
  f_client : Client;
  f_should : bool;
  f_hit : bool;
  f_hitValue : option Json
}.

Definition fixed (st : State) : Fixed :=
  {| f_module := module_ st;
     f_nextClient := nextClient (world st);
     f_patched := jsonPatched (res st);
     f_client := client (vars st);
     f_should := shouldCloseClient (vars st);
     f_hit := cacheHit (vars st);
     f_hitValue := cacheHitValue (vars st) |}.

(** The events a handler can cause, given what is fixed. *)
Definition handler_event (f : Fixed) (key : jsstring) (e : Event) : Prop :=
  match e with
  | EvJson b => f_patched f = true -> f_hit f = true -> b = f_hitValue f
  | EvSet c k _ | EvExpire c k _ =>
      f_patched f = true /\ f_hit f = false /\ c = f_client f /\ k = key
  | EvClose c => f_patched f = true /\ f_hit f = false /\ f_should f = true /\ c = f_client f
  | EvHeader n v => f_patched f = true /\ f_hit f = false /\ n = X_BREEZEAPI_CACHE /\ v = MISS
  | _ => False
  end.

(** Every object [res.json] has returned carries the property that the
    function then installed gives it. *)
Definition object_ok (f : Fixed) (r : Response) : Prop :=
  if f_patched f then
    if f_hit f then r = {| sent := f_hitValue f; cache_method := CacheNoop |}
    else exists b, r = {| sent := Some b; cache_method := CacheCommit b |}
  else cache_method r = NoCacheMethod.

(** The handler awaits [.cache()] only on objects it got from [res.json];
    [n] counts the objects it has got so far. *)
Inductive polite (n : nat) : Handler -> Prop :=
| polite_return r : polite n (Return r)
| polite_json body k : (forall r, polite (S n) (k r)) -> polite n (CallJson body k)
| polite_cache i k : (i < n)%nat -> (forall r, polite n (k r)) -> polite n (CallCache i k).

(** [excludedPaths && excludedPaths.some(path => req.url.startsWith(path))] *)
Definition excluded (data : BreezeCacheConfig) (req : Request) : bool :=
  match excludedPaths data with
  | Some paths => existsb (fun path => startsWith (url req) path) paths
  | None => false
  end.

(** The configuration with which a request goes to the store, if it does. *)
Definition caching_config (w : World) (req : Request) : option BreezeCacheConfig :=
  match breezeCacheConfigSchema_safeParse (registry w) with
  | Some data =>
      if truthy (redisUrl data) && enabled data && negb (excluded data req)
      then Some data else None
  | None => None
  end.

(** What [cacheMiddleware] does between the configuration checks and
    [next()]. *)
Definition lookup_phase (data : BreezeCacheConfig) (cacheKey : jsstring) : M unit :=
  write (on_vars (with_shouldCloseClient false)) ;;
  let* shared := read (fun st => shared_for (redisUrl data) (module_ st)) in
  (match shared with
   | Some c =>
       write (on_vars (with_client c)) ;;
       write (on_module (with_cacheInitialized true))
   | None =>
       let* c := new_RedisClient (redisUrl data) in
       write (on_vars (with_client c)) ;;
       write (on_module (with_cacheInitialized true)) ;;
       write (on_vars (with_shouldCloseClient true))
   end) ;;
  write (on_vars (with_alreadyCached false)) ;;
  write (on_vars (with_cacheHitValue None)) ;;
  write (on_vars (with_cacheHit false)) ;;
  write (on_res (with_jsonPatched true)) ;;
  emit EvPatch ;;
  write (on_vars (with_cached None)) ;;
  write (on_vars (with_retried false)) ;;
  let* cacheOk := tryGetCache (redisUrl data) cacheKey in
  if negb cacheOk then close_per_request
  else
    let* text := read (fun st => cached (vars st)) in
    match text with
    | Some t =>
        if truthy t then
          write (on_vars (with_alreadyCached true)) ;;
          write (on_vars (with_cacheHit true)) ;;
          match JSON_parse t with
          | Some v =>
              write (on_vars (with_cacheHitValue (Some v))) ;;
              res_header X_BREEZEAPI_CACHE HIT ;;
              close_per_request
          | None => ret tt
          end
        else ret tt
    | None => ret tt
    end.

(** The state in which a request that does not go to the store reaches
    the handler: only an excluded path leaves [_cacheInitialized] alone. *)
Definition bypass_state (req : Request) (st : State) : State :=
  match breezeCacheConfigSchema_safeParse (registry (world st)) with
  | Some data =>
      if truthy (redisUrl data) && enabled data
      then st else on_module (with_cacheInitialized false) st
  | None => on_module (with_cacheInitialized false) st
  end.

(** Which events the lookup can cause: a [get] is for the key, a [close]
    hits a connection this request opened for itself. *)
Definition lookup_event (key : jsstring) (exclusive : bool) (first last : Client)
    (e : Event) : Prop :=
  match e with
  | EvGet _ k => k = key
  | EvClose c => exclusive = true /\ (first <= c < last)%nat
  | EvSet _ _ _ | EvExpire _ _ _ | EvNext | EvJson _ => False
  | EvHeader n v => n = X_BREEZEAPI_CACHE /\ v = HIT
  | EvNew _ _ | EvPatch => True
  end.

(** The request will open a connection of its own. *)
Definition exclusive_for (u : jsstring) (m : Module_) : bool :=
  match shared_for u m with Some _ => false | None => true end.

(** What the lookup yields, if it succeeds: at once, or at the one retry
    after a closed connection. *)
Definition lookup_outcome (w : World) (key : jsstring) : option (option jsstring) :=
  match faults w with
  | [] | NoFault :: _ => Some (store w !! key)
  | Fails code :: rest =>
      if is_closed_code code then
        match rest with
        | [] | NoFault :: _ => Some (store w !! key)
        | Fails _ :: _ => None
        end
      else None
  end.

(** The lookup fails, finds nothing, or finds the empty string. *)
Definition is_miss (w : World) (key : jsstring) : bool :=
  match lookup_outcome w key with
  | Some (Some text) => negb (truthy text)
  | _ => true
  end.

(** What happened after the first [get]. *)
Fixpoint after_first_get (t : list Event) : list Event :=
  match t with
  | [] => []
  | e :: t' => if is_get e then t' else after_first_get t'
  end.

(** The connections opened after the first [get]: the reconnects. *)
Definition reconnects (t : list Event) : nat := count is_new (after_first_get t).

(** The state in which the handler starts. *)
Definition entered (st : State) : State := on_trace (fun t => t ++ [EvNext]) st.

(** Every store call in [t] comes after the patch of [res.json]. *)
Definition patched_before_io (t : list Event) : Prop :=
  forall pre e post, t = pre ++ e :: post -> store_io e = true -> In EvPatch pre.

(** An object with the commit capability, for the body that was sent. *)
Definition commit_object (r : Response) : Prop :=
  exists b, r = {| sent := Some b; cache_method := CacheCommit b |}.

(** The same per-route configuration with another [enabled], or another
    [cacheKey]. *)
Definition with_conf_cacheKey (k : option jsstring) (conf : CacheConf) : CacheConf :=
  {| conf_enabled := conf_enabled conf; conf_cacheKey := k;
     conf_duration := conf_duration conf |}.

Definition with_conf_enabled (b : option bool) (conf : CacheConf) : CacheConf :=
  {| conf_enabled := b; conf_cacheKey := conf_cacheKey conf;
     conf_duration := conf_duration conf |}.

(** A handler that awaits [.cache()] [n] times on the object it got first
    and returns what the last call gave it. *)
Fixpoint commit_times (n : nat) (r : Response) : Handler :=
  match n with
  | O => Return (Some r)
  | S n' => CallCache 0 (commit_times n')
  end.

End Observations.

Section FurtherObservations.
Context `{JsonLib}.

Definition is_close (e : Event) : bool := match e with EvClose _ => true | _ => false end.
Definition is_expire (e : Event) : bool := match e with EvExpire _ _ _ => true | _ => false end.
Definition is_json (e : Event) : bool := match e with EvJson _ => true | _ => false end.

(** What the store does to the next call, and to the calls after it. *)
Definition first_fault (fs : list Fault) : Fault :=
  match fs with [] => NoFault | f :: _ => f end.

(** A write of this request: under its key, a serialized body, with the
    time to live of its configuration. *)
Definition write_event (conf : CacheConf) (key : jsstring) (e : Event) : Prop :=
  match e with
  | EvSet _ k v => k = key /\ exists b, v = JSON_stringify b
  | EvExpire _ k s => k = key /\ s = durationSeconds conf
  | _ => True
  end.

(** The handler calls [res.json] only, never [.cache()]. *)
Inductive json_only : Handler -> Prop :=
| json_only_return r : json_only (Return r)
| json_only_json body k : (forall r, json_only (k r)) -> json_only (CallJson body k).

(** The store after a commit of [value] under [key], when [fs] is what the
    store does to the [set] and the calls after it. *)
Definition after_write (fs : list Fault) (key value : jsstring)
    (s : gmap jsstring jsstring) : gmap jsstring jsstring :=
  match first_fault fs with
  | NoFault => <[key := value]> s
  | Fails _ => s
  end.

(** The configuration in the registry is one that [initializeCache] and
    [setCache] accept. *)
Definition valid_config (w : World) : option BreezeCacheConfig :=
  match breezeCacheConfigSchema_safeParse (registry w) with
  | Some data => if truthy (redisUrl data) then Some data else None
  | None => None
  end.

(** The events of a first initialization, or of one for another URL. *)
Definition replacement (m : Module_) (u : jsstring) (c : Client) : list Event :=
  match _sharedRedisClient m, _sharedRedisUrl m with
  | Some old, Some u0 =>
      if truthy u0 && negb (bool_decide (u0 = u)) then [EvClose old; EvNew c u] else [EvNew c u]
  | _, _ => [EvNew c u]
  end.

(** The connection [setCache] writes on, and the event of its opening. *)
Definition setCache_client (u : jsstring) (st : State) : Client :=
  match shared_for u (module_ st) with
  | Some c => c
  | None => nextClient (world st)
  end.

Definition setCache_opening (u : jsstring) (st : State) : list Event :=
  match shared_for u (module_ st) with
  | Some _ => []
  | None => [EvNew (nextClient (world st)) u]
  end.

(** The configuration with which the first version goes to the store. *)
Definition caching_config_v1 (w : World) (req : Request) : option BreezeCacheConfig :=
  match breezeCacheConfigSchema_v1_safeParse (registry w) with
  | Some data =>
      if truthy (redisUrl data) && enabled data && negb (excluded data req)
      then Some data else None
  | None => None
  end.

(** The value that the store holds for a key, if it holds one that
    parses. *)
Definition stored_value (w : World) (key : jsstring) : option Json :=
  match store w !! key with
  | Some text => if truthy text then JSON_parse text else None
  | None => None
  end.

End FurtherObservations.

(** ** Concrete requests *)

(** Bodies are their own serialization; the text [corrupt] does not parse. *)
Definition text_json : JsonLib :=
  {| Json := jsstring;
     JSON_parse := fun s => if str_eqb s (units "corrupt") then None else Some s;
     JSON_stringify := fun j => j;
     is_url := fun s => startsWith s (units "redis://") |}.

Definition sample_config : RawBreezeConfig :=
  {| raw_redisUrl := Present (units "redis://cache");
     raw_enabled := Absent;
     raw_excludedPaths := Present [units "/auth"];
     raw_debug := Absent |}.

Definition sample_data : BreezeCacheConfig :=
  {| redisUrl := units "redis://cache"; enabled := true;
     excludedPaths := Some [units "/auth"]; debug := None |}.

Definition sample_world (entries : list (jsstring * jsstring)) (fs : list Fault) : World :=
  {| registry := Some sample_config; store := list_to_map entries;
     faults := fs; nextClient := 5%nat |}.

Definition no_shared : Module_ :=
  {| _cacheInitialized := false; _sharedRedisClient := None; _sharedRedisUrl := None |}.

Definition sample_request : Request := {| url := units "/a" |}.

Definition one_hour : CacheConf :=
  {| conf_enabled := None; conf_cacheKey := None;
     conf_duration := Some (DString (units "1h")) |}.

Definition custom_key : CacheConf :=
  {| conf_enabled := None; conf_cacheKey := Some (units "custom");
     conf_duration := Some (DString (units "1h")) |}.

Definition no_duration : CacheConf :=
  {| conf_enabled := None; conf_cacheKey := None; conf_duration := None |}.

(** [return res.json(body).cache()] *)
Abbreviation json_then_cache body := (@CallJson text_json body (@commit_times text_json 1)).

Definition closed_twice : list Fault :=
  [Fails (Some ERR_REDIS_CONNECTION_CLOSED); Fails (Some ERR_REDIS_CONNECTION_CLOSED)].

Abbreviation sample_run conf w :=
  (@cacheMiddleware text_json conf sample_request (json_then_cache (units "fresh"))
     (@arrival text_json no_shared w ∅)).

Definition excluded_request : Request := {| url := units "/auth/login" |}.




(** A module whose shared connection is number [1], for the URL [u]. *)
Definition shared_on (u : string) : Module_ :=
  {| _cacheInitialized := true; _sharedRedisClient := Some 1%nat;
     _sharedRedisUrl := Some (units u) |}.

Definition closed_once : list Fault := [Fails (Some ERR_REDIS_CONNECTION_CLOSED)].

(** [res.json(body)] and nothing else; [res.json] twice. *)
Abbreviation json_only_handler body :=
  (@CallJson text_json body (fun r => @Return text_json (Some r))).
Abbreviation json_twice a b :=
  (@CallJson text_json a (fun _ => @CallJson text_json b (fun r => @Return text_json (Some r)))).

(** A [duration] without a unit. *)
Definition bare_sixty : CacheConf :=
  {| conf_enabled := None; conf_cacheKey := None;
     conf_duration := Some (DString (units "60")) |}.

(** * Properties of the duration parser *)

Lemma tokens_some c s' q u rest :
  token_at (c :: s') = Some (q, u, rest) -> tokens (c :: s') = (q, u) :: tokens rest.
Proof.
  intros H. rewrite tokens_equation_2.
  destruct (inspect (token_at (c :: s'))) as [[[[q' u'] rest']|] e]; simpl;
    rewrite H in e; congruence.
Qed.

Lemma tokens_none c s' :
  token_at (c :: s') = None -> tokens (c :: s') = tokens s'.
Proof.
  intros H. rewrite tokens_equation_2.
  destruct (inspect (token_at (c :: s'))) as [[[[q' u'] rest']|] e]; simpl;
    rewrite H in e; congruence.
Qed.

Lemma span_app p s : fst (span p s) ++ snd (span p s) = s.
Proof.
  induction s as [|c s IH]; simpl; [reflexivity|].
  destruct (p c); [|reflexivity].
  destruct (span p s) as [a b]; simpl in *. now rewrite IH.
Qed.

Lemma span_take p s :
  take (length s - length (snd (span p s))) s = fst (span p s).
Proof.
  pose proof (span_app p s) as H.
  destruct (span p s) as [a b]; simpl in *. subst s.
  rewrite length_app.
  replace (length a + length b - length b)%nat with (length a) by lia.
  apply take_app_length.
Qed.

Lemma span_head p s c s' : snd (span p s) = c :: s' -> p c = false.
Proof.
  induction s as [|x s IH]; simpl; [discriminate|].
  destruct (p x) eqn:E.
  - destruct (span p s) as [a b]; simpl in *. exact IH.
  - simpl. intros [= <- <-]. exact E.
Qed.

Lemma star_span {R} a (k : jsstring -> option R) s :
  (forall c s', atom_matches a c = true -> k (c :: s') = None) ->
  star a k s = k (snd (span (atom_matches a) s)).
Proof.
  intros Hk. induction s as [|c s IH]; simpl; [reflexivity|].
  destruct (atom_matches a c) eqn:E; [|reflexivity].
  rewrite IH. destruct (span (atom_matches a) s) as [x y]; simpl.
  destruct (k y); [reflexivity|]. now apply Hk.
Qed.

Lemma matcher_lit {R} w s caps (k : jsstring -> captures -> option R) :
  matcher (lit w) s caps k =
  if prefix_ci w s then k (drop (length w) s) caps else None.
Proof.
  revert s. induction w as [|p w IH]; intros s; [reflexivity|].
  destruct w as [|p' w'].
  - simpl. destruct s as [|c s']; [reflexivity|].
    destruct (N.eqb _ _); reflexivity.
  - change (lit (p :: p' :: w')) with (Cat (Atom (Chr p)) (lit (p' :: w'))).
    cbn [matcher]. destruct s as [|c s']; [reflexivity|].
    cbn [prefix_ci]. destruct (atom_matches (Chr p) c); [|reflexivity].
    rewrite IH. reflexivity.
Qed.

Lemma matcher_alternatives {R} ws s caps (k : jsstring -> captures -> option R) :
  ws <> [] -> (forall s' caps', k s' caps' <> None) ->
  matcher (alternatives ws) s caps k =
  match first_word s ws with
  | Some w => k (drop (length (units w)) s) caps
  | None => None
  end.
Proof.
  intros Hne Hk. induction ws as [|w ws IH]; [congruence|].
  destruct ws as [|w' ws'].
  - cbn [alternatives]. rewrite matcher_lit. unfold first_word. simpl.
    destruct (prefix_ci (units w) s); reflexivity.
  - change (alternatives (w :: w' :: ws'))
      with (Alt (lit (units w)) (alternatives (w' :: ws'))).
    cbn [matcher]. rewrite matcher_lit. unfold first_word in *. cbn [find].
    destruct (prefix_ci (units w) s).
    + destruct (k (drop (length (units w)) s) caps) eqn:E; [reflexivity|].
      now apply Hk in E.
    + apply IH. discriminate.
Qed.

Ltac split_unit k c :=
  let H := fresh "Hne" in
  destruct (N.eq_dec k c) as [->|H]; [| apply N.eqb_neq in H; rewrite ?H].

Lemma first_word_unit_at s : first_word_rest s = unit_at_word s.
Proof.
  unfold first_word_rest, unit_at_word, unit_at, letter, first_word.
  destruct s as [|c [|c' s'']]; [reflexivity | |].
  - cbv -[canonicalize N.eqb].
    generalize (canonicalize c); intros k. cbv -[N.eqb].
    split_unit k 77%N; [reflexivity|].
    split_unit k 87%N; [reflexivity|].
    split_unit k 68%N; [reflexivity|].
    split_unit k 72%N; [reflexivity|].
    split_unit k 83%N; [reflexivity|].
    reflexivity.
  - cbv -[canonicalize N.eqb].
    generalize (canonicalize c) (canonicalize c'); intros k k'. cbv -[N.eqb].
    split_unit k 77%N.
    { split_unit k' 79%N; reflexivity. }
    split_unit k 87%N; [reflexivity|].
    split_unit k 68%N; [reflexivity|].
    split_unit k 72%N; [reflexivity|].
    split_unit k 83%N; [reflexivity|].
    reflexivity.
Qed.

Lemma unit_at_letter c t : is_letter c = false -> unit_at (c :: t) = None.
Proof.
  intros H. unfold unit_at, letter. cbv -[canonicalize N.eqb unit_at].
  assert (Hc : canonicalize c = c /\ ((c < 65)%N \/ (90 < c)%N)).
  { unfold is_letter, canonicalize in *.
    destruct (N.leb_spec 65 c), (N.leb_spec c 90), (N.leb_spec 97 c), (N.leb_spec c 122);
      simpl in *; try discriminate; split; try reflexivity; lia. }
  destruct Hc as [-> Hc]. cbv -[N.eqb].
  repeat match goal with
         | |- context [N.eqb c ?k] => destruct (N.eqb_spec c k); [lia|]
         end.
  reflexivity.
Qed.

Lemma digit_not_letter c : is_digit c = true -> is_letter c = false.
Proof.
  unfold is_digit, is_letter.
  destruct (N.leb_spec 48 c), (N.leb_spec c 57), (N.leb_spec 65 c), (N.leb_spec c 90),
    (N.leb_spec 97 c), (N.leb_spec c 122); simpl; intros; try discriminate; try reflexivity; lia.
Qed.

Lemma digit_not_space c : is_digit c = true -> is_space c = false.
Proof.
  unfold is_digit, is_space. intros H.
  apply andb_true_iff in H as [H1 H2]. apply N.leb_le in H1, H2.
  repeat match goal with
         | |- context [N.leb ?a ?b] => destruct (N.leb_spec a b); try lia
         | |- context [N.eqb ?a ?b] => destruct (N.eqb_spec a b); try lia
         end; reflexivity.
Qed.

Lemma space_not_letter c : is_space c = true -> is_letter c = false.
Proof.
  unfold is_space, is_letter. intros H.
  destruct (N.leb_spec 65 c), (N.leb_spec c 90), (N.leb_spec 97 c), (N.leb_spec c 122);
    simpl; try reflexivity; exfalso;
    repeat match type of H with
         | context [N.leb ?a ?b] => destruct (N.leb_spec a b); try lia
         | context [N.eqb ?a ?b] => destruct (N.eqb_spec a b); try lia
         end; simpl in H; discriminate.
Qed.

Lemma first_word_none c t : is_letter c = false -> first_word (c :: t) unit_words = None.
Proof.
  intros H. pose proof (first_word_unit_at (c :: t)) as E.
  unfold first_word_rest, unit_at_word in E. rewrite (unit_at_letter _ _ H) in E.
  destruct (first_word (c :: t) unit_words); [discriminate | reflexivity].
Qed.

Lemma group2_eq s caps len :
  matcher (alternatives unit_words) s caps
    (fun s1 caps1 => final len s1 ((2%nat, take (length s - length s1) s) :: caps1)) =
  match first_word s unit_words with
  | Some w =>
      let rest := drop (length (units w)) s in
      Some ((2%nat, take (length s - length rest) s) :: caps, (len - length rest)%nat)
  | None => None
  end.
Proof.
  rewrite matcher_alternatives; [|discriminate|discriminate].
  destruct (first_word s unit_words); reflexivity.
Qed.

Lemma match_here_eq s :
  match_here duration_regex s =
  let (ds, r1) := span is_digit s in
  match ds with
  | [] => None
  | _ :: _ =>
      let r2 := snd (span is_space r1) in
      match first_word r2 unit_words with
      | Some w =>
          let rest := drop (length (units w)) r2 in
          Some ([(2%nat, take (length r2 - length rest) r2); (1%nat, ds)],
                (length s - length rest)%nat)
      | None => None
      end
  end.
Proof.
  unfold match_here, duration_regex. fold (final (length s)).
  cbn [matcher]. destruct s as [|c s']; [reflexivity|].
  change (atom_matches Digit) with is_digit. change (atom_matches Space) with is_space.
  cbn [span]. destruct (is_digit c) eqn:Hc; [|reflexivity].
  rewrite star_span.
  - pose proof (span_take is_digit (c :: s')) as Ht. cbn [span] in Ht. rewrite Hc in Ht.
    change (atom_matches Digit) with is_digit.
    destruct (span is_digit s') as [a b]. cbn [fst snd] in *.
    rewrite Ht. rewrite star_span.
    + change (atom_matches Space) with is_space. apply group2_eq.
    + intros d t Hd. cbn [atom_matches] in Hd. rewrite group2_eq.
      now rewrite first_word_none by now apply space_not_letter.
  - intros d t Hd. cbn [atom_matches] in Hd. cbn [star atom_matches].
    rewrite (digit_not_space _ Hd). rewrite group2_eq.
    now rewrite first_word_none by now apply digit_not_letter.
Qed.

Lemma lower_of_canonical c k :
  canonicalize c = k -> (65 <= k)%N -> (k <= 90)%N -> lower c = (k + 32)%N.
Proof.
  unfold canonicalize, lower. intros H H1 H2.
  destruct (N.leb_spec 97 c), (N.leb_spec c 122), (N.leb_spec 65 c), (N.leb_spec c 90);
    simpl in *; lia.
Qed.

Lemma prefix_ci_length w s : prefix_ci w s = true -> (length w <= length s)%nat.
Proof.
  revert s. induction w as [|p w IH]; intros s H; simpl; [lia|].
  destruct s as [|c s']; [discriminate|]. simpl in *.
  apply andb_true_iff in H as [_ H]. apply IH in H. lia.
Qed.

Lemma prefix_ci_lower w s :
  prefix_ci w s = true -> forallb is_lower w = true ->
  toLowerCase (take (length w) s) = w.
Proof.
  revert s. induction w as [|p w IH]; intros s H Hw; [reflexivity|].
  destruct s as [|c s']; [discriminate|]. simpl in *.
  apply andb_true_iff in H as [Hc H]. apply andb_true_iff in Hw as [Hp Hw].
  rewrite (IH _ H Hw). f_equal.
  apply N.eqb_eq in Hc. unfold is_lower in Hp.
  apply andb_true_iff in Hp as [Hp1 Hp2]. apply N.leb_le in Hp1, Hp2.
  assert (Hk : canonicalize p = (p - 32)%N).
  { unfold canonicalize. destruct (N.leb_spec 97 p), (N.leb_spec p 122); simpl; lia. }
  rewrite Hk in Hc.
  rewrite (lower_of_canonical c (p - 32)%N Hc); lia.
Qed.

Lemma unit_words_lower : forallb (fun w => forallb is_lower (units w)) unit_words = true.
Proof. reflexivity. Qed.

Lemma first_word_some s w :
  first_word s unit_words = Some w ->
  prefix_ci (units w) s = true /\ forallb is_lower (units w) = true.
Proof.
  unfold first_word. intros H. apply find_some in H as [Hin Hp]. split; [exact Hp|].
  pose proof unit_words_lower as Hl. rewrite forallb_forall in Hl. now apply Hl.
Qed.

Lemma unit_at_suffix s u rest : unit_at s = Some (u, rest) -> exists pre, s = pre ++ rest.
Proof.
  unfold unit_at. destruct s as [|c [|c' s'']]; [discriminate| |];
    repeat (match goal with |- context [if ?b then _ else _] => destruct b end);
    intros [= <- <-] || discriminate;
    first [ now exists [c] | now exists [c; c'] ].
Qed.

Lemma token_at_suffix s q u rest :
  token_at s = Some (q, u, rest) -> drop (length s - length rest) s = rest.
Proof.
  unfold token_at. pose proof (span_app is_digit s) as H1.
  destruct (span is_digit s) as [ds r1]; simpl in H1.
  destruct ds as [|d ds]; [discriminate|].
  pose proof (span_app is_space r1) as H2.
  destruct (unit_at (snd (span is_space r1))) as [[u' rest']|] eqn:E; [|discriminate].
  intros [= <- <- <-]. apply unit_at_suffix in E as [pre E].
  rewrite E in H2. rewrite <- H2 in H1. rewrite <- H1.
  rewrite !app_assoc. rewrite length_app.
  match goal with |- drop ?n (?a ++ _) = _ => replace n with (length a) by lia end.
  apply drop_app_length.
Qed.

Lemma match_here_token s :
  match token_at s with
  | Some (q, u, rest) =>
      exists c1 c2,
        match_here duration_regex s
        = Some ([(2%nat, c2); (1%nat, c1)], (length s - length rest)%nat) /\
        digits_value c1 = q /\ toLowerCase c2 = units (word_of u)
  | None => match_here duration_regex s = None
  end.
Proof.
  rewrite match_here_eq. unfold token_at.
  destruct (span is_digit s) as [ds r1]. destruct ds as [|d ds]; [reflexivity|].
  cbn zeta. set (r2 := snd (span is_space r1)).
  pose proof (first_word_unit_at r2) as E. unfold first_word_rest, unit_at_word in E.
  destruct (first_word r2 unit_words) as [w|] eqn:Ew;
    destruct (unit_at r2) as [[u rest]|]; try discriminate; [|reflexivity].
  injection E as Hw Hr. subst rest.
  eexists _, _. split; [reflexivity|]. split; [reflexivity|].
  apply first_word_some in Ew as [Hp Hl].
  pose proof (prefix_ci_length _ _ Hp) as Hlen.
  rewrite length_drop.
  replace (length r2 - (length r2 - length (units w)))%nat with (length (units w)) by lia.
  rewrite <- Hw. now apply prefix_ci_lower.
Qed.

Lemma switch_unit_word u v ms :
  switch_unit (units (word_of u)) v ms = jsadd ms (unit_ms u v).
Proof. destruct u; reflexivity. Qed.

Lemma token_at_nil : token_at [] = None.
Proof. reflexivity. Qed.

Lemma exec_from_tokens s i :
  match exec_from duration_regex s i with
  | Some (caps, i') =>
      exists q u rest,
        tokens s = (q, u) :: tokens rest /\ (i < i')%nat /\ (i' <= i + length s)%nat /\
        drop (i' - i) s = rest /\
        digits_value (capture 1 caps) = q /\
        toLowerCase (capture 2 caps) = units (word_of u)
  | None => tokens s = []
  end.
Proof.
  revert i. induction s as [|c s' IH]; intros i.
  - reflexivity.
  - cbn [exec_from]. pose proof (match_here_token (c :: s')) as H.
    destruct (token_at (c :: s')) as [[[q u] rest]|] eqn:E.
    + destruct H as (c1 & c2 & -> & Hq & Hu).
      pose proof (token_at_length _ _ _ _ E) as Hlen.
      exists q, u, rest. split; [now apply tokens_some|].
      split; [lia|]. split; [lia|]. split; [|split; [exact Hq | exact Hu]].
      replace (i + (length (c :: s') - length rest) - i)%nat
        with (length (c :: s') - length rest)%nat by lia.
      eapply token_at_suffix; eassumption.
    + rewrite H. specialize (IH (S i)). rewrite (tokens_none _ _ E).
      destruct (exec_from duration_regex s' (S i)) as [[caps i']|]; [|exact IH].
      destruct IH as (q & u & rest & Ht & H1 & H2 & H3 & H4).
      exists q, u, rest. split; [exact Ht|]. split; [lia|]. split; [simpl; lia|].
      split; [|exact H4].
      replace (i' - i)%nat with (S (i' - S i)) by lia. exact H3.
Qed.

Lemma loop_tokens n input li ms :
  (li <= length input)%nat -> (length input - li < n)%nat ->
  parseDuration_loop n input li ms = fold_left step (tokens (drop li input)) ms.
Proof.
  revert li ms. induction n as [|n IH]; intros li ms H1 H2; [lia|].
  cbn [parseDuration_loop]. unfold regex_exec.
  pose proof (exec_from_tokens (drop li input) li) as H.
  destruct (exec_from duration_regex (drop li input) li) as [[caps i']|].
  - destruct H as (q & u & rest & Ht & Hlt & Hle & Hd & Hq & Hu).
    rewrite length_drop in Hle.
    rewrite IH by lia. rewrite Ht. cbn [fold_left].
    rewrite drop_drop in Hd. replace (li + (i' - li))%nat with i' in Hd by lia.
    rewrite Hd. f_equal. unfold step, parseInt. cbn [fst snd].
    rewrite Hu, Hq. apply switch_unit_word.
  - rewrite H. reflexivity.
Qed.

Lemma parseDuration_js_total input : parseDuration input = js_total (tokens input).
Proof.
  unfold parseDuration. rewrite loop_tokens by lia. reflexivity.
Qed.

Lemma rnd_exact z : z <= 2 ^ 53 -> rnd z = Fin z.
Proof. intros H. unfold rnd. apply Z.leb_le in H. now rewrite H. Qed.

Lemma unit_ms_exact u q :
  0 <= q -> q * factor u <= 2 ^ 53 -> unit_ms u (rnd q) = Fin (q * factor u).
Proof.
  intros H0 H. change (2 ^ 53) with 9007199254740992 in H.
  assert (Hq : rnd q = Fin q).
  { apply rnd_exact. change (2 ^ 53) with 9007199254740992. destruct u; simpl in H; lia. }
  rewrite Hq. destruct u; unfold unit_ms, jsmul, factor in *;
    repeat (rewrite rnd_exact by (change (2 ^ 53) with 9007199254740992; lia));
    f_equal; lia.
Qed.

Lemma digits_fold_nonneg ds acc :
  forallb is_digit ds = true -> 0 <= acc ->
  0 <= fold_left (fun a c => 10 * a + (Z.of_N c - 48)) ds acc.
Proof.
  revert acc. induction ds as [|c ds IH]; intros acc Hd Hacc; simpl; [exact Hacc|].
  simpl in Hd. apply andb_true_iff in Hd as [Hc Hd]. apply IH; [exact Hd|].
  unfold is_digit in Hc. apply andb_true_iff in Hc as [Hc _]. apply N.leb_le in Hc. lia.
Qed.

Lemma digits_value_nonneg ds : forallb is_digit ds = true -> 0 <= digits_value ds.
Proof. intros H. apply digits_fold_nonneg; [exact H | lia]. Qed.

Lemma span_forallb p s : forallb p (fst (span p s)) = true.
Proof.
  induction s as [|c s IH]; simpl; [reflexivity|].
  destruct (p c) eqn:E; [|reflexivity].
  destruct (span p s) as [a b]; simpl in *. now rewrite E.
Qed.

Lemma token_at_nonneg s q u rest : token_at s = Some (q, u, rest) -> 0 <= q.
Proof.
  unfold token_at. pose proof (span_forallb is_digit s) as H.
  destruct (span is_digit s) as [ds r1]; simpl in H.
  destruct ds; [discriminate|].
  destruct (unit_at _) as [[u' rest']|]; [|discriminate].
  intros [= <- <- <-]. now apply digits_value_nonneg.
Qed.

Lemma tokens_nonneg s : Forall (fun t => 0 <= fst t) (tokens s).
Proof.
  remember (length s) as n eqn:Hn. revert s Hn.
  induction n as [n IH] using lt_wf_ind. intros s Hn.
  destruct s as [|c s']; [constructor|].
  destruct (token_at (c :: s')) as [[[q u] rest]|] eqn:E.
  - rewrite (tokens_some _ _ _ _ _ E). constructor.
    + simpl. eapply token_at_nonneg; eassumption.
    + apply (IH (length rest)); [|reflexivity].
      apply token_at_length in E. lia.
  - rewrite (tokens_none _ _ E). apply (IH (length s')); [|reflexivity].
    subst n. simpl. lia.
Qed.

Lemma factor_pos u : 0 < factor u.
Proof. destruct u; reflexivity. Qed.

Lemma total_nonneg ts : Forall (fun t => 0 <= fst t) ts -> 0 <= total ts.
Proof.
  induction 1 as [|t ts Ht _ IH]; simpl; [lia|].
  pose proof (factor_pos (snd t)). nia.
Qed.

Lemma fold_step_exact ts acc :
  Forall (fun t => 0 <= fst t) ts -> 0 <= acc -> acc + total ts <= 2 ^ 53 ->
  fold_left step ts (Fin acc) = Fin (acc + total ts).
Proof.
  intros Hts. revert acc. induction Hts as [|t ts Ht Hts IH]; intros acc Hacc Hle.
  - simpl. f_equal. lia.
  - pose proof (total_nonneg _ Hts) as Hn. pose proof (factor_pos (snd t)) as Hf.
    cbn [total fold_right] in Hle. fold (total ts) in Hle.
    cbn [fold_left total fold_right]. fold (total ts).
    unfold step at 2.
    rewrite unit_ms_exact by (try assumption; nia).
    unfold jsadd. rewrite rnd_exact by nia.
    rewrite IH by nia. f_equal. lia.
Qed.

Lemma parseDuration_exact input :
  total (tokens input) <= 2 ^ 53 -> parseDuration input = Fin (total (tokens input)).
Proof.
  intros H. rewrite parseDuration_js_total. unfold js_total.
  change (fun (ms : number) (t : Z * time_unit) => jsadd ms (unit_ms (snd t) (rnd (fst t))))
    with step.
  rewrite fold_step_exact; [reflexivity | apply tokens_nonneg | lia | exact H].
Qed.


Lemma str_eqb_eq a b : str_eqb a b = true -> a = b.
Proof.
  revert b. induction a as [|x a IH]; intros [|y b] H; try discriminate; [reflexivity|].
  simpl in H. apply andb_true_iff in H as [H1 H2].
  apply N.eqb_eq in H1. apply IH in H2. congruence.
Qed.

Lemma canonicalize_lower c : canonicalize (lower c) = canonicalize c.
Proof.
  unfold canonicalize, lower.
  destruct (N.leb_spec 65 c), (N.leb_spec c 90); simpl;
  repeat match goal with |- context [N.leb ?a ?b] => destruct (N.leb_spec a b) end;
  simpl; lia.
Qed.

Lemma canonicalize_of_lower c p : lower c = p -> canonicalize c = canonicalize p.
Proof. intros <-. symmetry. apply canonicalize_lower. Qed.

Lemma is_letter_of_lower c p : lower c = p -> is_lower p = true -> is_letter c = true.
Proof.
  intros <-. unfold lower, is_lower, is_letter.
  destruct (N.leb_spec 65 c), (N.leb_spec c 90); simpl;
    repeat match goal with |- context [N.leb ?a ?b] => destruct (N.leb_spec a b) end;
    simpl; intros; try reflexivity; try discriminate; lia.
Qed.

Lemma not_letter_canonical c p :
  is_letter c = false -> is_lower p = true ->
  N.eqb (canonicalize c) (canonicalize p) = false.
Proof.
  unfold is_letter, is_lower, canonicalize. intros H Hp. apply N.eqb_neq.
  apply andb_true_iff in Hp as [Hp1 Hp2]. apply N.leb_le in Hp1, Hp2.
  destruct (N.leb_spec 97 p), (N.leb_spec p 122); try lia. simpl.
  destruct (N.leb_spec 65 c), (N.leb_spec c 90), (N.leb_spec 97 c), (N.leb_spec c 122);
    simpl in *; try discriminate; lia.
Qed.

Ltac word_chars H :=
  apply str_eqb_eq in H;
  match type of H with
  | toLowerCase _ = units ?l =>
      let r := eval vm_compute in (units l) in change (units l) with r in H
  end;
  unfold toLowerCase in H;
  repeat match type of H with
         | map lower ?w = _ :: _ =>
             destruct w as [|? ?]; [discriminate|]; cbn [map] in H;
             let E := fresh "E" in injection H as E H
         | map lower ?w = [] => destruct w; [|discriminate]; clear H
         end.

Ltac use_chars :=
  repeat match goal with
         | E : lower ?c = ?p |- _ =>
             pose proof (canonicalize_of_lower c p E);
             pose proof (is_letter_of_lower c p E eq_refl);
             clear E
         end.

Lemma unit_at_unit_word w R :
  is_unit_word w = true -> starts_clean R = true ->
  unit_at (w ++ R) = Some (word_unit w, word_rest w ++ R) /\
  forallb is_letter w = true /\ w <> [].
Proof.
  intros H HR. unfold is_unit_word, unit_words in H. cbn [existsb] in H.
  assert (HR' : forall c t, R = c :: t ->
                N.eqb (canonicalize c) (canonicalize 111) = false).
  { intros c t ->. simpl in HR. apply negb_true_iff in HR.
    now apply not_letter_canonical. }
  repeat (apply orb_true_iff in H as [H|H]); try discriminate;
    word_chars H; use_chars;
    (split; [|split; [cbn [forallb]; repeat (match goal with E : is_letter _ = true |- _ => rewrite E; clear E end); reflexivity | discriminate]]);
    unfold word_unit, word_rest, unit_at, letter; cbn [app];
    cbv -[canonicalize N.eqb app];
    repeat match goal with E : canonicalize _ = _ |- _ => rewrite E; clear E end;
    try reflexivity.
  all: destruct R as [|c t]; [reflexivity|]; cbn [app];
    rewrite (HR' c t eq_refl); reflexivity.
Qed.

Lemma span_stop p a b :
  forallb p a = true -> match b with [] => True | x :: _ => p x = false end ->
  span p (a ++ b) = (a, b).
Proof.
  intros Ha Hb. induction a as [|c a IH]; simpl.
  - destruct b as [|x b]; [reflexivity|]. simpl. now rewrite Hb.
  - simpl in Ha. apply andb_true_iff in Ha as [Hc Ha]. rewrite Hc.
    now rewrite (IH Ha).
Qed.

Lemma letter_not_digit c : is_letter c = true -> is_digit c = false.
Proof.
  intros H. destruct (is_digit c) eqn:E; [|reflexivity].
  apply digit_not_letter in E. congruence.
Qed.

Lemma letter_not_space c : is_letter c = true -> is_space c = false.
Proof.
  intros H. destruct (is_space c) eqn:E; [|reflexivity].
  apply space_not_letter in E. congruence.
Qed.

Lemma tokens_skip_letters w R : forallb is_letter w = true -> tokens (w ++ R) = tokens R.
Proof.
  induction w as [|c w IH]; intros H; [reflexivity|].
  simpl in H. apply andb_true_iff in H as [Hc H]. cbn [app].
  rewrite tokens_none; [now apply IH|].
  unfold token_at. simpl. now rewrite (letter_not_digit _ Hc).
Qed.

Lemma forallb_suffix {A} (p : A -> bool) pre l :
  forallb p (pre ++ l) = true -> forallb p l = true.
Proof. rewrite forallb_app. now intros [_ H]%andb_true_iff. Qed.

Lemma tokens_pair ds w R :
  ds <> [] -> forallb is_digit ds = true -> is_unit_word w = true ->
  starts_clean R = true ->
  tokens (ds ++ w ++ R) = (digits_value ds, word_unit w) :: tokens R.
Proof.
  intros Hne Hd Hw HR.
  destruct (unit_at_unit_word w R Hw HR) as (Hu & Hl & Hwne).
  destruct w as [|x w]; [congruence|]. clear Hwne.
  assert (Hx : is_letter x = true) by (simpl in Hl; now apply andb_true_iff in Hl).
  assert (Ht : token_at (ds ++ (x :: w) ++ R)
               = Some (digits_value ds, word_unit (x :: w), word_rest (x :: w) ++ R)).
  { unfold token_at. rewrite span_stop; [|exact Hd|simpl; now apply letter_not_digit].
    destruct ds as [|d ds]; [congruence|].
    cbn [snd]. replace (span is_space ((x :: w) ++ R)) with ([] : jsstring, (x :: w) ++ R)
      by (cbn [app span]; now rewrite (letter_not_space _ Hx)).
    cbn [snd]. now rewrite Hu. }
  destruct ds as [|d ds]; [congruence|]. cbn [app] in *.
  rewrite (tokens_some _ _ _ _ _ Ht).
  f_equal. apply tokens_skip_letters.
  pose proof (unit_at_unit_word (x :: w) [] Hw eq_refl) as (Hu0 & _ & _).
  rewrite !app_nil_r in Hu0. apply unit_at_suffix in Hu0 as [pre Hp].
  unfold word_rest in *. rewrite Hp in Hl. eapply forallb_suffix; eassumption.
Qed.

Lemma well_formed_starts s : well_formed s -> starts_clean s = true.
Proof.
  destruct 1 as [|ds w rest Hne Hd _ _]; [reflexivity|].
  destruct ds as [|d ds]; [congruence|]. simpl in *.
  apply andb_true_iff in Hd as [Hd _]. now rewrite (digit_not_letter _ Hd).
Qed.

Lemma well_formed_app a b : well_formed a -> well_formed b -> well_formed (a ++ b).
Proof.
  induction 1 as [|ds w rest Hne Hd Hw Hr IH]; intros Hb; [exact Hb|].
  rewrite <- !app_assoc. apply wf_pair; auto.
Qed.

Lemma tokens_app a b :
  well_formed a -> well_formed b -> tokens (a ++ b) = tokens a ++ tokens b.
Proof.
  induction 1 as [|ds w rest Hne Hd Hw Hr IH]; intros Hb; [reflexivity|].
  rewrite <- !app_assoc.
  rewrite tokens_pair by (auto using well_formed_starts, well_formed_app).
  rewrite tokens_pair by (auto using well_formed_starts).
  cbn [app]. f_equal. now apply IH.
Qed.

Lemma total_app xs ys : total (xs ++ ys) = total xs + total ys.
Proof.
  induction xs as [|x xs IH]; [reflexivity|].
  cbn [app total fold_right]. fold (total (xs ++ ys)). fold (total xs). lia.
Qed.

(** C9 (as amended): for well-formed duration strings [a] and [b] whose exact
    total is at most [2^53] milliseconds, the parse of the concatenation is the
    sum of the parses. *)
Theorem parse_concat_exact a b :
  well_formed a -> well_formed b -> total (tokens (a ++ b)) <= 2 ^ 53 ->
  parseDuration (a ++ b) = jsadd (parseDuration a) (parseDuration b).
Proof.
  intros Ha Hb Hle. pose proof Hle as Hle'.
  rewrite (tokens_app _ _ Ha Hb), total_app in Hle.
  pose proof (total_nonneg _ (tokens_nonneg a)) as Hna.
  pose proof (total_nonneg _ (tokens_nonneg b)) as Hnb.
  rewrite !parseDuration_exact by lia.
  unfold jsadd. rewrite rnd_exact by lia.
  now rewrite (tokens_app _ _ Ha Hb), total_app.
Qed.









(** The rounding written out in [rnd] is that of the machine's binary64
    arithmetic on the operands that separate the two sides of the concatenation
    law. *)
Example rnd_agrees_with_binary64 :
  let big := PrimFloat.mul (PrimFloat.of_uint63 10000000000000000%uint63) (PrimFloat.of_uint63 1000%uint63) in
  binary64_value big = of_number (jsmul (Fin (10 ^ 16)) (Fin 1000)) /\
  binary64_value (PrimFloat.add big (PrimFloat.of_uint63 1000%uint63))
  = of_number (jsadd (Fin (10 ^ 19)) (Fin 1000)) /\
  binary64_value (PrimFloat.add big (PrimFloat.of_uint63 2000%uint63))
  = of_number (jsadd (Fin (10 ^ 19)) (Fin 2000)).
Proof. vm_compute. repeat split. Qed.

(** ** Further properties of the two parsers *)

Lemma decimal_loop_app f z acc : decimal_loop f z acc = decimal_loop f z [] ++ acc.
Proof.
  revert z acc. induction f as [|f IH]; intros z acc; [reflexivity|].
  cbn [decimal_loop]. destruct (z / 10 =? 0); [reflexivity|].
  rewrite IH, (IH _ [_]). now rewrite <- app_assoc.
Qed.

Lemma digits_value_snoc ds d : digits_value (ds ++ [d]) = 10 * digits_value ds + (Z.of_N d - 48).
Proof. unfold digits_value. now rewrite fold_left_app. Qed.

Lemma decimal_loop_value f z :
  0 <= z < 10 ^ Z.of_nat f -> digits_value (decimal_loop f z []) = z.
Proof.
  revert z. induction f as [|f IH]; intros z Hz.
  - simpl in Hz. assert (z = 0) by lia. now subst.
  - cbn [decimal_loop].
    assert (Hd : Z.of_N (Z.to_N (48 + z mod 10)) - 48 = z mod 10).
    { pose proof (Z.mod_pos_bound z 10). lia. }
    destruct (Z.eqb_spec (z / 10) 0) as [E|E].
    + unfold digits_value. cbn [fold_left]. rewrite Hd.
      pose proof (Z.div_mod z 10). lia.
    + rewrite decimal_loop_app, digits_value_snoc, Hd, IH.
      * pose proof (Z.div_mod z 10). lia.
      * rewrite Nat2Z.inj_succ, Z.pow_succ_r in Hz by lia.
        split; [apply Z.div_pos; lia | apply Z.div_lt_upper_bound; lia].
Qed.

Lemma decimal_fuel z : 0 <= z -> z < 10 ^ Z.of_nat (S (Z.to_nat (Z.log2 z))).
Proof.
  intros Hz. pose proof (Z.log2_nonneg z) as Hl.
  rewrite Nat2Z.inj_succ, Z2Nat.id by exact Hl.
  destruct (Z.eq_dec z 0) as [->|Hne]; [reflexivity|].
  pose proof (Z.log2_spec z ltac:(lia)) as [_ H].
  eapply Z.lt_le_trans; [exact H|].
  apply Z.pow_le_mono_l. lia.
Qed.

Lemma decimal_value z : 0 <= z -> digits_value (decimal z) = z.
Proof.
  intros Hz. apply decimal_loop_value. split; [exact Hz | now apply decimal_fuel].
Qed.

Lemma decimal_loop_digits f z acc :
  forallb is_digit acc = true -> forallb is_digit (decimal_loop f z acc) = true.
Proof.
  revert z acc. induction f as [|f IH]; intros z acc Hacc; [exact Hacc|].
  cbn [decimal_loop].
  assert (Hd : is_digit (Z.to_N (48 + z mod 10)) = true).
  { pose proof (Z.mod_pos_bound z 10 ltac:(lia)). unfold is_digit.
    apply andb_true_iff. split; apply N.leb_le; lia. }
  destruct (z / 10 =? 0); [|apply IH]; cbn [forallb]; now rewrite Hd.
Qed.

Lemma decimal_digits z : forallb is_digit (decimal z) = true.
Proof. now apply decimal_loop_digits. Qed.

Lemma decimal_loop_nonempty f z acc : acc <> [] -> decimal_loop f z acc <> [].
Proof.
  revert z acc. induction f as [|f IH]; intros z acc Hacc; [exact Hacc|].
  cbn [decimal_loop]. destruct (z / 10 =? 0); [|apply IH]; discriminate.
Qed.

Lemma decimal_nonempty z : decimal z <> [].
Proof.
  unfold decimal. cbn [decimal_loop]. destruct (z / 10 =? 0); [|apply decimal_loop_nonempty];
    discriminate.
Qed.

(** Above [2^53] a double is even, so only the integer one gives the number
    one. *)
Lemma is_one_rnd q : 0 <= q -> is_one (rnd q) = (q =? 1).
Proof.
  intros Hq. unfold is_one, rnd.
  destruct (Z.leb_spec q (2 ^ 53)) as [H|H]; [reflexivity|].
  assert (He : 1 <= Z.log2 q - 52).
  { assert (53 <= Z.log2 q); [|lia].
    change 53 with (Z.log2 (2 ^ 53)). apply Z.log2_le_mono. lia. }
  set (e := Z.log2 q - 52) in *.
  set (r := round_half_even q (2 ^ e)).
  assert (Hq1 : (q =? 1) = false).
  { apply Z.eqb_neq. change (2 ^ 53) with 9007199254740992 in H. lia. }
  rewrite Hq1. destruct (r * 2 ^ e <? 2 ^ 1024); [|reflexivity].
  cbn [number_eqb]. apply Z.eqb_neq. intros E.
  replace e with (Z.succ (e - 1)) in E by lia.
  rewrite Z.pow_succ_r in E by lia. lia.
Qed.

Lemma switch_label_word u v :
  switch_label (units (word_of u)) v = units (label_of u (is_one v)).
Proof. destruct u; unfold switch_label; cbn; destruct (is_one v); reflexivity. Qed.

Lemma label_truthy u b : truthy (units (label_of u b)) = true.
Proof. destruct u, b; reflexivity. Qed.

Lemma toString_loop_tokens n input li parts :
  (li <= length input)%nat -> (length input - li < n)%nat ->
  parseDurationToString_loop n input li parts = parts ++ map part (tokens (drop li input)).
Proof.
  revert li parts. induction n as [|n IH]; intros li parts H1 H2; [lia|].
  cbn [parseDurationToString_loop]. unfold regex_exec.
  pose proof (exec_from_tokens (drop li input) li) as H.
  pose proof (tokens_nonneg (drop li input)) as Hnn.
  destruct (exec_from duration_regex (drop li input) li) as [[caps i']|].
  - destruct H as (q & u & rest & Ht & Hlt & Hle & Hd & Hq & Hu).
    rewrite length_drop in Hle.
    rewrite IH by lia. rewrite Ht in *. cbn [map].
    apply Forall_cons in Hnn as [Hq0 _]. cbn [fst] in Hq0.
    rewrite drop_drop in Hd. replace (li + (i' - li))%nat with i' in Hd by lia.
    rewrite Hd. unfold parseInt. rewrite Hu, Hq, switch_label_word, label_truthy.
    rewrite <- app_assoc. cbn [app]. unfold part. cbn [fst snd].
    now rewrite is_one_rnd.
  - rewrite H. now rewrite app_nil_r.
Qed.

Lemma parseDurationToString_eq input :
  parseDurationToString input = join (units " ") (map part (tokens input)).
Proof.
  unfold parseDurationToString. rewrite toString_loop_tokens by lia. reflexivity.
Qed.

(** White space may stand between the integer and its unit word. *)
Lemma tokens_spaced ds sp w R :
  ds <> [] -> forallb is_digit ds = true -> forallb is_space sp = true ->
  is_unit_word w = true -> starts_clean R = true ->
  tokens (ds ++ sp ++ w ++ R) = (digits_value ds, word_unit w) :: tokens R.
Proof.
  intros Hne Hd Hs Hw HR.
  destruct (unit_at_unit_word w R Hw HR) as (Hu & Hl & Hwne).
  destruct w as [|x w]; [congruence|]. clear Hwne.
  assert (Hx : is_letter x = true) by (simpl in Hl; now apply andb_true_iff in Hl).
  assert (Ht : token_at (ds ++ sp ++ (x :: w) ++ R)
               = Some (digits_value ds, word_unit (x :: w), word_rest (x :: w) ++ R)).
  { unfold token_at. rewrite span_stop; [|exact Hd|].
    - destruct ds as [|d ds]; [congruence|].
      cbn [snd]. rewrite span_stop; [|exact Hs|simpl; now apply letter_not_space].
      cbn [snd]. now rewrite Hu.
    - destruct sp as [|c sp]; simpl; [now apply letter_not_digit|].
      simpl in Hs. apply andb_true_iff in Hs as [Hc _].
      destruct (is_digit c) eqn:E; [|reflexivity].
      apply digit_not_space in E. congruence. }
  destruct ds as [|d ds]; [congruence|]. cbn [app] in *.
  rewrite (tokens_some _ _ _ _ _ Ht).
  f_equal. apply tokens_skip_letters.
  pose proof (unit_at_unit_word (x :: w) [] Hw eq_refl) as (Hu0 & _ & _).
  rewrite !app_nil_r in Hu0. apply unit_at_suffix in Hu0 as [pre Hp].
  unfold word_rest in *. rewrite Hp in Hl. eapply forallb_suffix; eassumption.
Qed.

Lemma label_unit_word u b :
  is_unit_word (units (label_of u b)) = true /\ word_unit (units (label_of u b)) = u.
Proof. destruct u, b; split; vm_compute; reflexivity. Qed.

Lemma part_small q u :
  0 <= q <= 2 ^ 53 ->
  part (q, u) = decimal q ++ units " " ++ units (label_of u (q =? 1)).
Proof.
  intros [_ H]. unfold part, Number_toString. cbn [fst snd].
  rewrite rnd_exact by exact H. apply Z.leb_le in H. now rewrite H.
Qed.

Lemma tokens_space X : tokens (units " " ++ X) = tokens X.
Proof. apply tokens_none. reflexivity. Qed.

Lemma tokens_join ts :
  Forall (fun t => 0 <= fst t <= 2 ^ 53) ts ->
  tokens (join (units " ") (map part ts)) = ts.
Proof.
  induction 1 as [|[q u] ts Hq Hts IH]; [reflexivity|].
  cbn [fst] in Hq. cbn [map join].
  destruct (label_unit_word u (q =? 1)) as [Hw Hu].
  assert (Hone : forall R, starts_clean R = true ->
            tokens (part (q, u) ++ R) = (q, u) :: tokens R).
  { intros R HR. rewrite part_small by exact Hq. rewrite <- !app_assoc.
    rewrite tokens_spaced; try assumption;
      [| apply decimal_nonempty | apply decimal_digits | reflexivity].
    now rewrite decimal_value, Hu by lia. }
  destruct (map part ts) as [|p ps] eqn:E.
  - destruct ts; [|discriminate].
    rewrite <- (app_nil_r (part (q, u))). now rewrite Hone.
  - rewrite Hone by reflexivity. now rewrite tokens_space, IH.
Qed.

Lemma safe_tokens input :
  safe_integers input -> Forall (fun t => 0 <= fst t <= 2 ^ 53) (tokens input).
Proof.
  unfold safe_integers. intros H. pose proof (tokens_nonneg input) as H0.
  rewrite List.Forall_forall in *. intros t Ht. split; auto.
Qed.

Lemma tokens_toString input :
  safe_integers input -> tokens (parseDurationToString input) = tokens input.
Proof.
  intros H. rewrite parseDurationToString_eq. now apply tokens_join, safe_tokens.
Qed.

(** *** Letter case *)

Lemma is_digit_lower c : is_digit (lower c) = is_digit c.
Proof.
  unfold is_digit, lower.
  destruct (N.leb_spec 65 c), (N.leb_spec c 90); simpl; try reflexivity.
  destruct (N.leb_spec 48 (c + 32)), (N.leb_spec (c + 32) 57),
    (N.leb_spec 48 c), (N.leb_spec c 57); simpl; try reflexivity; lia.
Qed.

Lemma is_space_lower c : is_space (lower c) = is_space c.
Proof.
  unfold lower.
  destruct (N.leb_spec 65 c), (N.leb_spec c 90); simpl; try reflexivity.
  unfold is_space.
  repeat match goal with
         | |- context [N.leb ?a ?b] => destruct (N.leb_spec a b); try lia
         | |- context [N.eqb ?a ?b] => destruct (N.eqb_spec a b); try lia
         end; reflexivity.
Qed.

Lemma span_map_lower p s :
  (forall c, p (lower c) = p c) ->
  span p (map lower s) = (map lower (fst (span p s)), map lower (snd (span p s))).
Proof.
  intros Hp. induction s as [|c s IH]; [reflexivity|].
  cbn [map span]. rewrite Hp. destruct (p c); [|reflexivity].
  rewrite IH. now destruct (span p s).
Qed.

Lemma digits_value_lower ds :
  forallb is_digit ds = true -> map lower ds = ds.
Proof.
  induction ds as [|c ds IH]; intros H; [reflexivity|].
  simpl in H. apply andb_true_iff in H as [Hc H]. cbn [map]. rewrite IH by exact H.
  f_equal. unfold is_digit in Hc. apply andb_true_iff in Hc as [H1 H2].
  apply N.leb_le in H1, H2. unfold lower.
  destruct (N.leb_spec 65 c); [lia|reflexivity].
Qed.

Lemma letter_lower c p : letter (lower c) p = letter c p.
Proof. unfold letter. destruct (units p) as [|x [|? ?]]; try reflexivity. now rewrite canonicalize_lower. Qed.

Lemma unit_at_lower s :
  unit_at (map lower s) =
  match unit_at s with Some (u, rest) => Some (u, map lower rest) | None => None end.
Proof.
  destruct s as [|c [|c' s'']]; [reflexivity| |]; cbn [map unit_at];
    rewrite !letter_lower;
    repeat match goal with |- context [if ?b then _ else _] => destruct b end;
    reflexivity.
Qed.

Lemma token_at_lower s :
  token_at (map lower s) =
  match token_at s with
  | Some (q, u, rest) => Some (q, u, map lower rest)
  | None => None
  end.
Proof.
  unfold token_at. rewrite (span_map_lower _ _ is_digit_lower).
  pose proof (span_forallb is_digit s) as Hd.
  destruct (span is_digit s) as [ds r1]. cbn [fst snd] in *.
  rewrite (digits_value_lower _ Hd). destruct ds as [|d ds]; [reflexivity|].
  rewrite (span_map_lower _ _ is_space_lower). cbn [snd].
  rewrite unit_at_lower. now destruct (unit_at _) as [[u rest]|].
Qed.

Lemma tokens_lower s : tokens (map lower s) = tokens s.
Proof.
  remember (length s) as n eqn:Hn. revert s Hn.
  induction n as [n IH] using lt_wf_ind. intros s Hn.
  destruct s as [|c s']; [reflexivity|].
  pose proof (token_at_lower (c :: s')) as Hl.
  destruct (token_at (c :: s')) as [[[q u] rest]|] eqn:E.
  - cbn [map] in *. rewrite (tokens_some _ _ _ _ _ Hl), (tokens_some _ _ _ _ _ E).
    f_equal. apply (IH (length rest)); [|reflexivity].
    apply token_at_length in E. lia.
  - cbn [map] in *. rewrite (tokens_none _ _ Hl), (tokens_none _ _ E).
    apply (IH (length s')); [|reflexivity]. subst n. simpl. lia.
Qed.

Lemma tokens_same_case a b : same_up_to_case a b -> tokens a = tokens b.
Proof. unfold same_up_to_case. intros H. now rewrite <- (tokens_lower a), H, tokens_lower. Qed.

(** *** The time to live *)

Lemma factor_thousand u : exists k, 0 < k /\ factor u = 1000 * k.
Proof. exists (factor u / 1000). destruct u; split; reflexivity. Qed.

Lemma total_thousand ts : exists m, total ts = 1000 * m.
Proof.
  induction ts as [|t ts [m IH]]; [now exists 0|].
  cbn [total fold_right]. fold (total ts). rewrite IH.
  destruct (factor_thousand (snd t)) as (k & _ & ->).
  exists (fst t * k + m). lia.
Qed.

Lemma floor_div_thousand m :
  0 <= m -> 1000 * m <= 2 ^ 53 -> floor_div (Fin (1000 * m)) 1000 = Fin m.
Proof.
  intros H0 H. unfold floor_div.
  destruct (Z.eqb_spec (1000 * m) 0) as [E|E]; [f_equal; lia|].
  set (z := 1000 * m) in *.
  assert (Hlog : Z.log2 z <= 53).
  { change 53 with (Z.log2 (2 ^ 53)). now apply Z.log2_le_mono. }
  change (Z.log2 1000) with 9.
  set (l0 := Z.log2 z - 9).
  set (l := if l0 >=? 0
            then (if 1000 * 2 ^ l0 <=? z then l0 else l0 - 1)
            else (if 1000 <=? z * 2 ^ (- l0) then l0 else l0 - 1)).
  assert (Hl : l <= 44).
  { subst l. repeat match goal with |- context [if ?b then _ else _] => destruct b end; lia. }
  destruct (Z.geb_spec (l - 52) 0) as [Hge|Hlt]; [lia|].
  f_equal. set (k := - (l - 52)).
  assert (Hk : 0 < 2 ^ k) by (apply Z.pow_pos_nonneg; lia).
  unfold round_half_even.
  replace (z * 2 ^ k) with (m * 2 ^ k * 1000) by (subst z; ring).
  rewrite Z.mod_mul, Z.div_mul by lia. cbn [Z.mul Z.ltb Z.compare].
  change (2 * 0 <? 1000) with true. cbn iota.
  apply Z.div_mul. lia.
Qed.

Lemma durationSeconds_string conf d :
  conf_duration conf = Some (DString d) ->
  durationSeconds conf = floor_div (parseDuration d) 1000.
Proof. unfold durationSeconds. now intros ->. Qed.

(** *** The theorems on the two parsers *)

(** X1: [parseDurationToString] prints the tokens that [parseDuration] counts,
    in their order: for each one its integer, as the number it is read into
    prints, a space and the word of its unit, singular for the number one
    only; the pieces are joined by single spaces, and a text without a token
    gives the empty string. *)
Theorem parseDurationToString_lists_tokens input :
  parseDurationToString input = join (units " ") (map part (tokens input)).
Proof.
  unfold parseDurationToString.
  rewrite (toString_loop_tokens (S (length input)) input 0 []) by lia.
  reflexivity.
Qed.

(** X2: What [parseDurationToString] prints, [parseDuration] reads as the same
    duration, token for token, as long as the integers in the text are at
    most [2^53]. *)
Theorem parseDuration_survives_toString input :
  safe_integers input ->
  tokens (parseDurationToString input) = tokens input /\
  parseDuration (parseDurationToString input) = parseDuration input.
Proof.
  intros Hs. pose proof (tokens_toString input Hs) as Ht. split; [exact Ht|].
  now rewrite !parseDuration_js_total, Ht.
Qed.

(** X3: [parseDurationToString] leaves its own output as it is (for integers
    up to [2^53]). *)
Theorem parseDurationToString_idempotent input :
  safe_integers input ->
  parseDurationToString (parseDurationToString input) = parseDurationToString input.
Proof.
  intros Hs. rewrite (parseDurationToString_eq (parseDurationToString input)).
  rewrite (tokens_toString input Hs). symmetry. apply parseDurationToString_eq.
Qed.

(** X4: The case of the ASCII letters in a duration string is of no
    consequence, for either function. *)
Theorem parsers_ignore_letter_case a b :
  same_up_to_case a b ->
  parseDuration a = parseDuration b /\
  parseDurationToString a = parseDurationToString b.
Proof.
  intros Hc. pose proof (tokens_same_case a b Hc) as Ht.
  split; [now rewrite !parseDuration_js_total, Ht|].
  now rewrite !parseDurationToString_eq, Ht.
Qed.

(** X5: White space between an integer and its unit word changes nothing. *)
Theorem space_before_unit_is_skipped ds sp w rest :
  ds <> [] -> forallb is_digit ds = true -> forallb is_space sp = true ->
  is_unit_word w = true -> starts_clean rest = true ->
  parseDuration (ds ++ sp ++ w ++ rest) = parseDuration (ds ++ w ++ rest) /\
  parseDurationToString (ds ++ sp ++ w ++ rest) = parseDurationToString (ds ++ w ++ rest).
Proof.
  intros Hne Hd Hs Hw Hr.
  assert (Ht : tokens (ds ++ sp ++ w ++ rest) = tokens (ds ++ w ++ rest)).
  { rewrite tokens_spaced by assumption. now rewrite tokens_pair by assumption. }
  split; [now rewrite !parseDuration_js_total, Ht|].
  now rewrite !parseDurationToString_eq, Ht.
Qed.

Lemma unit_at_no_letter s :
  forallb (fun c => negb (is_letter c)) s = true -> unit_at s = None.
Proof.
  destruct s as [|c s']; [reflexivity|]. simpl. intros Hc.
  apply andb_true_iff in Hc as [Hc _]. apply negb_true_iff in Hc.
  now apply unit_at_letter.
Qed.

Lemma token_at_no_letter s :
  forallb (fun c => negb (is_letter c)) s = true -> token_at s = None.
Proof.
  intros Hs. unfold token_at.
  pose proof (span_app is_digit s) as H1.
  destruct (span is_digit s) as [ds r1]. cbn [fst snd] in H1.
  destruct ds as [|d ds]; [reflexivity|].
  pose proof (span_app is_space r1) as H2.
  rewrite unit_at_no_letter; [reflexivity|].
  rewrite <- H1 in Hs. apply forallb_suffix in Hs.
  rewrite <- H2 in Hs. now apply forallb_suffix in Hs.
Qed.

Lemma tokens_no_letter s :
  forallb (fun c => negb (is_letter c)) s = true -> tokens s = [].
Proof.
  induction s as [|c s IH]; intros Hs; [reflexivity|].
  rewrite tokens_none by now apply token_at_no_letter.
  apply IH. simpl in Hs. now apply andb_true_iff in Hs as [_ Hs].
Qed.

(** X6: A duration without a letter has no unit and counts for nothing: the
    parser returns zero, the printer the empty string, and as the
    [duration] of a route it gives the entries a time to live of zero
    seconds. *)
Theorem duration_without_unit_is_zero d :
  forallb (fun c => negb (is_letter c)) d = true ->
  parseDuration d = Fin 0 /\ parseDurationToString d = [] /\
  forall conf, conf_duration conf = Some (DString d) -> durationSeconds conf = Fin 0.
Proof.
  intros Hd. pose proof (tokens_no_letter d Hd) as Ht.
  assert (Hp : parseDuration d = Fin 0) by now rewrite parseDuration_js_total, Ht.
  split; [exact Hp|]. split; [now rewrite parseDurationToString_eq, Ht|].
  intros conf Hc. now rewrite (durationSeconds_string conf d Hc), Hp.
Qed.

(** X7: For a [duration] string whose exact total is at most [2^53]
    milliseconds, the time to live that the middleware hands to [expire] is
    that total in seconds, with nothing lost: every unit is a whole number of
    seconds. *)
Theorem ttl_is_total_in_seconds conf d :
  conf_duration conf = Some (DString d) -> total (tokens d) <= 2 ^ 53 ->
  durationSeconds conf = Fin (total (tokens d) / 1000) /\
  1000 * (total (tokens d) / 1000) = total (tokens d).
Proof.
  intros Hc Hle. rewrite (durationSeconds_string conf d Hc).
  rewrite (parseDuration_exact d Hle).
  destruct (total_thousand (tokens d)) as [m Hm].
  pose proof (total_nonneg _ (tokens_nonneg d)) as H0.
  rewrite Hm in *. replace (1000 * m / 1000) with m by (rewrite Z.mul_comm, Z.div_mul; lia).
  split; [|reflexivity]. apply floor_div_thousand; lia.
Qed.

Lemma tokens_stray ds c rest :
  forallb is_digit ds = true ->
  is_digit c = false -> is_space c = false -> is_letter c = false ->
  tokens (ds ++ c :: rest) = tokens rest.
Proof.
  intros Hd Hc1 Hc2 Hc3. induction ds as [|d ds IH].
  - cbn [app]. apply tokens_none. unfold token_at. cbn [span]. now rewrite Hc1.
  - cbn [app]. simpl in Hd. apply andb_true_iff in Hd as [Hd1 Hd].
    rewrite tokens_none; [now apply IH|].
    unfold token_at. change (d :: ds ++ c :: rest) with ((d :: ds) ++ c :: rest).
    rewrite span_stop; [|simpl; now rewrite Hd1|exact Hc1].
    cbn [span snd]. rewrite Hc2. cbn [snd]. now rewrite unit_at_letter.
Qed.

(** X8: An integer that is followed by a character other than a digit, white
    space or a letter is dropped together with that character: a decimal
    point is not understood ([1.5h] counts as [5h]), and a sign is
    ignored. *)
Theorem integer_before_stray_character_is_dropped ds c rest :
  forallb is_digit ds = true ->
  is_digit c = false -> is_space c = false -> is_letter c = false ->
  parseDuration (ds ++ c :: rest) = parseDuration rest /\
  parseDurationToString (ds ++ c :: rest) = parseDurationToString rest.
Proof.
  intros Hd Hc1 Hc2 Hc3. pose proof (tokens_stray ds c rest Hd Hc1 Hc2 Hc3) as Ht.
  split; [now rewrite !parseDuration_js_total, Ht|].
  now rewrite !parseDurationToString_eq, Ht.
Qed.

(** * Properties of the middleware *)

Section MiddlewareProperties.
Context `{JsonLib}.

Lemma count_app p a b : count p (a ++ b) = (count p a + count p b)%nat.
Proof. induction a as [|e a IH]; simpl; [reflexivity|]. rewrite IH. lia. Qed.

Lemma res_json_spec body st :
  let r := fst (res_json body st) in
  let st' := snd (res_json body st) in
  fixed st' = fixed st /\
  alreadyCached (vars st') = alreadyCached (vars st) /\
  store (world st') = store (world st) /\
  headers (res st') = headers (res st) /\
  objects st' = objects st ++ [r] /\
  object_ok (fixed st) r /\
  exists b, trace st' = trace st ++ [EvJson b] /\
            (jsonPatched (res st) = true -> cacheHit (vars st) = true ->
             b = cacheHitValue (vars st)).
Proof.
  unfold res_json, patched_json, originalJson, object_ok, fixed, bind, read, write, emit, ret.
  cbn. destruct (jsonPatched (res st)) eqn:Hp; cbn; [destruct (cacheHit (vars st)) eqn:Hh; cbn|];
    rewrite ?Hp, ?Hh; repeat split; eauto; eexists; (split; [reflexivity|]); cbn; congruence.
Qed.

Lemma cache_spec conf key r body st :
  jsonPatched (res st) = true -> cacheHit (vars st) = false ->
  let r' := fst (cache conf key r body st) in
  let st' := snd (cache conf key r body st) in
  r' = r /\ fixed st' = fixed st /\ objects st' = objects st /\
  alreadyCached (vars st') = true /\
  (alreadyCached (vars st) = true -> st' = st) /\
  exists evs, trace st' = trace st ++ evs /\
              Forall (handler_event (fixed st) key) evs /\
              count is_set evs = (if alreadyCached (vars st) then 0 else 1)%nat.
Proof.
  intros Hp Hh.
  unfold cache, close_per_request, client_set, client_expire, client_close, res_header,
    next_fault, when, fixed, bind, read, write, emit, ret.
  cbn. destruct (alreadyCached (vars st)) eqn:Ha; cbn.
  { repeat split; auto. exists []. rewrite app_nil_r. repeat split; auto. }
  destruct (faults (world st)) as [|[|code] [|[|code2] rest]] eqn:Hf; cbn;
    rewrite ?Hf; cbn;
    destruct (shouldCloseClient (vars st)) eqn:Hs; cbn;
    (split; [reflexivity|]); (split; [rewrite ?Hs; reflexivity|]);
    (split; [reflexivity|]);
    (split; [reflexivity|]); (split; [intros; discriminate|]);
    eexists; (split; [rewrite <- ?app_assoc; reflexivity|]);
    (split; [|reflexivity]);
    repeat constructor; cbn; rewrite ?Hp, ?Hh, ?Hs; auto.
Qed.

Lemma handler_events_fixed f f' key evs :
  f' = f -> Forall (handler_event f' key) evs -> Forall (handler_event f key) evs.
Proof. now intros ->. Qed.

Lemma run_Return conf key r st :
  run_handler conf key (Return r) st = (Returned r, st).
Proof. reflexivity. Qed.

Lemma run_CallJson conf key body k st :
  run_handler conf key (CallJson body k) st =
  run_handler conf key (k (fst (res_json body st))) (snd (res_json body st)).
Proof. cbn [run_handler]. unfold bind. now destruct (res_json body st). Qed.

Lemma run_CallCache conf key i k st :
  run_handler conf key (CallCache i k) st =
  match objects st !! i with
  | None => (Threw, st)
  | Some r =>
      match cache_method r with
      | NoCacheMethod => (Threw, st)
      | CacheNoop => run_handler conf key (k r) st
      | CacheCommit body =>
          run_handler conf key (k (fst (cache conf key r body st)))
            (snd (cache conf key r body st))
      end
  end.
Proof.
  cbn [run_handler]. unfold bind at 1, read at 1.
  destruct (objects st !! i) as [r|]; [|reflexivity].
  destruct (cache_method r); try reflexivity.
  unfold bind. now destruct (cache conf key r body st).
Qed.

Lemma run_handler_spec conf key h st :
  Forall (object_ok (fixed st)) (objects st) ->
  let st' := snd (run_handler conf key h st) in
  fixed st' = fixed st /\
  Forall (object_ok (fixed st)) (objects st') /\
  (alreadyCached (vars st) = true -> alreadyCached (vars st') = true) /\
  exists evs, trace st' = trace st ++ evs /\
              Forall (handler_event (fixed st) key) evs /\
              (count is_set evs <= if alreadyCached (vars st) then 0 else 1)%nat.
Proof.
  assert (Hstop : forall st o, Forall (object_ok (fixed st)) (objects st) ->
    let st' := snd (o : Outcome, st) in
    fixed st' = fixed st /\
    Forall (object_ok (fixed st)) (objects st') /\
    (alreadyCached (vars st) = true -> alreadyCached (vars st') = true) /\
    exists evs, trace st' = trace st ++ evs /\
              Forall (handler_event (fixed st) key) evs /\
              (count is_set evs <= if alreadyCached (vars st) then 0 else 1)%nat).
  { intros st0 o Hobj. cbn. split; [reflexivity|]. split; [exact Hobj|].
    split; [auto|]. exists []. rewrite app_nil_r.
    split; [reflexivity|]. split; [constructor|].
    cbn. destruct (alreadyCached (vars st0)); lia. }
  revert st. induction h as [r|body k IH|i k IH]; intros st Hobj; cbn zeta.
  - rewrite run_Return. now apply Hstop.
  - rewrite run_CallJson.
    pose proof (res_json_spec body st) as Hj. cbn zeta in Hj.
    destruct Hj as (Hfx & Hal & _ & _ & Hob & Hok & b & Htr & Hb).
    specialize (IH (fst (res_json body st)) (snd (res_json body st))).
    cbn zeta in IH. rewrite Hfx, Hob, Hal, Htr in IH.
    assert (Hobj1 : Forall (object_ok (fixed st)) (objects st ++ [(res_json body st).1])).
    { apply Forall_app. split; [exact Hobj|]. constructor; [exact Hok|constructor]. }
    destruct (IH Hobj1) as (Hfx' & Hob' & Hal' & evs & Htr' & Hev & Hc).
    split; [exact Hfx'|]. split; [exact Hob'|]. split; [exact Hal'|].
    exists (EvJson b :: evs). rewrite Htr', <- app_assoc.
    split; [reflexivity|]. split; [|exact Hc].
    constructor; [exact Hb | exact Hev].
  - rewrite run_CallCache.
    destruct (objects st !! i) as [r|] eqn:Hi; [|now apply Hstop].
    destruct (cache_method r) as [| |body] eqn:Hm; [now apply Hstop| now apply IH |].
    assert (Hph : jsonPatched (res st) = true /\ cacheHit (vars st) = false).
    { assert (Hr' : object_ok (fixed st) r).
      { apply (proj1 (Forall_forall _ _) Hobj).
        eapply list_elem_of_lookup_2. eassumption. }
      unfold object_ok, fixed in Hr'. cbn in Hr'.
      destruct (jsonPatched (res st)); [|congruence].
      destruct (cacheHit (vars st)); [|auto]. subst r. discriminate. }
    destruct Hph as [Hp Hh].
    pose proof (cache_spec conf key r body st Hp Hh) as Hc. cbn zeta in Hc.
    destruct Hc as (Hr & Hfx & Hob & Hal & _ & evs1 & Htr & Hev1 & Hc1).
    specialize (IH (fst (cache conf key r body st)) (snd (cache conf key r body st))).
    cbn zeta in IH. rewrite Hfx, Hob, Hal, Htr in IH.
    destruct (IH Hobj) as (Hfx' & Hob' & Hal' & evs & Htr' & Hev & Hc).
    split; [exact Hfx'|]. split; [exact Hob'|]. split; [intros _; now apply Hal'|].
    exists (evs1 ++ evs). rewrite Htr', <- app_assoc.
    split; [reflexivity|]. split.
    + apply Forall_app. split; assumption.
    + rewrite count_app, Hc1. destruct (alreadyCached (vars st)); lia.
Qed.

Lemma fixed_patched st st' :
  fixed st' = fixed st -> jsonPatched (res st') = jsonPatched (res st).
Proof. intros E. exact (f_equal f_patched E). Qed.

Lemma run_polite conf key h st :
  polite (length (objects st)) h -> jsonPatched (res st) = true ->
  Forall (object_ok (fixed st)) (objects st) ->
  exists r, fst (run_handler conf key h st) = Returned r.
Proof.
  revert st. induction h as [r|body k IH|i k IH]; intros st Hpol Hp Hobj.
  - exists r. reflexivity.
  - rewrite run_CallJson. inversion Hpol as [|? ? Hk|]; subst.
    pose proof (res_json_spec body st) as Hj. cbn zeta in Hj.
    destruct Hj as (Hfx & _ & _ & _ & Hob & Hok & _).
    apply IH.
    + rewrite Hob, length_app. cbn. replace (length (objects st) + 1)%nat
        with (S (length (objects st))) by lia. apply Hk.
    + rewrite (fixed_patched _ _ Hfx). exact Hp.
    + rewrite Hfx, Hob. apply Forall_app. split; [exact Hobj|]. now constructor.
  - rewrite run_CallCache. inversion Hpol as [| |? ? Hi Hk]; subst.
    destruct (lookup_lt_is_Some_2 _ _ Hi) as [r Hr]. rewrite Hr.
    assert (Hr' : object_ok (fixed st) r).
    { apply (proj1 (Forall_forall _ _) Hobj). eapply list_elem_of_lookup_2. eassumption. }
    unfold object_ok in Hr'. cbn in Hr'. rewrite Hp in Hr'.
    destruct (cacheHit (vars st)) eqn:Hh.
    + subst r. cbn [cache_method]. now apply IH.
    + destruct Hr' as [b ->]. cbn [cache_method].
      pose proof (cache_spec conf key {| sent := Some b; cache_method := CacheCommit b |} b st Hp Hh) as Hc.
      cbn zeta in Hc. destruct Hc as (_ & Hfx & Hob & _).
      apply IH.
      * rewrite Hob. apply Hk.
      * rewrite (fixed_patched _ _ Hfx). exact Hp.
      * now rewrite Hfx, Hob.
Qed.

Lemma bind_eq {A B} (m : M A) (k : A -> M B) st :
  bind m k st = k (fst (m st)) (snd (m st)).
Proof. unfold bind. now destruct (m st). Qed.

Lemma cacheMiddleware_lookup conf req next data st :
  caching_config (world st) req = Some data ->
  cacheMiddleware conf req next st =
  call_next conf (url req) next (snd (lookup_phase data (url req) st)).
Proof.
  unfold caching_config, cacheMiddleware, excluded. rewrite bind_eq. cbn [read fst snd].
  destruct (breezeCacheConfigSchema_safeParse (registry (world st))) as [d|]; [|discriminate].
  destruct (truthy (redisUrl d)); [|discriminate].
  destruct (enabled d); [|discriminate]. cbn [negb andb].
  destruct (match excludedPaths d with Some _ => _ | None => _ end); [discriminate|].
  intros [= ->]. unfold lookup_phase.
  repeat (rewrite bind_eq; cbn [fst snd]).
  match goal with |- context [negb (fst ?t)] => destruct (fst t) end; cbn [negb].
  - repeat (rewrite bind_eq; cbn [fst snd]). reflexivity.
  - repeat (rewrite bind_eq; cbn [fst snd]). reflexivity.
Qed.

Lemma cacheMiddleware_bypass conf req next st :
  caching_config (world st) req = None ->
  cacheMiddleware conf req next st = call_next conf (url req) next (bypass_state req st).
Proof.
  unfold caching_config, cacheMiddleware, excluded, bypass_state.
  rewrite bind_eq. cbn [read fst snd].
  destruct (breezeCacheConfigSchema_safeParse (registry (world st))) as [d|];
    [|reflexivity].
  destruct (truthy (redisUrl d)); [|reflexivity].
  destruct (enabled d); [|reflexivity]. cbn [negb andb].
  destruct (match excludedPaths d with Some _ => _ | None => _ end); [|discriminate].
  reflexivity.
Qed.

Lemma shared_for_initialized u b m :
  shared_for u (with_cacheInitialized b m) = shared_for u m.
Proof. reflexivity. Qed.

Ltac exec :=
  cbv beta iota zeta delta
    [lookup_phase tryGetCache close_per_request client_get client_close
     new_RedisClient res_header next_fault when arrival bind read write emit ret
     on_module on_world on_res on_vars on_objects on_trace
     with_sharedRedisClient with_store with_faults with_nextClient
     with_jsonPatched with_headers with_client with_shouldCloseClient
     with_alreadyCached with_cacheHitValue with_cacheHit with_cached with_retried
     module_ world res vars objects trace
     registry store faults nextClient jsonPatched headers
     client shouldCloseClient alreadyCached cacheHitValue cacheHit cached retried
     negb andb fst snd app].

Ltac split_lookup data key m w :=
  let fs := fresh "fs" in
  let s := fresh "s" in
  destruct w as [? s fs ?];
  exec;
  destruct (shared_for (redisUrl data) m) as [shared|] eqn:Hshared; exec;
  (destruct fs as [|[|code] [|[|code2] rest]]; exec;
   try (destruct (is_closed_code code) eqn:Hclosed; exec;
        rewrite ?shared_for_initialized, ?Hshared; exec));
  try (destruct (s !! key) as [text|] eqn:Hstore; exec;
       [destruct (truthy text) eqn:Htruthy; exec;
        [destruct (JSON_parse text) as [value|] eqn:Hparse; exec|]|]).

Lemma lookup_patched data key m w h :
  let st1 := snd (lookup_phase data key (arrival m w h)) in
  jsonPatched (res st1) = true /\ objects st1 = [] /\
  count is_next (trace st1) = 0%nat /\ count is_set (trace st1) = 0%nat /\
  exists pre post, trace st1 = pre ++ EvPatch :: post /\
                   Forall (fun e => store_io e = false) pre.
Proof.
  split_lookup data key m w.
  all: (split; [reflexivity|]); (split; [reflexivity|]); (split; [reflexivity|]);
       (split; [reflexivity|]).
  all: first [ exists []; eexists; split; [reflexivity | constructor]
             | eexists [_]; eexists; split; [reflexivity | repeat constructor] ].
Qed.

Lemma lookup_events data key m w h :
  let st1 := snd (lookup_phase data key (arrival m w h)) in
  Forall (lookup_event key (exclusive_for (redisUrl data) m) (nextClient w)
            (nextClient (world st1))) (trace st1) /\
  shouldCloseClient (vars st1) = exclusive_for (redisUrl data) m /\
  (exclusive_for (redisUrl data) m = true ->
   (nextClient w <= client (vars st1) < nextClient (world st1))%nat /\
   _sharedRedisClient (module_ st1) = _sharedRedisClient m).
Proof.
  unfold exclusive_for. split_lookup data key m w.
  all: (split; [repeat constructor; cbn; lia|]); (split; [reflexivity|]).
  all: intros Hex; try discriminate Hex.
  all: split; [cbn; lia | reflexivity].
Qed.

Lemma lookup_hit data key m w h text value :
  lookup_outcome w key = Some (Some text) -> truthy text = true ->
  JSON_parse text = Some value ->
  let st1 := snd (lookup_phase data key (arrival m w h)) in
  cacheHit (vars st1) = true /\ cacheHitValue (vars st1) = Some value /\
  headers (res st1) = <[X_BREEZEAPI_CACHE := HIT]> h /\
  store (world st1) = store w.
Proof.
  unfold lookup_outcome. intros Hout Ht Hp. revert Hout.
  split_lookup data key m w; intros Hout; cbn in Hout; rewrite ?Hclosed in Hout;
    try discriminate; try congruence.
  all: injection Hout as ->; rewrite ?Ht, ?Hp in *; try discriminate.
  all: try (injection Hparse as ->); repeat split; reflexivity.
Qed.

Lemma lookup_miss data key m w h :
  is_miss w key = true ->
  let st1 := snd (lookup_phase data key (arrival m w h)) in
  cacheHit (vars st1) = false /\ alreadyCached (vars st1) = false /\
  store (world st1) = store w /\ headers (res st1) = h.
Proof.
  unfold is_miss, lookup_outcome. intros Hout. revert Hout.
  split_lookup data key m w; intros Hout; cbn in Hout;
    rewrite ?Hclosed, ?Hstore, ?Htruthy in Hout; cbn in Hout; try discriminate.
  all: repeat split; reflexivity.
Qed.

Lemma lookup_retry data key m w h :
  let st1 := snd (lookup_phase data key (arrival m w h)) in
  (1 <= count is_get (trace st1))%nat /\
  match faults w with
  | Fails code :: rest =>
      if is_closed_code code
      then count is_get (trace st1) = 2%nat /\ reconnects (trace st1) = 1%nat
      else count is_get (trace st1) = 1%nat /\ reconnects (trace st1) = 0%nat
  | _ => count is_get (trace st1) = 1%nat /\ reconnects (trace st1) = 0%nat
  end.
Proof.
  split_lookup data key m w; cbn [faults]; rewrite ?Hclosed.
  all: split; [cbn; lia|]; split; reflexivity.
Qed.

Lemma call_next_eq conf key next st :
  call_next conf key next st = run_handler conf key next (entered st).
Proof. reflexivity. Qed.

Lemma handler_event_kind f key e :
  handler_event f key e ->
  is_next e = false /\ is_get e = false /\ is_new e = false /\ is_patch e = false /\
  (store_io e = true -> f_patched f = true /\ f_hit f = false) /\
  (is_set e = true -> f_hit f = false).
Proof. destruct e; cbn; intuition (try discriminate; auto). Qed.

Lemma count_zero p evs : Forall (fun e => p e = false) evs -> count p evs = 0%nat.
Proof. induction 1 as [|e evs He _ IH]; cbn; [reflexivity|]. now rewrite He, IH. Qed.

Lemma handler_events_count f key evs :
  Forall (handler_event f key) evs ->
  count is_next evs = 0%nat /\ count is_get evs = 0%nat /\ count is_new evs = 0%nat.
Proof.
  intros Hev. repeat split; apply count_zero; eapply Forall_impl; try exact Hev;
    intros e He; apply handler_event_kind in He; tauto.
Qed.

Lemma active_run conf req next m w h data :
  caching_config w req = Some data ->
  let st1 := snd (lookup_phase data (url req) (arrival m w h)) in
  let run := cacheMiddleware conf req next (arrival m w h) in
  run = run_handler conf (url req) next (entered st1) /\
  fixed (snd run) = fixed st1 /\
  Forall (object_ok (fixed st1)) (objects (snd run)) /\
  (alreadyCached (vars st1) = true -> alreadyCached (vars (snd run)) = true) /\
  exists evs, trace (snd run) = trace st1 ++ EvNext :: evs /\
              Forall (handler_event (fixed st1) (url req)) evs /\
              (count is_set evs <= if alreadyCached (vars st1) then 0 else 1)%nat.
Proof.
  intros Hcfg. cbn zeta.
  rewrite (cacheMiddleware_lookup conf req next data (arrival m w h) Hcfg), call_next_eq.
  split; [reflexivity|].
  pose proof (lookup_patched data (url req) m w h) as Hl. cbn zeta in Hl.
  destruct Hl as (_ & Hobj & _).
  set (st1 := snd (lookup_phase data (url req) (arrival m w h))) in *.
  pose proof (run_handler_spec conf (url req) next (entered st1)) as Hr. cbn zeta in Hr.
  change (fixed (entered st1)) with (fixed st1) in Hr.
  change (objects (entered st1)) with (objects st1) in Hr.
  change (alreadyCached (vars (entered st1))) with (alreadyCached (vars st1)) in Hr.
  change (trace (entered st1)) with (trace st1 ++ [EvNext]) in Hr.
  rewrite Hobj in Hr. destruct (Hr (List.Forall_nil _)) as (Hfx & Hob & Hal & evs & Htr & Hev & Hc).
  split; [exact Hfx|]. split; [exact Hob|]. split; [exact Hal|].
  exists evs. rewrite Htr, <- app_assoc. auto.
Qed.

Lemma bypass_run conf req next m w h :
  caching_config w req = None ->
  let run := cacheMiddleware conf req next (arrival m w h) in
  _sharedRedisClient (module_ (snd run)) = _sharedRedisClient m /\
  nextClient (world (snd run)) = nextClient w /\
  exists evs, trace (snd run) = EvNext :: evs /\
              Forall (fun e => store_io e = false /\ is_next e = false) evs.
Proof.
  intros Hcfg. cbn zeta.
  assert (Hgen : forall st0, jsonPatched (res st0) = false -> objects st0 = [] ->
            trace st0 = [] ->
            let st' := snd (call_next conf (url req) next st0) in
            module_ st' = module_ st0 /\ nextClient (world st') = nextClient (world st0) /\
            exists evs, trace st' = EvNext :: evs /\
              Forall (fun e => store_io e = false /\ is_next e = false) evs).
  { intros st0 Hp Hobj Htr0. cbn zeta. rewrite call_next_eq.
    pose proof (run_handler_spec conf (url req) next (entered st0)) as Hr. cbn zeta in Hr.
    change (objects (entered st0)) with (objects st0) in Hr. rewrite Hobj in Hr.
    destruct (Hr (List.Forall_nil _)) as (Hfx & _ & _ & evs & Htr & Hev & _).
    split; [exact (f_equal f_module Hfx)|]. split; [exact (f_equal f_nextClient Hfx)|].
    exists evs. split.
    - rewrite Htr. change (trace (entered st0)) with (trace st0 ++ [EvNext]).
      now rewrite Htr0.
    - eapply Forall_impl; [exact Hev|]. intros e He.
      apply handler_event_kind in He. destruct He as (Hn & _ & _ & _ & Hio & _).
      split; [|exact Hn]. destruct (store_io e); [|reflexivity].
      destruct (Hio eq_refl) as [Hp' _].
      change (f_patched (fixed (entered st0))) with (jsonPatched (res st0)) in Hp'.
      congruence. }
  rewrite (cacheMiddleware_bypass conf req next (arrival m w h) Hcfg).
  unfold bypass_state.
  destruct (breezeCacheConfigSchema_safeParse _) as [d|];
    [destruct (truthy (redisUrl d) && enabled d)|].
  - destruct (Hgen (arrival m w h)) as (Hm & Hn & Hev); try reflexivity.
    split; [now rewrite Hm|]. split; [exact Hn | exact Hev].
  - destruct (Hgen (on_module (with_cacheInitialized false) (arrival m w h)))
      as (Hm & Hn & Hev); try reflexivity.
    split; [now rewrite Hm|]. split; [exact Hn | exact Hev].
  - destruct (Hgen (on_module (with_cacheInitialized false) (arrival m w h)))
      as (Hm & Hn & Hev); try reflexivity.
    split; [now rewrite Hm|]. split; [exact Hn | exact Hev].
Qed.

Lemma patched_before_io_none t :
  Forall (fun e => store_io e = false) t -> patched_before_io t.
Proof.
  intros Ht pre e post -> Hio. apply Forall_app in Ht as [_ Ht].
  inversion Ht; subst. congruence.
Qed.

Lemma patched_before_io_patch pre rest :
  Forall (fun e => store_io e = false) pre -> patched_before_io (pre ++ EvPatch :: rest).
Proof.
  intros Hpre pre' e post' Heq Hio.
  apply List.app_eq_app in Heq as [l [[Hl1 Hl2] | [Hl1 Hl2]]].
  - destruct l as [|x l]; cbn in Hl2.
    + injection Hl2 as He _. subst e. discriminate Hio.
    + injection Hl2 as He _. subst x pre. apply Forall_app in Hpre as [_ Hpre].
      inversion Hpre; subst. congruence.
  - destruct l as [|x l]; cbn in Hl2.
    + injection Hl2 as He _. subst e. discriminate Hio.
    + injection Hl2 as He _. subst x pre'. apply List.in_or_app. right. now left.
Qed.

Lemma active_polite conf req next m w h data :
  caching_config w req = Some data -> polite 0 next ->
  exists r, fst (cacheMiddleware conf req next (arrival m w h)) = Returned r.
Proof.
  intros Hcfg Hpol.
  destruct (active_run conf req next m w h data Hcfg) as (-> & _).
  pose proof (lookup_patched data (url req) m w h) as Hl. cbn zeta in Hl.
  destruct Hl as (Hp & Hobj & _).
  apply run_polite.
  - change (objects (entered ?s)) with (objects s). now rewrite Hobj.
  - exact Hp.
  - change (objects (entered ?s)) with (objects s). rewrite Hobj. constructor.
Qed.

Lemma object_ok_miss st r :
  jsonPatched (res st) = true -> cacheHit (vars st) = false ->
  object_ok (fixed st) r -> commit_object r.
Proof. unfold object_ok, fixed. cbn. now intros -> ->. Qed.

Lemma object_ok_hit st r :
  jsonPatched (res st) = true -> cacheHit (vars st) = true ->
  object_ok (fixed st) r -> r = {| sent := cacheHitValue (vars st); cache_method := CacheNoop |}.
Proof. unfold object_ok, fixed. cbn. now intros -> ->. Qed.

Lemma active_miss_objects conf req next m w h data :
  caching_config w req = Some data -> is_miss w (url req) = true ->
  let run := cacheMiddleware conf req next (arrival m w h) in
  jsonPatched (res (snd run)) = true /\ Forall commit_object (objects (snd run)).
Proof.
  intros Hcfg Hmiss. cbn zeta.
  destruct (active_run conf req next m w h data Hcfg) as (_ & Hfx & Hob & _).
  pose proof (lookup_patched data (url req) m w h) as Hl. cbn zeta in Hl.
  destruct Hl as (Hp & _).
  pose proof (lookup_miss data (url req) m w h Hmiss) as Hm. cbn zeta in Hm.
  destruct Hm as (Hh & _).
  split; [rewrite (fixed_patched _ _ Hfx); exact Hp|].
  eapply Forall_impl; [exact Hob|]. intros r Hr.
  eapply object_ok_miss; eassumption.
Qed.

Lemma active_next_once conf req next m w h data :
  caching_config w req = Some data ->
  count is_next (trace (snd (cacheMiddleware conf req next (arrival m w h)))) = 1%nat.
Proof.
  intros Hcfg.
  destruct (active_run conf req next m w h data Hcfg) as (_ & _ & _ & _ & evs & -> & Hev & _).
  pose proof (lookup_patched data (url req) m w h) as Hl. cbn zeta in Hl.
  destruct Hl as (_ & _ & Hn & _).
  destruct (handler_events_count _ _ _ Hev) as (Hn' & _).
  rewrite count_app, Hn. cbn. now rewrite Hn'.
Qed.

(** C3: in every request every store call comes after [res.json] has been
    patched; and when the lookup fails (at once, or at the retry) the
    downstream handler is invoked once, [res.json] stays patched, every object
    it returns carries the commit capability for the handler's own body, and
    a handler that awaits [cache] only on such objects returns normally. *)
Theorem patch_precedes_store conf req next m w h :
  let run := cacheMiddleware conf req next (arrival m w h) in
  patched_before_io (trace (snd run)) /\
  forall data, caching_config w req = Some data -> lookup_outcome w (url req) = None ->
    count is_next (trace (snd run)) = 1%nat /\
    jsonPatched (res (snd run)) = true /\
    Forall commit_object (objects (snd run)) /\
    (polite 0 next -> exists r, fst run = Returned r).
Proof.
  cbn zeta. split.
  - destruct (caching_config w req) as [data|] eqn:Hcfg.
    + destruct (active_run conf req next m w h data Hcfg) as (_ & _ & _ & _ & evs & -> & _).
      pose proof (lookup_patched data (url req) m w h) as Hl. cbn zeta in Hl.
      destruct Hl as (_ & _ & _ & _ & pre & post & -> & Hpre).
      rewrite <- app_assoc. cbn [app]. now apply patched_before_io_patch.
    + destruct (bypass_run conf req next m w h Hcfg) as (_ & _ & evs & -> & Hev).
      apply patched_before_io_none. constructor; [reflexivity|].
      eapply Forall_impl; [exact Hev|]. now intros e [He _].
  - intros data Hcfg Hfail.
    assert (Hmiss : is_miss w (url req) = true) by (unfold is_miss; now rewrite Hfail).
    destruct (active_miss_objects conf req next m w h data Hcfg Hmiss) as [Hp Hob].
    split; [now apply (active_next_once conf req next m w h data)|].
    split; [exact Hp|]. split; [exact Hob|].
    now apply (active_polite conf req next m w h data).
Qed.

Lemma fixed_hit st st' : fixed st' = fixed st -> cacheHit (vars st') = cacheHit (vars st).
Proof. intros E. exact (f_equal f_hit E). Qed.

Lemma run_handler_hit conf key h st :
  jsonPatched (res st) = true -> cacheHit (vars st) = true ->
  Forall (object_ok (fixed st)) (objects st) ->
  let st' := snd (run_handler conf key h st) in
  headers (res st') = headers (res st) /\ store (world st') = store (world st).
Proof.
  revert st. induction h as [r|body k IH|i k IH]; intros st Hp Hh Hobj; cbn zeta.
  - now rewrite run_Return.
  - rewrite run_CallJson.
    pose proof (res_json_spec body st) as Hj. cbn zeta in Hj.
    destruct Hj as (Hfx & _ & Hs & Hhd & Hob & Hok & _).
    rewrite <- Hs, <- Hhd. apply IH.
    + now rewrite (fixed_patched _ _ Hfx).
    + now rewrite (fixed_hit _ _ Hfx).
    + rewrite Hfx, Hob. apply Forall_app. split; [exact Hobj|]. now constructor.
  - rewrite run_CallCache.
    destruct (objects st !! i) as [r|] eqn:Hi; [|now split].
    assert (Hr : object_ok (fixed st) r).
    { apply (proj1 (Forall_forall _ _) Hobj). eapply list_elem_of_lookup_2. eassumption. }
    rewrite (object_ok_hit st r Hp Hh Hr). cbn [cache_method]. now apply IH.
Qed.


Lemma after_first_get_app a b :
  (1 <= count is_get a)%nat -> after_first_get (a ++ b) = after_first_get a ++ b.
Proof.
  induction a as [|e a IH]; cbn; [lia|].
  destruct (is_get e); [reflexivity|]. intros Hc. apply IH. lia.
Qed.

(** C4: a request that reaches the store calls the downstream handler once and
    surfaces no error of its own; when the first [get] fails with the
    connection-closed code there is one reconnect and one more [get], and if
    that fails too the request passes through with two [get]s in all; a
    failure with any other code passes through after the one [get], without a
    reconnect. *)
Theorem reconnects_at_most_once conf req next m w h data :
  caching_config w req = Some data ->
  let run := cacheMiddleware conf req next (arrival m w h) in
  let t := trace (snd run) in
  count is_next t = 1%nat /\
  (polite 0 next -> exists r, fst run = Returned r) /\
  match faults w with
  | Fails code :: rest =>
      if is_closed_code code then
        count is_get t = 2%nat /\ reconnects t = 1%nat /\
        match rest with
        | Fails _ :: _ => Forall commit_object (objects (snd run))
        | _ => True
        end
      else
        count is_get t = 1%nat /\ reconnects t = 0%nat /\
        Forall commit_object (objects (snd run))
  | _ => count is_get t = 1%nat /\ reconnects t = 0%nat
  end.
Proof.
  intros Hcfg. cbn zeta.
  split; [now apply (active_next_once conf req next m w h data)|].
  split; [now apply (active_polite conf req next m w h data)|].
  pose proof (active_run conf req next m w h data Hcfg) as Hrun. cbn zeta in Hrun.
  destruct Hrun as (_ & _ & _ & _ & evs & Htr & Hev & _).
  pose proof (lookup_retry data (url req) m w h) as Hr. cbn zeta in Hr.
  destruct Hr as [Hge Hr].
  destruct (handler_events_count _ _ _ Hev) as (_ & Hg & Hn).
  assert (Hgets : count is_get (trace (snd (cacheMiddleware conf req next (arrival m w h))))
                  = count is_get (trace (snd (lookup_phase data (url req) (arrival m w h))))).
  { rewrite Htr, count_app. cbn. rewrite Hg. lia. }
  assert (Hrec : reconnects (trace (snd (cacheMiddleware conf req next (arrival m w h))))
                 = reconnects (trace (snd (lookup_phase data (url req) (arrival m w h))))).
  { unfold reconnects. rewrite Htr, after_first_get_app by exact Hge.
    rewrite count_app. cbn. rewrite Hn. lia. }
  rewrite Hgets, Hrec.
  destruct (faults w) as [|[|code] rest] eqn:Hf; try exact Hr.
  destruct (is_closed_code code) eqn:Hc.
  - destruct Hr as [Hr1 Hr2]. split; [exact Hr1|]. split; [exact Hr2|].
    destruct rest as [|[|code2] rest']; try exact I.
    apply (active_miss_objects conf req next m w h data Hcfg).
    unfold is_miss, lookup_outcome. now rewrite Hf, Hc.
  - destruct Hr as [Hr1 Hr2]. split; [exact Hr1|]. split; [exact Hr2|].
    apply (active_miss_objects conf req next m w h data Hcfg).
    unfold is_miss, lookup_outcome. now rewrite Hf, Hc.
Qed.

(** C6: whatever a request closes is a connection it opened itself (its number
    was allocated during the request) and is not the shared connection,
    neither the one it found nor the one it leaves. *)
Theorem closes_only_own_connections conf req next m w h c :
  (forall s, _sharedRedisClient m = Some s -> (s < nextClient w)%nat) ->
  let run := cacheMiddleware conf req next (arrival m w h) in
  In (EvClose c) (trace (snd run)) ->
  (nextClient w <= c < nextClient (world (snd run)))%nat /\
  _sharedRedisClient m <> Some c /\
  _sharedRedisClient (module_ (snd run)) <> Some c.
Proof.
  intros Hwf. cbn zeta. intros Hin.
  destruct (caching_config w req) as [data|] eqn:Hcfg.
  2:{ destruct (bypass_run conf req next m w h Hcfg) as (_ & _ & evs & Htr & Hev).
      rewrite Htr in Hin. destruct Hin as [Hin|Hin]; [discriminate|].
      apply list_elem_of_In in Hin.
      apply (proj1 (Forall_forall _ _) Hev) in Hin. destruct Hin; discriminate. }
  pose proof (active_run conf req next m w h data Hcfg) as Hrun. cbn zeta in Hrun.
  destruct Hrun as (_ & Hfx & _ & _ & evs & Htr & Hev & _).
  pose proof (lookup_events data (url req) m w h) as Hl. cbn zeta in Hl.
  destruct Hl as (Hle & Hshould & Hexcl).
  set (st1 := snd (lookup_phase data (url req) (arrival m w h))) in *.
  assert (Hc : exclusive_for (redisUrl data) m = true /\
               (nextClient w <= c < nextClient (world st1))%nat).
  { rewrite Htr in Hin. apply List.in_app_or in Hin as [Hin|[Hin|Hin]].
    - apply list_elem_of_In in Hin. apply (proj1 (Forall_forall _ _) Hle) in Hin. exact Hin.
    - discriminate.
    - apply list_elem_of_In in Hin. apply (proj1 (Forall_forall _ _) Hev) in Hin.
      cbn in Hin. destruct Hin as (_ & _ & Hs & ->).
      rewrite Hshould in Hs. split; [exact Hs|]. now apply Hexcl. }
  destruct Hc as [Hex Hc]. destruct (Hexcl Hex) as [_ Hsh].
  rewrite (f_equal f_nextClient Hfx : nextClient (world _) = nextClient (world st1)).
  rewrite (f_equal f_module Hfx : module_ _ = module_ st1), Hsh.
  split; [exact Hc|].
  assert (Hne : _sharedRedisClient m <> Some c).
  { intros Hs. apply Hwf in Hs. lia. }
  split; exact Hne.
Qed.

Lemma run_handler_enabled conf b key h st :
  run_handler (with_conf_enabled b conf) key h st = run_handler conf key h st.
Proof.
  revert st. induction h as [r|body k IH|i k IH]; intros st.
  - reflexivity.
  - rewrite !run_CallJson. apply IH.
  - rewrite !run_CallCache. destruct (objects st !! i) as [r|]; [|reflexivity].
    destruct (cache_method r) as [| |body]; [reflexivity|apply IH|].
    change (cache (with_conf_enabled b conf) key r body st) with (cache conf key r body st).
    apply IH.
Qed.

(** C10: changing the per-route [enabled] flag, to any value or to none,
    leaves the middleware's result and final state the same on every request,
    for every handler and from every state. *)
Theorem enabled_flag_is_not_read conf b req next st :
  cacheMiddleware (with_conf_enabled b conf) req next st = cacheMiddleware conf req next st.
Proof.
  destruct (caching_config (world st) req) as [data|] eqn:Hcfg.
  - rewrite !(cacheMiddleware_lookup _ req next data st Hcfg), !call_next_eq.
    apply run_handler_enabled.
  - rewrite !(cacheMiddleware_bypass _ req next st Hcfg), !call_next_eq.
    apply run_handler_enabled.
Qed.

Lemma run_handler_cacheKey conf k key h st :
  run_handler (with_conf_cacheKey k conf) key h st = run_handler conf key h st.
Proof.
  revert st. induction h as [r|body f IH|i f IH]; intros st.
  - reflexivity.
  - rewrite !run_CallJson. apply IH.
  - rewrite !run_CallCache. destruct (objects st !! i) as [r|]; [|reflexivity].
    destruct (cache_method r) as [| |body]; [reflexivity|apply IH|].
    change (cache (with_conf_cacheKey k conf) key r body st) with (cache conf key r body st).
    apply IH.
Qed.

(** The per-route [cacheKey] is not read either: whatever it is, the request
    runs the same. *)
Lemma cacheKey_is_not_read conf k req next st :
  cacheMiddleware (with_conf_cacheKey k conf) req next st = cacheMiddleware conf req next st.
Proof.
  destruct (caching_config (world st) req) as [data|] eqn:Hcfg.
  - rewrite !(cacheMiddleware_lookup _ req next data st Hcfg), !call_next_eq.
    apply run_handler_cacheKey.
  - rewrite !(cacheMiddleware_bypass _ req next st Hcfg), !call_next_eq.
    apply run_handler_cacheKey.
Qed.

Lemma cache_again conf key r body st :
  alreadyCached (vars st) = true -> cache conf key r body st = (r, st).
Proof.
  intros Ha. unfold cache. rewrite bind_eq. cbn [read fst snd]. now rewrite Ha.
Qed.

Lemma cache_marks conf key r body st :
  fst (cache conf key r body st) = r /\
  alreadyCached (vars (snd (cache conf key r body st))) = true.
Proof.
  destruct (alreadyCached (vars st)) eqn:Ha.
  - rewrite (cache_again conf key r body st Ha). now split.
  - unfold cache, close_per_request, client_set, client_expire, client_close, res_header,
      next_fault, when, bind, read, write, emit, ret.
    cbn. rewrite Ha. cbn.
    destruct (faults (world st)) as [|[|code] [|[|code2] rest]] eqn:Hf; cbn;
      rewrite ?Hf; cbn; destruct (shouldCloseClient (vars st)); cbn; now split.
Qed.

Lemma commit_times_again conf key n r body st :
  alreadyCached (vars st) = true -> objects st !! 0%nat = Some r ->
  cache_method r = CacheCommit body ->
  run_handler conf key (commit_times n r) st = (Returned (Some r), st).
Proof.
  intros Ha Hr Hm. induction n as [|n IH]; [reflexivity|].
  cbn [commit_times]. rewrite run_CallCache, Hr, Hm.
  rewrite (cache_again conf key r body st Ha). exact IH.
Qed.

Lemma res_json_miss body st :
  jsonPatched (res st) = true -> cacheHit (vars st) = false ->
  let r := {| sent := Some body; cache_method := CacheCommit body |} in
  res_json body st =
  (r, on_objects (fun os => os ++ [r]) (on_trace (fun t => t ++ [EvJson (Some body)]) st)).
Proof.
  intros Hp Hh. unfold res_json, patched_json, originalJson, bind, read, write, emit, ret.
  now rewrite Hp, Hh.
Qed.

Lemma sets_at_most_once conf req next m w h :
  (count is_set (trace (snd (cacheMiddleware conf req next (arrival m w h)))) <= 1)%nat.
Proof.
  destruct (caching_config w req) as [data|] eqn:Hcfg.
  - pose proof (active_run conf req next m w h data Hcfg) as Hrun. cbn zeta in Hrun.
    destruct Hrun as (_ & _ & _ & _ & evs & -> & _ & Hc).
    pose proof (lookup_patched data (url req) m w h) as Hl. cbn zeta in Hl.
    destruct Hl as (_ & _ & _ & Hs & _).
    rewrite count_app, Hs. cbn. destruct (alreadyCached _); lia.
  - destruct (bypass_run conf req next m w h Hcfg) as (_ & _ & evs & -> & Hev).
    cbn. rewrite count_zero; [lia|].
    eapply Forall_impl; [exact Hev|]. intros e [He _]. now destruct e.
Qed.

(** C5: a [cache] call made when the write has been committed changes
    nothing and returns its object; every [cache] call returns its object and
    leaves the write committed; no request issues more than one [set]; and on
    a miss, awaiting [cache] [n >= 1] times on the object that [res.json]
    returned issues exactly one [set] and returns that object. *)
Theorem commit_writes_once :
  (forall conf key r body st,
     alreadyCached (vars st) = true -> cache conf key r body st = (r, st)) /\
  (forall conf key r body st,
     fst (cache conf key r body st) = r /\
     alreadyCached (vars (snd (cache conf key r body st))) = true) /\
  (forall conf req next m w h,
     (count is_set (trace (snd (cacheMiddleware conf req next (arrival m w h)))) <= 1)%nat) /\
  (forall conf req m w h data body n,
     caching_config w req = Some data -> is_miss w (url req) = true -> (1 <= n)%nat ->
     let run := cacheMiddleware conf req (CallJson body (commit_times n)) (arrival m w h) in
     fst run = Returned (Some {| sent := Some body; cache_method := CacheCommit body |}) /\
     count is_set (trace (snd run)) = 1%nat).
Proof.
  split; [exact cache_again|]. split; [exact cache_marks|].
  split; [exact sets_at_most_once|].
  intros conf req m w h data body n Hcfg Hmiss Hn. cbn zeta.
  destruct (active_run conf req (CallJson body (commit_times n)) m w h data Hcfg) as (-> & _).
  pose proof (lookup_patched data (url req) m w h) as Hl. cbn zeta in Hl.
  destruct Hl as (Hp & Hobj & _ & Hs & _).
  pose proof (lookup_miss data (url req) m w h Hmiss) as Hm. cbn zeta in Hm.
  destruct Hm as (Hh & Ha & _).
  set (st1 := snd (lookup_phase data (url req) (arrival m w h))) in *.
  rewrite run_CallJson.
  rewrite (res_json_miss body (entered st1) Hp Hh). cbn [fst snd].
  set (r := {| sent := Some body; cache_method := CacheCommit body |}).
  set (st2 := on_objects _ _).
  destruct n as [|n]; [lia|]. cbn [commit_times].
  assert (Hr2 : objects st2 !! 0%nat = Some r).
  { unfold st2. cbn. change (objects st1) with (objects st1). rewrite Hobj. reflexivity. }
  rewrite run_CallCache, Hr2. cbn [cache_method r].
  pose proof (cache_spec conf (url req) r body st2 Hp Hh) as Hc. cbn zeta in Hc.
  destruct Hc as (Hr & _ & Hob & Hal & _ & evs & Htr & _ & Hcount).
  rewrite Hr.
  rewrite (commit_times_again conf (url req) n r body _ Hal); [|now rewrite Hob|reflexivity].
  cbn [fst snd]. split; [reflexivity|].
  rewrite Htr, count_app, Hcount.
  change (alreadyCached (vars st2)) with (alreadyCached (vars st1)). rewrite Ha.
  unfold st2. cbn [trace on_objects on_trace entered].
  rewrite !count_app, Hs. reflexivity.
Qed.

(** C8 (as amended): the schema rejects a configuration without [duration] and
    supplies no default for it; the middleware, which never applies the
    schema, gives such a configuration 60 seconds, and the commit sets that
    expiry. *)
Theorem duration_default_sixty :
  (forall conf, conf_duration conf = None -> cacheConfigSchema_safeParse conf = None) /\
  (forall conf cfg, cacheConfigSchema_safeParse conf = Some cfg ->
                    conf_duration conf = Some (DString (cfg_duration cfg))) /\
  (forall conf, conf_duration conf = None -> durationSeconds conf = Fin 60) /\
  (forall conf key r body st,
     conf_duration conf = None -> alreadyCached (vars st) = false ->
     faults (world st) = [] ->
     In (EvExpire (client (vars st)) key (Fin 60))
        (trace (snd (cache conf key r body st)))).
Proof.
  split; [|split; [|split]].
  - intros conf Hd. unfold cacheConfigSchema_safeParse. now rewrite Hd.
  - intros conf cfg. unfold cacheConfigSchema_safeParse.
    destruct (conf_duration conf) as [[d|n|]|]; try discriminate.
    now intros [= <-].
  - intros conf Hd. unfold durationSeconds. now rewrite Hd.
  - intros conf key r body st Hd Ha Hf.
    unfold cache, close_per_request, client_set, client_expire, client_close, res_header,
      next_fault, when, durationSeconds, bind, read, write, emit, ret.
    cbn. rewrite Ha, Hd. cbn. rewrite Hf. cbn. rewrite Hf. cbn.
    destruct (shouldCloseClient (vars st)); cbn;
      rewrite ?List.in_app_iff; cbn; tauto.
Qed.

End MiddlewareProperties.

(** * Further properties of the middleware *)

Section FurtherMiddlewareProperties.
Context `{JsonLib}.

Ltac exec :=
  cbv beta iota zeta delta
    [lookup_phase tryGetCache close_per_request client_get client_close
     new_RedisClient res_header next_fault when arrival bind read write emit ret
     on_module on_world on_res on_vars on_objects on_trace
     with_sharedRedisClient with_store with_faults with_nextClient
     with_jsonPatched with_headers with_client with_shouldCloseClient
     with_alreadyCached with_cacheHitValue with_cacheHit with_cached with_retried
     module_ world res vars objects trace
     registry store faults nextClient jsonPatched headers
     client shouldCloseClient alreadyCached cacheHitValue cacheHit cached retried
     negb andb fst snd app].

Ltac split_lookup data key m w :=
  let fs := fresh "fs" in
  let s := fresh "s" in
  destruct w as [? s fs ?];
  exec;
  destruct (shared_for (redisUrl data) m) as [shared|] eqn:Hshared; exec;
  (destruct fs as [|[|code] [|[|code2] rest]]; exec;
   try (destruct (is_closed_code code) eqn:Hclosed; exec;
        rewrite ?shared_for_initialized, ?Hshared; exec));
  try (destruct (s !! key) as [text|] eqn:Hstore; exec;
       [destruct (truthy text) eqn:Htruthy; exec;
        [destruct (JSON_parse text) as [value|] eqn:Hparse; exec|]|]).

(** *** What the lookup leaves *)

Lemma lookup_world data key m w h :
  let st1 := snd (lookup_phase data key (arrival m w h)) in
  registry (world st1) = registry w /\ store (world st1) = store w /\
  _cacheInitialized (module_ st1) = true /\
  _sharedRedisUrl (module_ st1) = _sharedRedisUrl m /\
  (faults w = [] -> faults (world st1) = []) /\
  count is_set (trace st1) = 0%nat /\ count is_expire (trace st1) = 0%nat /\
  Forall (fun e => is_set e = false /\ is_expire e = false /\ is_json e = false) (trace st1).
Proof.
  split_lookup data key m w.
  all: repeat (split; [try reflexivity; try (intros; discriminate)|]).
  all: repeat constructor.
Qed.


(** *** What the handler can change *)

Lemma res_json_world body st :
  world (snd (res_json body st)) = world st /\
  module_ (snd (res_json body st)) = module_ st /\
  vars (snd (res_json body st)) = vars st /\
  res (snd (res_json body st)) = res st /\
  exists b, trace (snd (res_json body st)) = trace st ++ [EvJson b].
Proof.
  unfold res_json, patched_json, originalJson, bind, read, write, emit, ret.
  destruct (jsonPatched (res st)); [destruct (cacheHit (vars st))|]; cbn; eauto 10.
Qed.

Lemma cache_frame conf key r body st :
  let st' := snd (cache conf key r body st) in
  registry (world st') = registry (world st) /\
  (faults (world st) = [] -> faults (world st') = []) /\
  (store (world st') = store (world st) \/
   alreadyCached (vars st) = false /\
   store (world st') = <[key := JSON_stringify body]> (store (world st))) /\
  (headers (res st') = headers (res st) \/
   headers (res st') = <[X_BREEZEAPI_CACHE := MISS]> (headers (res st))) /\
  exists evs, trace st' = trace st ++ evs /\ Forall (write_event conf key) evs.
Proof.
  cbn zeta. destruct (alreadyCached (vars st)) eqn:Ha.
  { rewrite (cache_again conf key r body st Ha). cbn [snd].
    repeat split; auto. exists []. now rewrite app_nil_r. }
  unfold cache, close_per_request, client_set, client_expire, client_close, res_header,
    next_fault, when, bind, read, write, emit, ret.
  cbn. rewrite Ha. cbn.
  destruct (faults (world st)) as [|[|code] [|[|code2] rest]] eqn:Hf; cbn;
    rewrite ?Hf; cbn; destruct (shouldCloseClient (vars st)); cbn.
  all: (split; [reflexivity|]); (split; [try reflexivity; intros; congruence|]).
  all: (split; [first [left; reflexivity | right; split; reflexivity]|]).
  all: (split; [right; reflexivity|]).
  all: eexists; (split; [rewrite <- ?app_assoc; reflexivity|]).
  all: repeat constructor; eauto.
Qed.

Lemma run_handler_frame conf key h st :
  let st' := snd (run_handler conf key h st) in
  registry (world st') = registry (world st) /\
  (faults (world st) = [] -> faults (world st') = []) /\
  (store (world st') = store (world st) \/
   alreadyCached (vars st) = false /\
   exists b, store (world st') = <[key := JSON_stringify b]> (store (world st))) /\
  (headers (res st') = headers (res st) \/
   headers (res st') = <[X_BREEZEAPI_CACHE := MISS]> (headers (res st))) /\
  exists evs, trace st' = trace st ++ evs /\ Forall (write_event conf key) evs.
Proof.
  assert (Hstop : forall st,
    registry (world st) = registry (world st) /\
    (faults (world st) = [] -> faults (world st) = []) /\
    (store (world st) = store (world st) \/
     alreadyCached (vars st) = false /\
     exists b, store (world st) = <[key := JSON_stringify b]> (store (world st))) /\
    (headers (res st) = headers (res st) \/
     headers (res st) = <[X_BREEZEAPI_CACHE := MISS]> (headers (res st))) /\
    exists evs, trace st = trace st ++ evs /\ Forall (write_event conf key) evs).
  { intros st0. repeat split; auto. exists []. now rewrite app_nil_r. }
  revert st. induction h as [r|body k IH|i k IH]; intros st; cbn zeta.
  - rewrite run_Return. apply Hstop.
  - rewrite run_CallJson.
    destruct (res_json_world body st) as (Hw & _ & Hv & Hr & b & Htr).
    specialize (IH (fst (res_json body st)) (snd (res_json body st))). cbn zeta in IH.
    rewrite Hw, Hv, Hr, Htr in IH.
    destruct IH as (H1 & H2 & H3 & H4 & evs & H5 & H6).
    repeat (split; [assumption|]).
    exists (EvJson b :: evs). rewrite H5, <- app_assoc. split; [reflexivity|].
    constructor; [exact I | exact H6].
  - rewrite run_CallCache.
    destruct (objects st !! i) as [r|]; [|apply Hstop].
    destruct (cache_method r) as [| |body]; [apply Hstop | apply IH |].
    pose proof (cache_frame conf key r body st) as Hc. cbn zeta in Hc.
    destruct Hc as (C1 & C2 & C3 & C4 & evs1 & C5 & C6).
    destruct (cache_marks conf key r body st) as [_ Hmark].
    specialize (IH (fst (cache conf key r body st)) (snd (cache conf key r body st))).
    cbn zeta in IH. destruct IH as (H1 & H2 & H3 & H4 & evs & H5 & H6).
    split; [congruence|]. split; [auto|]. split.
    { destruct H3 as [H3|[H3 _]]; [|congruence].
      rewrite H3. destruct C3 as [C3|[C3 C3']]; [now left|]. right. split; [exact C3|].
      now exists body. }
    split.
    { destruct H4 as [H4|H4], C4 as [C4|C4]; rewrite H4, C4; auto.
      right. apply insert_insert_eq. }
    exists (evs1 ++ evs). rewrite H5, C5, <- app_assoc. split; [reflexivity|].
    apply Forall_app. now split.
Qed.

(** While [res.json] is the framework's own, the handler reaches nothing
    but it. *)
Lemma run_handler_unpatched conf key h st :
  jsonPatched (res st) = false ->
  Forall (fun r => cache_method r = NoCacheMethod) (objects st) ->
  let st' := snd (run_handler conf key h st) in
  world st' = world st /\ module_ st' = module_ st /\ res st' = res st /\
  Forall (fun r => cache_method r = NoCacheMethod) (objects st') /\
  exists evs, trace st' = trace st ++ evs /\ Forall (fun e => is_json e = true) evs.
Proof.
  revert st. induction h as [r|body k IH|i k IH]; intros st Hp Hobj; cbn zeta.
  - rewrite run_Return. repeat split; auto. exists []. now rewrite app_nil_r.
  - rewrite run_CallJson.
    destruct (res_json_world body st) as (Hw & Hm & _ & Hr & b & Htr).
    pose proof (res_json_spec body st) as Hj. cbn zeta in Hj.
    destruct Hj as (_ & _ & _ & _ & Hob & Hok & _).
    unfold object_ok, fixed in Hok. cbn [f_patched] in Hok. rewrite Hp in Hok.
    specialize (IH (fst (res_json body st)) (snd (res_json body st))). cbn zeta in IH.
    rewrite Hw, Hm, Hr, Htr, Hob in IH.
    destruct IH as (H1 & H2 & H3 & H4 & evs & H5 & H6); [exact Hp| |].
    { apply Forall_app. split; [exact Hobj|]. constructor; [exact Hok | constructor]. }
    repeat (split; [assumption|]).
    exists (EvJson b :: evs). rewrite H5, <- app_assoc. split; [reflexivity|].
    now constructor.
  - rewrite run_CallCache.
    destruct (objects st !! i) as [r|] eqn:Hi.
    + assert (Hr : cache_method r = NoCacheMethod).
      { apply (proj1 (Forall_forall _ _) Hobj). eapply list_elem_of_lookup_2. eassumption. }
      rewrite Hr. repeat split; auto. exists []. now rewrite app_nil_r.
    + repeat split; auto. exists []. now rewrite app_nil_r.
Qed.


(** *** Requests that do not go to the store *)

Lemma bypass_state_arrival req m w h :
  let st0 := bypass_state req (arrival m w h) in
  jsonPatched (res st0) = false /\ objects st0 = [] /\ world st0 = w /\
  res st0 = {| jsonPatched := false; headers := h |} /\ trace st0 = [] /\
  _sharedRedisClient (module_ st0) = _sharedRedisClient m /\
  _sharedRedisUrl (module_ st0) = _sharedRedisUrl m.
Proof.
  unfold bypass_state. cbn [arrival world registry].
  destruct (breezeCacheConfigSchema_safeParse (registry w)) as [d|];
    [destruct (truthy (redisUrl d) && enabled d)|]; repeat split; reflexivity.
Qed.

Lemma bypass_unpatched conf req next m w h :
  caching_config w req = None ->
  let run := cacheMiddleware conf req next (arrival m w h) in
  jsonPatched (res (snd run)) = false /\
  world (snd run) = w /\ headers (res (snd run)) = h /\
  module_ (snd run) = module_ (bypass_state req (arrival m w h)) /\
  Forall (fun r => cache_method r = NoCacheMethod) (objects (snd run)) /\
  exists evs, trace (snd run) = EvNext :: evs /\ Forall (fun e => is_json e = true) evs.
Proof.
  intros Hcfg. cbn zeta.
  rewrite (cacheMiddleware_bypass conf req next (arrival m w h) Hcfg), call_next_eq.
  pose proof (bypass_state_arrival req m w h) as Hb. cbn zeta in Hb.
  destruct Hb as (Hp & Hobj & Hw & Hr & Htr & _).
  set (st0 := bypass_state req (arrival m w h)) in *.
  pose proof (run_handler_unpatched conf (url req) next (entered st0)) as Hu.
  cbn zeta in Hu.
  change (objects (entered st0)) with (objects st0) in Hu. rewrite Hobj in Hu.
  destruct (Hu Hp (List.Forall_nil _)) as (U1 & U2 & U3 & U4 & evs & U5 & U6).
  change (world (entered st0)) with (world st0) in U1.
  change (res (entered st0)) with (res st0) in U3.
  change (module_ (entered st0)) with (module_ st0) in U2.
  change (trace (entered st0)) with (trace st0 ++ [EvNext]) in U5.
  rewrite Htr in U5.
  split; [now rewrite U3, Hr|]. split; [now rewrite U1|]. split; [now rewrite U3, Hr|].
  split; [exact U2|]. split; [exact U4|]. exists evs. split; [exact U5 | exact U6].
Qed.

(** X9: When the configuration is missing or invalid, caching is switched off or
    the path is excluded, the request goes to the handler with [res.json] as
    the framework made it: the store, the connections and the headers stay
    as they were, and no object that [res.json] returns has a [cache]
    property, so that a handler written as [res.json(body).cache()] raises. *)
Theorem bypass_leaves_json_untouched conf req m w h :
  caching_config w req = None ->
  (forall next,
     let run := cacheMiddleware conf req next (arrival m w h) in
     jsonPatched (res (snd run)) = false /\
     world (snd run) = w /\ headers (res (snd run)) = h /\
     Forall (fun r => cache_method r = NoCacheMethod) (objects (snd run)) /\
     exists evs, trace (snd run) = EvNext :: evs /\ Forall (fun e => is_json e = true) evs) /\
  (forall body k,
     fst (cacheMiddleware conf req (CallJson body (fun _ => CallCache 0 k)) (arrival m w h))
     = Threw).
Proof.
  intros Hcfg. split.
  - intros next. cbn zeta.
    destruct (bypass_unpatched conf req next m w h Hcfg) as (H1 & H2 & H3 & _ & H4 & H5).
    auto.
  - intros body k.
    rewrite (cacheMiddleware_bypass conf req _ (arrival m w h) Hcfg), call_next_eq.
    pose proof (bypass_state_arrival req m w h) as Hb. cbn zeta in Hb.
    destruct Hb as (Hp & Hobj & _).
    set (st0 := bypass_state req (arrival m w h)) in *.
    rewrite run_CallJson, run_CallCache.
    pose proof (res_json_spec body (entered st0)) as Hj. cbn zeta in Hj.
    destruct Hj as (_ & _ & _ & _ & Hob & Hok & _).
    change (objects (entered st0)) with (objects st0) in Hob. rewrite Hobj in Hob.
    rewrite Hob. cbn [app lookup list_lookup].
    unfold object_ok, fixed in Hok. cbn [f_patched] in Hok.
    change (jsonPatched (res (entered st0))) with (jsonPatched (res st0)) in Hok.
    rewrite Hp in Hok. now rewrite Hok.
Qed.

(** X10: [isCacheInitialized()] after a request tells whether that request got
    past the configuration checks: [true] when it went to the store, [false]
    when the configuration was invalid or caching switched off, and what it
    was before when the path is excluded. *)
Theorem isCacheInitialized_after_request conf req next m w h :
  let run := cacheMiddleware conf req next (arrival m w h) in
  fst (isCacheInitialized (snd run)) =
  match breezeCacheConfigSchema_safeParse (registry w) with
  | Some data =>
      if truthy (redisUrl data) && enabled data
      then (if excluded data req then _cacheInitialized m else true)
      else false
  | None => false
  end.
Proof.
  cbn zeta. unfold isCacheInitialized, read. cbn [fst].
  destruct (caching_config w req) as [data|] eqn:Hcfg.
  - pose proof (active_run conf req next m w h data Hcfg) as Hrun. cbn zeta in Hrun.
    destruct Hrun as (_ & Hfx & _).
    rewrite (f_equal f_module Hfx : module_ _ = module_ _).
    pose proof (lookup_world data (url req) m w h) as Hl. cbn zeta in Hl.
    destruct Hl as (_ & _ & -> & _).
    unfold caching_config in Hcfg.
    destruct (breezeCacheConfigSchema_safeParse (registry w)) as [d|]; [|discriminate].
    destruct (truthy (redisUrl d) && enabled d); [|discriminate].
    destruct (excluded d req); [discriminate|reflexivity].
  - destruct (bypass_unpatched conf req next m w h Hcfg) as (_ & _ & _ & -> & _).
    unfold caching_config in Hcfg. unfold bypass_state. cbn [arrival world registry].
    destruct (breezeCacheConfigSchema_safeParse (registry w)) as [d|]; [|reflexivity].
    destruct (truthy (redisUrl d) && enabled d); [|reflexivity].
    destruct (excluded d req); [reflexivity|discriminate].
Qed.

(** *** The writes of a request *)

Lemma run_writes conf req next m w h :
  let run := cacheMiddleware conf req next (arrival m w h) in
  registry (world (snd run)) = registry w /\
  (faults w = [] -> faults (world (snd run)) = []) /\
  Forall (write_event conf (url req)) (trace (snd run)) /\
  (store (world (snd run)) = store w \/
   exists b, store (world (snd run)) = <[url req := JSON_stringify b]> (store w)).
Proof.
  cbn zeta. destruct (caching_config w req) as [data|] eqn:Hcfg.
  - rewrite (cacheMiddleware_lookup conf req next data (arrival m w h) Hcfg), call_next_eq.
    pose proof (lookup_world data (url req) m w h) as Hl. cbn zeta in Hl.
    destruct Hl as (L1 & L2 & _ & _ & L3 & _ & _ & L4).
    set (st1 := snd (lookup_phase data (url req) (arrival m w h))) in *.
    pose proof (run_handler_frame conf (url req) next (entered st1)) as Hf. cbn zeta in Hf.
    change (world (entered st1)) with (world st1) in Hf.
    change (trace (entered st1)) with (trace st1 ++ [EvNext]) in Hf.
    destruct Hf as (F1 & F2 & F3 & _ & evs & F4 & F5).
    split; [congruence|]. split; [auto|]. split.
    + rewrite F4. apply Forall_app. split; [apply Forall_app; split|exact F5].
      * eapply Forall_impl; [exact L4|]. intros e (E1 & E2 & _). now destruct e.
      * now repeat constructor.
    + rewrite <- L2. destruct F3 as [F3|[_ F3]]; [now left | now right].
  - destruct (bypass_unpatched conf req next m w h Hcfg) as (_ & -> & _ & _ & _ & evs & -> & Hev).
    split; [reflexivity|]. split; [auto|]. split; [|now left].
    constructor; [exact I|]. eapply Forall_impl; [exact Hev|]. intros e He. now destruct e.
Qed.

(** X11: Whatever a request writes, it writes under its own URL: every [set]
    stores a serialized body under that key, every [expire] gives that key
    the time to live of the per-route configuration, and the store
    afterwards is the store before or differs from it in that one key. *)
Theorem writes_stay_at_request_key conf req next m w h :
  let run := cacheMiddleware conf req next (arrival m w h) in
  Forall (write_event conf (url req)) (trace (snd run)) /\
  (store (world (snd run)) = store w \/
   exists b, store (world (snd run)) = <[url req := JSON_stringify b]> (store w)) /\
  (forall k, k <> url req -> store (world (snd run)) !! k = store w !! k).
Proof.
  cbn zeta. destruct (run_writes conf req next m w h) as (_ & _ & Hw & Hs).
  split; [exact Hw|]. split; [exact Hs|].
  intros k Hk. destruct Hs as [->|[b ->]]; [reflexivity|].
  now rewrite lookup_insert_ne.
Qed.


(** *** A stored text that does not parse *)

Lemma lookup_corrupt data key m w h text :
  lookup_outcome w key = Some (Some text) -> truthy text = true ->
  JSON_parse text = None ->
  let st1 := snd (lookup_phase data key (arrival m w h)) in
  cacheHit (vars st1) = true /\ cacheHitValue (vars st1) = None /\
  alreadyCached (vars st1) = true /\ headers (res st1) = h.
Proof.
  unfold lookup_outcome. intros Hout Ht Hp. revert Hout.
  split_lookup data key m w; intros Hout; cbn in Hout; rewrite ?Hclosed in Hout;
    try discriminate; try congruence.
  all: injection Hout as ->; rewrite ?Ht, ?Hp in *; try discriminate.
  all: repeat split; reflexivity.
Qed.

Lemma hit_state conf req next m w h data :
  caching_config w req = Some data ->
  let st1 := snd (lookup_phase data (url req) (arrival m w h)) in
  let run := cacheMiddleware conf req next (arrival m w h) in
  cacheHit (vars st1) = true ->
  headers (res (snd run)) = headers (res st1) /\
  store (world (snd run)) = store w /\
  Forall (fun r => r = {| sent := cacheHitValue (vars st1); cache_method := CacheNoop |})
         (objects (snd run)) /\
  count is_set (trace (snd run)) = 0%nat /\
  count is_next (trace (snd run)) = 1%nat.
Proof.
  intros Hcfg. cbn zeta. intros Hh.
  pose proof (active_run conf req next m w h data Hcfg) as Hrun. cbn zeta in Hrun.
  destruct Hrun as (Heq & Hfx & Hob & _ & evs & Htr & Hev & _).
  pose proof (lookup_patched data (url req) m w h) as Hl. cbn zeta in Hl.
  destruct Hl as (Hp & Hobj & _ & Hsets & _).
  pose proof (lookup_world data (url req) m w h) as Hw. cbn zeta in Hw.
  destruct Hw as (_ & Hst & _).
  set (st1 := snd (lookup_phase data (url req) (arrival m w h))) in *.
  pose proof (run_handler_hit conf (url req) next (entered st1)) as Hk. cbn zeta in Hk.
  change (objects (entered st1)) with (objects st1) in Hk. rewrite Hobj in Hk.
  destruct (Hk Hp Hh (List.Forall_nil _)) as [Hk1 Hk2].
  split; [rewrite Heq; exact Hk1|]. split; [rewrite Heq, Hk2; exact Hst|].
  split.
  { eapply Forall_impl; [exact Hob|]. intros r Hr. exact (object_ok_hit st1 r Hp Hh Hr). }
  split; [|now apply (active_next_once conf req next m w h data)].
  rewrite Htr, count_app, Hsets. cbn. apply count_zero.
  eapply Forall_impl; [exact Hev|]. intros e He.
  apply handler_event_kind in He. destruct He as (_ & _ & _ & _ & _ & He).
  destruct (is_set e); [|reflexivity].
  specialize (He eq_refl). change (f_hit (fixed st1)) with (cacheHit (vars st1)) in He.
  congruence.
Qed.

(** X12: When the store holds a text under the key that [JSON.parse] rejects,
    the request is treated as a hit without a value: the handler runs, but
    every [res.json] it calls sends [undefined] in place of its body, with a
    [cache] that does nothing; nothing is written and no cache-status header
    is set. *)
Theorem corrupt_entry_sends_undefined conf req next m w h data text :
  caching_config w req = Some data ->
  lookup_outcome w (url req) = Some (Some text) ->
  truthy text = true -> JSON_parse text = None ->
  let run := cacheMiddleware conf req next (arrival m w h) in
  Forall (fun r => r = {| sent := None; cache_method := CacheNoop |}) (objects (snd run)) /\
  count is_next (trace (snd run)) = 1%nat /\
  count is_set (trace (snd run)) = 0%nat /\
  store (world (snd run)) = store w /\
  headers (res (snd run)) = h.
Proof.
  intros Hcfg Hout Ht Hparse. cbn zeta.
  pose proof (lookup_corrupt data (url req) m w h text Hout Ht Hparse) as Hc.
  cbn zeta in Hc. destruct Hc as (Hh & Hv & _ & Hhd).
  pose proof (hit_state conf req next m w h data Hcfg) as Hs. cbn zeta in Hs.
  destruct (Hs Hh) as (S1 & S2 & S3 & S4 & S5).
  rewrite Hv in S3. rewrite Hhd in S1. auto.
Qed.

(** *** The commit, whatever the store does to it *)

Lemma cache_commit conf key r body st :
  alreadyCached (vars st) = false ->
  let st' := snd (cache conf key r body st) in
  fst (cache conf key r body st) = r /\
  alreadyCached (vars st') = true /\ objects st' = objects st /\
  store (world st') = after_write (faults (world st)) key (JSON_stringify body) (store (world st)) /\
  headers (res st') = <[X_BREEZEAPI_CACHE := MISS]> (headers (res st)) /\
  exists post,
    trace st' = trace st ++ EvSet (client (vars st)) key (JSON_stringify body) :: post /\
    count is_set post = 0%nat /\
    count is_expire post = match first_fault (faults (world st)) with
                           | NoFault => 1%nat
                           | Fails _ => 0%nat
                           end.
Proof.
  intros Ha.
  unfold cache, close_per_request, client_set, client_expire, client_close, res_header,
    next_fault, when, after_write, first_fault, bind, read, write, emit, ret.
  cbn. rewrite Ha. cbn.
  destruct (faults (world st)) as [|[|code] [|[|code2] rest]] eqn:Hf; cbn;
    rewrite ?Hf; cbn; destruct (shouldCloseClient (vars st)); cbn.
  all: repeat (split; [reflexivity|]).
  all: eexists; (split; [rewrite <- ?app_assoc; cbn [app]; reflexivity|]); split; reflexivity.
Qed.





(** *** From one request to the next *)




(** *** Connections *)

Lemma lookup_shared_reconnect data key m w h c0 code0 rest0 :
  shared_for (redisUrl data) m = Some c0 ->
  faults w = Fails code0 :: rest0 -> is_closed_code code0 = true ->
  let st1 := snd (lookup_phase data key (arrival m w h)) in
  shared_for (redisUrl data) (module_ st1) = Some (nextClient w) /\
  shouldCloseClient (vars st1) = false /\
  count is_close (trace st1) = 0%nat /\
  exists post, trace st1 = EvPatch :: EvGet c0 key :: EvNew (nextClient w) (redisUrl data)
                             :: EvGet (nextClient w) key :: post.
Proof.
  intros Hs Hf Hc. revert Hs Hf.
  split_lookup data key m w; intros Hs Hf; try discriminate;
    injection Hf as <- <-; try congruence; injection Hs as <-.
  all: unfold shared_for in Hshared |- *;
    cbn [_sharedRedisClient _sharedRedisUrl with_sharedRedisClient with_cacheInitialized];
    destruct (_sharedRedisClient m); [|discriminate];
    destruct (decide (_sharedRedisUrl m = Some (redisUrl data))); [|discriminate].
  all: (split; [reflexivity|]); (split; [reflexivity|]); (split; [reflexivity|]).
  all: injection Hshared as ->; eexists; reflexivity.
Qed.

Lemma handler_never_closes_shared f key evs :
  f_should f = false -> Forall (handler_event f key) evs -> count is_close evs = 0%nat.
Proof.
  intros Hs Hev. apply count_zero. eapply Forall_impl; [exact Hev|].
  intros e He. destruct e; try reflexivity. cbn in He. destruct He as (_ & _ & He & _).
  congruence.
Qed.

(** X15: When the shared connection turns out closed, the request opens a new
    one, retries on it, and makes it the shared connection of the module:
    the requests after it use the new connection.  The old one is not
    closed by the request. *)
Theorem closed_shared_connection_is_replaced conf req next m w h data c code rest :
  caching_config w req = Some data ->
  shared_for (redisUrl data) m = Some c ->
  faults w = Fails code :: rest -> is_closed_code code = true ->
  let run := cacheMiddleware conf req next (arrival m w h) in
  shared_for (redisUrl data) (module_ (snd run)) = Some (nextClient w) /\
  count is_close (trace (snd run)) = 0%nat /\
  exists post, trace (snd run)
               = EvPatch :: EvGet c (url req) :: EvNew (nextClient w) (redisUrl data)
                   :: EvGet (nextClient w) (url req) :: post.
Proof.
  intros Hcfg Hs Hf Hc. cbn zeta.
  pose proof (active_run conf req next m w h data Hcfg) as Hrun. cbn zeta in Hrun.
  destruct Hrun as (_ & Hfx & _ & _ & evs & Htr & Hev & _).
  pose proof (lookup_shared_reconnect data (url req) m w h c code rest Hs Hf Hc) as Hl.
  cbn zeta in Hl. destruct Hl as (L1 & L2 & L3 & post & L4).
  rewrite (f_equal f_module Hfx : module_ _ = module_ _).
  split; [exact L1|]. rewrite Htr. split.
  - rewrite count_app, L3. cbn [count is_close].
    now rewrite (handler_never_closes_shared
                   (fixed (snd (lookup_phase data (url req) (arrival m w h))))
                   (url req) evs L2 Hev).
  - rewrite L4. cbn [app]. eexists. reflexivity.
Qed.

Lemma run_handler_json_only conf key h st :
  json_only h ->
  exists evs, trace (snd (run_handler conf key h st)) = trace st ++ evs /\
              Forall (fun e => is_json e = true) evs.
Proof.
  intros Hj. revert st. induction Hj as [r|body k _ IH]; intros st.
  - rewrite run_Return. exists []. now rewrite app_nil_r.
  - rewrite run_CallJson.
    destruct (res_json_world body st) as (_ & _ & _ & _ & b & Htr).
    destruct (IH (fst (res_json body st)) (snd (res_json body st))) as (evs & H1 & H2).
    exists (EvJson b :: evs). rewrite H1, Htr, <- app_assoc. split; [reflexivity|].
    now constructor.
Qed.

Lemma lookup_open data key m w h v :
  exclusive_for (redisUrl data) m = true ->
  lookup_outcome w key = Some v -> is_miss w key = true ->
  let st1 := snd (lookup_phase data key (arrival m w h)) in
  count is_new (trace st1) = S (count is_close (trace st1)).
Proof.
  unfold exclusive_for, is_miss, lookup_outcome. intros Hex Hout Hmiss. revert Hex Hout Hmiss.
  split_lookup data key m w; intros Hex Hout Hmiss; try discriminate Hex;
    cbn in Hout, Hmiss; rewrite ?Hclosed, ?Hstore, ?Htruthy in Hout, Hmiss; cbn in Hmiss;
    try discriminate.
  all: reflexivity.
Qed.

(** X16: On a miss the connection that the request opened for itself is closed
    inside [.cache()] only: when the handler never calls it, the request
    ends having opened one connection more than it has closed. *)
Theorem miss_without_commit_leaves_connection_open conf req next m w h data v :
  caching_config w req = Some data ->
  exclusive_for (redisUrl data) m = true ->
  lookup_outcome w (url req) = Some v -> is_miss w (url req) = true ->
  json_only next ->
  let t := trace (snd (cacheMiddleware conf req next (arrival m w h))) in
  count is_new t = S (count is_close t).
Proof.
  intros Hcfg Hex Hout Hmiss Hj. cbn zeta.
  rewrite (cacheMiddleware_lookup conf req next data (arrival m w h) Hcfg), call_next_eq.
  pose proof (lookup_open data (url req) m w h v Hex Hout Hmiss) as Hl. cbn zeta in Hl.
  set (st1 := snd (lookup_phase data (url req) (arrival m w h))) in *.
  destruct (run_handler_json_only conf (url req) next (entered st1) Hj) as (evs & -> & Hev).
  change (trace (entered st1)) with (trace st1 ++ [EvNext]).
  rewrite !count_app, Hl. cbn [count is_new is_close].
  assert (Hn : count is_new evs = 0%nat).
  { apply count_zero. eapply Forall_impl; [exact Hev|]. intros e He. now destruct e. }
  assert (Hc : count is_close evs = 0%nat).
  { apply count_zero. eapply Forall_impl; [exact Hev|]. intros e He. now destruct e. }
  rewrite Hn, Hc. lia.
Qed.

Lemma lookup_failed data key m w h :
  exclusive_for (redisUrl data) m = true -> lookup_outcome w key = None ->
  let st1 := snd (lookup_phase data key (arrival m w h)) in
  In (EvClose (client (vars st1))) (trace st1).
Proof.
  unfold exclusive_for, lookup_outcome. intros Hex Hout. revert Hex Hout.
  split_lookup data key m w; intros Hex Hout; try discriminate Hex;
    cbn in Hout; rewrite ?Hclosed in Hout; try discriminate.
  all: cbn; tauto.
Qed.

(** X17: After a lookup that failed, the request has closed its own connection,
    and a handler that then commits sends its [set] on that closed
    connection. *)
Theorem commit_after_failed_lookup_uses_closed_connection conf req m w h data body n :
  caching_config w req = Some data ->
  exclusive_for (redisUrl data) m = true ->
  lookup_outcome w (url req) = None -> (1 <= n)%nat ->
  let run := cacheMiddleware conf req (CallJson body (commit_times n)) (arrival m w h) in
  exists c pre post,
    trace (snd run) = pre ++ EvSet c (url req) (JSON_stringify body) :: post /\
    In (EvClose c) pre.
Proof.
  intros Hcfg Hex Hout Hn. cbn zeta.
  assert (Hmiss : is_miss w (url req) = true) by (unfold is_miss; now rewrite Hout).
  destruct (active_run conf req (CallJson body (commit_times n)) m w h data Hcfg) as (-> & _).
  pose proof (lookup_patched data (url req) m w h) as Hl. cbn zeta in Hl.
  destruct Hl as (Hp & Hobj & _).
  pose proof (lookup_miss data (url req) m w h Hmiss) as Hm. cbn zeta in Hm.
  destruct Hm as (Hh & Ha & _).
  pose proof (lookup_failed data (url req) m w h Hex Hout) as Hc. cbn zeta in Hc.
  set (st1 := snd (lookup_phase data (url req) (arrival m w h))) in *.
  rewrite run_CallJson.
  rewrite (res_json_miss body (entered st1) Hp Hh). cbn [fst snd].
  set (r := {| sent := Some body; cache_method := CacheCommit body |}).
  set (st2 := on_objects _ _).
  destruct n as [|n]; [lia|]. cbn [commit_times].
  assert (Hr2 : objects st2 !! 0%nat = Some r).
  { unfold st2. cbn. rewrite Hobj. reflexivity. }
  rewrite run_CallCache, Hr2. cbn [cache_method r].
  pose proof (cache_commit conf (url req) r body st2 Ha) as Hcc. cbn zeta in Hcc.
  destruct Hcc as (Hr & Hal & Hob & _ & _ & post & Htr & _).
  rewrite Hr.
  rewrite (commit_times_again conf (url req) n r body _ Hal); [|now rewrite Hob|reflexivity].
  cbn [snd]. exists (client (vars st1)), (trace st2), post. split; [exact Htr|].
  unfold st2. cbn [trace on_objects on_trace entered].
  apply List.in_or_app. left. apply List.in_or_app. left. exact Hc.
Qed.





Lemma lookup_open_one data key m w h :
  exclusive_for (redisUrl data) m = true ->
  let st1 := snd (lookup_phase data key (arrival m w h)) in
  (1 <= count is_new (trace st1))%nat.
Proof.
  unfold exclusive_for. intros Hex. revert Hex.
  split_lookup data key m w; intros Hex; try discriminate Hex.
  all: cbn; lia.
Qed.

Lemma lookup_hit_balanced data key m w h text value :
  exclusive_for (redisUrl data) m = true ->
  lookup_outcome w key = Some (Some text) -> truthy text = true ->
  JSON_parse text = Some value ->
  let st1 := snd (lookup_phase data key (arrival m w h)) in
  count is_new (trace st1) = count is_close (trace st1).
Proof.
  unfold exclusive_for, lookup_outcome. intros Hex Hout Ht Hp. revert Hex Hout.
  split_lookup data key m w; intros Hex Hout; try discriminate Hex;
    cbn in Hout; rewrite ?Hclosed in Hout; try discriminate; try congruence.
  all: injection Hout as ->; rewrite ?Ht, ?Hp in *; try discriminate.
  all: reflexivity.
Qed.

(** X18: On a hit, a request that opened a connection for itself has closed as
    many connections as it has opened by the time it ends, whatever the
    handler does. *)
Theorem hit_closes_own_connection conf req next m w h data text value :
  caching_config w req = Some data ->
  exclusive_for (redisUrl data) m = true ->
  lookup_outcome w (url req) = Some (Some text) ->
  truthy text = true -> JSON_parse text = Some value ->
  let t := trace (snd (cacheMiddleware conf req next (arrival m w h))) in
  count is_new t = count is_close t /\ (1 <= count is_new t)%nat.
Proof.
  intros Hcfg Hex Hout Ht Hp. cbn zeta.
  pose proof (active_run conf req next m w h data Hcfg) as Hrun. cbn zeta in Hrun.
  destruct Hrun as (_ & _ & _ & _ & evs & Htr & Hev & _).
  pose proof (lookup_hit_balanced data (url req) m w h text value Hex Hout Ht Hp) as Hb.
  pose proof (lookup_hit data (url req) m w h text value Hout Ht Hp) as Hhit.
  pose proof (lookup_open_one data (url req) m w h Hex) as Hone.
  cbn zeta in Hb, Hhit, Hone. destruct Hhit as (Hh & _).
  set (st1 := snd (lookup_phase data (url req) (arrival m w h))) in *.
  destruct (handler_events_count _ _ _ Hev) as (_ & _ & Hn).
  assert (Hc : count is_close evs = 0%nat).
  { apply count_zero. eapply Forall_impl; [exact Hev|]. intros e He.
    destruct e; try reflexivity. cbn in He. destruct He as (_ & He & _).
    change (f_hit (fixed st1)) with (cacheHit (vars st1)) in He. congruence. }
  rewrite Htr, !count_app. cbn [count is_new is_close]. rewrite Hn, Hc. lia.
Qed.

(** *** Excluded paths *)

Lemma startsWith_app p rest : startsWith (p ++ rest) p = true.
Proof.
  induction p as [|x p IH]; [now destruct rest|].
  cbn [app startsWith]. now rewrite N.eqb_refl, IH.
Qed.

(** X19: A path in [excludedPaths] excludes every URL that it starts, whatever
    follows it: such a request does not touch the store, [res.json] stays as
    it was, and no header is set. *)
Theorem excluded_prefix_bypasses_store conf req next m w h data paths p rest :
  breezeCacheConfigSchema_safeParse (registry w) = Some data ->
  excludedPaths data = Some paths -> In p paths -> url req = p ++ rest ->
  let run := cacheMiddleware conf req next (arrival m w h) in
  world (snd run) = w /\ jsonPatched (res (snd run)) = false /\
  headers (res (snd run)) = h /\
  fst (isCacheInitialized (snd run))
  = (if truthy (redisUrl data) && enabled data then _cacheInitialized m else false).
Proof.
  intros Hd Hx Hin Hu. cbn zeta.
  assert (Hex : excluded data req = true).
  { unfold excluded. rewrite Hx. apply existsb_exists. exists p. split; [exact Hin|].
    rewrite Hu. apply startsWith_app. }
  assert (Hcfg : caching_config w req = None).
  { unfold caching_config. rewrite Hd, Hex. now rewrite !andb_false_r. }
  destruct (bypass_unpatched conf req next m w h Hcfg) as (H1 & H2 & H3 & H4 & _).
  split; [exact H2|]. split; [exact H1|]. split; [exact H3|].
  unfold isCacheInitialized, read. cbn [fst]. rewrite H4.
  unfold bypass_state. cbn [arrival world registry]. rewrite Hd.
  now destruct (truthy (redisUrl data) && enabled data).
Qed.

End FurtherMiddlewareProperties.

(** * Properties of the other entry points *)

Section EntryPointProperties.
Context `{JsonLib}.

Ltac run_entry :=
  cbv beta iota zeta delta
    [initializeCache setCache isCacheInitialized
     close_per_request client_get client_set client_expire client_close
     new_RedisClient res_header next_fault when bind read write emit ret
     on_module on_world on_res on_vars on_objects on_trace
     with_sharedRedisClient with_sharedRedisUrl with_cacheInitialized
     with_store with_faults with_nextClient
     with_jsonPatched with_headers with_client
     module_ world res vars objects trace
     registry store faults nextClient jsonPatched headers
     _cacheInitialized _sharedRedisClient _sharedRedisUrl
     negb andb fst snd].

Lemma shared_for_self c u b :
  shared_for u {| _cacheInitialized := b; _sharedRedisClient := Some c;
                  _sharedRedisUrl := Some u |} = Some c.
Proof. unfold shared_for. cbn. now destruct (decide (Some u = Some u)). Qed.

Lemma initializeCache_invalid st :
  valid_config (world st) = None -> initializeCache st = (Throw None, st).
Proof.
  unfold valid_config, initializeCache. rewrite bind_eq. cbn [read fst snd].
  destruct (breezeCacheConfigSchema_safeParse (registry (world st))) as [d|]; [|reflexivity].
  destruct (truthy (redisUrl d)); [discriminate|reflexivity].
Qed.

Lemma initializeCache_shared st data c :
  valid_config (world st) = Some data ->
  shared_for (redisUrl data) (module_ st) = Some c ->
  initializeCache st = (Normal tt, st).
Proof.
  unfold valid_config, initializeCache. rewrite bind_eq. cbn [read fst snd].
  destruct (breezeCacheConfigSchema_safeParse (registry (world st))) as [d|]; [|discriminate].
  destruct (truthy (redisUrl d)); [|discriminate]. intros [= ->] Hs. cbn [negb].
  rewrite bind_eq. cbn [read fst snd]. now rewrite Hs.
Qed.

Lemma initializeCache_fresh st data :
  valid_config (world st) = Some data ->
  shared_for (redisUrl data) (module_ st) = None ->
  initializeCache st =
  (Normal tt,
   {| module_ := {| _cacheInitialized := true;
                    _sharedRedisClient := Some (nextClient (world st));
                    _sharedRedisUrl := Some (redisUrl data) |};
      world := with_nextClient (S (nextClient (world st))) (world st);
      res := res st; vars := vars st; objects := objects st;
      trace := trace st ++ replacement (module_ st) (redisUrl data) (nextClient (world st)) |}).
Proof.
  unfold valid_config, initializeCache. rewrite bind_eq. cbn [read fst snd].
  destruct (breezeCacheConfigSchema_safeParse (registry (world st))) as [d|]; [|discriminate].
  destruct (truthy (redisUrl d)); [|discriminate]. intros [= ->] Hs. cbn [negb].
  rewrite bind_eq. cbn [read fst snd]. rewrite Hs.
  destruct st as [[ci sc su] [rg s fs nc] r v o t]. unfold replacement. run_entry.
  destruct sc as [old|]; run_entry.
  - destruct su as [u0|]; run_entry.
    + destruct (truthy u0); run_entry; [destruct (bool_decide (u0 = redisUrl data)); run_entry|];
        rewrite <- ?app_assoc; reflexivity.
    + reflexivity.
  - reflexivity.
Qed.


(** X20: Calling [initializeCache] again changes nothing: the second call ends
    as the first one did, throwing or not, and leaves the state that the
    first one left. *)
Theorem initializeCache_is_idempotent st :
  initializeCache (snd (initializeCache st)) = initializeCache st.
Proof.
  destruct (valid_config (world st)) as [data|] eqn:Hv.
  - destruct (shared_for (redisUrl data) (module_ st)) as [c|] eqn:Hs.
    + rewrite (initializeCache_shared st data c Hv Hs). cbn [snd].
      exact (initializeCache_shared st data c Hv Hs).
    + rewrite (initializeCache_fresh st data Hv Hs). cbn [snd].
      erewrite initializeCache_shared; [reflexivity| |apply shared_for_self].
      exact Hv.
  - rewrite (initializeCache_invalid st Hv). cbn [snd].
    exact (initializeCache_invalid st Hv).
Qed.

Lemma initializeCache_world st :
  let st0 := snd (initializeCache st) in
  registry (world st0) = registry (world st) /\ store (world st0) = store (world st) /\
  faults (world st0) = faults (world st).
Proof.
  cbn zeta. destruct (valid_config (world st)) as [data|] eqn:Hv.
  - destruct (shared_for (redisUrl data) (module_ st)) as [c|] eqn:Hs.
    + now rewrite (initializeCache_shared st data c Hv Hs).
    + now rewrite (initializeCache_fresh st data Hv Hs).
  - now rewrite (initializeCache_invalid st Hv).
Qed.

Lemma initializeCache_valid st data :
  valid_config (world st) = Some data ->
  fst (initializeCache st) = Normal tt /\
  exists c, shared_for (redisUrl data) (module_ (snd (initializeCache st))) = Some c.
Proof.
  intros Hv. destruct (shared_for (redisUrl data) (module_ st)) as [c|] eqn:Hs.
  - rewrite (initializeCache_shared st data c Hv Hs). split; [reflexivity|]. now exists c.
  - rewrite (initializeCache_fresh st data Hv Hs). split; [reflexivity|].
    eexists. apply shared_for_self.
Qed.

Lemma caching_config_valid w req data :
  caching_config w req = Some data -> valid_config w = Some data.
Proof.
  unfold caching_config, valid_config.
  destruct (breezeCacheConfigSchema_safeParse (registry w)) as [d|]; [|discriminate].
  destruct (truthy (redisUrl d)); cbn [andb]; [|discriminate].
  destruct (enabled d); cbn [andb]; [|discriminate].
  destruct (negb (excluded d req)); [|discriminate]. now intros [= ->].
Qed.


(** X22: [initializeCache] throws exactly when the registry holds no valid
    configuration, and then it has changed nothing. *)
Theorem initializeCache_rejects_invalid_config st :
  (valid_config (world st) = None <-> fst (initializeCache st) = Throw None) /\
  (valid_config (world st) = None -> snd (initializeCache st) = st).
Proof.
  split; [split|].
  - intros Hv. now rewrite (initializeCache_invalid st Hv).
  - destruct (valid_config (world st)) as [data|] eqn:Hv; [|reflexivity].
    destruct (initializeCache_valid st data Hv) as [-> _]. discriminate.
  - intros Hv. now rewrite (initializeCache_invalid st Hv).
Qed.

(** X23: When the configured URL differs from the one of the shared connection,
    [initializeCache] closes that connection, once, before it opens the new
    one, which becomes the shared connection for the new URL. *)
Theorem initializeCache_replaces_connection st data old u0 :
  valid_config (world st) = Some data ->
  _sharedRedisClient (module_ st) = Some old ->
  _sharedRedisUrl (module_ st) = Some u0 ->
  truthy u0 = true -> u0 <> redisUrl data ->
  let st0 := snd (initializeCache st) in
  trace st0 = trace st ++ [EvClose old; EvNew (nextClient (world st)) (redisUrl data)] /\
  shared_for (redisUrl data) (module_ st0) = Some (nextClient (world st)) /\
  shared_for u0 (module_ st0) = None /\
  fst (isCacheInitialized st0) = true.
Proof.
  intros Hv Hc Hu Ht Hne. cbn zeta.
  assert (Hs : shared_for (redisUrl data) (module_ st) = None).
  { unfold shared_for. rewrite Hc, Hu.
    destruct (decide (Some u0 = Some (redisUrl data))) as [E|E]; [congruence|reflexivity]. }
  rewrite (initializeCache_fresh st data Hv Hs). cbn [snd trace module_].
  unfold replacement. rewrite Hc, Hu, Ht.
  rewrite (bool_decide_eq_false_2 _ Hne). cbn [andb negb].
  split; [reflexivity|]. split; [apply shared_for_self|]. split; [|reflexivity].
  unfold shared_for. cbn.
  destruct (decide (Some (redisUrl data) = Some u0)) as [E|E]; [congruence|reflexivity].
Qed.


(** *** [setCache] *)

Lemma setCache_invalid req conf body st :
  valid_config (world st) = None -> setCache req conf body st = (Normal tt, st).
Proof.
  unfold valid_config, setCache. rewrite bind_eq. cbn [read fst snd].
  destruct (breezeCacheConfigSchema_safeParse (registry (world st))) as [d|]; [|reflexivity].
  destruct (truthy (redisUrl d)); [discriminate|reflexivity].
Qed.

Lemma setCache_valid req conf body st data :
  valid_config (world st) = Some data ->
  let run := setCache req conf body st in
  let c := setCache_client (redisUrl data) st in
  let value := JSON_stringify body in
  module_ (snd run) = module_ st /\ registry (world (snd run)) = registry (world st) /\
  match first_fault (faults (world st)), first_fault (tl (faults (world st))) with
  | Fails code, _ =>
      fst run = Throw code /\ store (world (snd run)) = store (world st) /\
      headers (res (snd run)) = headers (res st) /\
      trace (snd run) = trace st ++ setCache_opening (redisUrl data) st
                          ++ [EvSet c (url req) value]
  | NoFault, Fails code =>
      fst run = Throw code /\
      store (world (snd run)) = <[url req := value]> (store (world st)) /\
      headers (res (snd run)) = headers (res st) /\
      trace (snd run) = trace st ++ setCache_opening (redisUrl data) st
                          ++ [EvSet c (url req) value;
                              EvExpire c (url req) (durationSeconds conf)]
  | NoFault, NoFault =>
      fst run = Normal tt /\
      store (world (snd run)) = <[url req := value]> (store (world st)) /\
      headers (res (snd run)) = <[X_BREEZEAPI_CACHE := MISS]> (headers (res st)) /\
      trace (snd run) = trace st ++ setCache_opening (redisUrl data) st
                          ++ [EvSet c (url req) value;
                              EvExpire c (url req) (durationSeconds conf);
                              EvHeader X_BREEZEAPI_CACHE MISS]
  end.
Proof.
  unfold valid_config, setCache, setCache_client, setCache_opening.
  rewrite bind_eq. cbn [read fst snd].
  destruct (breezeCacheConfigSchema_safeParse (registry (world st))) as [d|]; [|discriminate].
  destruct (truthy (redisUrl d)); [|discriminate]. intros [= ->]. cbn [negb].
  rewrite bind_eq. cbn [read fst snd].
  destruct (shared_for (redisUrl data) (module_ st)) as [c|];
    destruct st as [[ci sc su] [rg s fs nc] [jp hd] v o t]; run_entry;
    destruct fs as [|[|code] [|[|code2] rest]]; cbn [first_fault tl]; run_entry;
    repeat (split; [reflexivity|]); rewrite <- ?app_assoc; reflexivity.
Qed.


(** X25: What [setCache] never does: it closes no connection, not even the one
    it opens for itself, it leaves the variables of the module alone, and it
    changes the store in the key of the request URL at most. *)
Theorem setCache_frame req conf body st :
  let run := setCache req conf body st in
  module_ (snd run) = module_ st /\
  (exists evs, trace (snd run) = trace st ++ evs /\
               count is_close evs = 0%nat /\ (count is_new evs <= 1)%nat) /\
  (forall k, k <> url req -> store (world (snd run)) !! k = store (world st) !! k).
Proof.
  cbn zeta. destruct (valid_config (world st)) as [data|] eqn:Hv.
  - pose proof (setCache_valid req conf body st data Hv) as Hs. cbn zeta in Hs.
    destruct Hs as (S1 & _ & Hs). split; [exact S1|].
    assert (Hopen : count is_close (setCache_opening (redisUrl data) st) = 0%nat /\
                    (count is_new (setCache_opening (redisUrl data) st) <= 1)%nat).
    { unfold setCache_opening. destruct (shared_for _ _); cbn; lia. }
    destruct Hopen as [Ho1 Ho2].
    destruct (first_fault (faults (world st))) as [|code];
      [destruct (first_fault (tl (faults (world st)))) as [|code]|];
      destruct Hs as (_ & Hst & _ & Htr); (split; [eexists; split; [exact Htr|]|]).
    all: try (rewrite !count_app, Ho1; cbn; lia).
    all: intros k Hk; rewrite Hst; try reflexivity; now rewrite lookup_insert_ne.
  - rewrite (setCache_invalid req conf body st Hv). cbn [snd].
    split; [reflexivity|]. split; [|reflexivity].
    exists []. rewrite app_nil_r. cbn. repeat split; lia.
Qed.

(** X26: The failures of [setCache]: without a valid configuration it does
    nothing and still resolves; when the store fails on the [set] or on the
    [expire], the error reaches the caller and the header is not set; after
    a failed [set] nothing is stored, after a failed [expire] the entry
    stays. *)
Theorem setCache_passes_store_errors_on req conf body st :
  (valid_config (world st) = None -> setCache req conf body st = (Normal tt, st)) /\
  (forall data code,
     valid_config (world st) = Some data ->
     first_fault (faults (world st)) = Fails code ->
     let run := setCache req conf body st in
     fst run = Throw code /\ store (world (snd run)) = store (world st) /\
     headers (res (snd run)) = headers (res st) /\
     count is_expire (trace (snd run)) = count is_expire (trace st)) /\
  (forall data code,
     valid_config (world st) = Some data ->
     first_fault (faults (world st)) = NoFault ->
     first_fault (tl (faults (world st))) = Fails code ->
     let run := setCache req conf body st in
     fst run = Throw code /\
     store (world (snd run)) = <[url req := JSON_stringify body]> (store (world st)) /\
     headers (res (snd run)) = headers (res st)).
Proof.
  split; [exact (setCache_invalid req conf body st)|]. split.
  - intros data code Hv Hf. cbn zeta.
    pose proof (setCache_valid req conf body st data Hv) as Hs. cbn zeta in Hs.
    rewrite Hf in Hs. destruct Hs as (_ & _ & S1 & S2 & S3 & S4).
    repeat (split; [assumption|]). rewrite S4, !count_app.
    unfold setCache_opening. destruct (shared_for _ _); cbn; lia.
  - intros data code Hv Hf1 Hf2. cbn zeta.
    pose proof (setCache_valid req conf body st data Hv) as Hs. cbn zeta in Hs.
    rewrite Hf1, Hf2 in Hs. destruct Hs as (_ & _ & S1 & S2 & S3 & _). auto.
Qed.

End EntryPointProperties.

(** * Properties of the first version *)

Section FirstVersionProperties.
Context `{JsonLib}.

Ltac run_first :=
  cbv beta iota zeta delta
    [wrapped_json res_json_v1 originalJson call_next_v1
     client_get client_set client_expire client_close
     new_RedisClient res_header next_fault when arrival bind read write emit ret
     on_module on_world on_res on_vars on_objects on_trace
     with_store with_faults with_nextClient
     with_jsonPatched with_headers with_client
     module_ world res vars objects trace
     registry store faults nextClient jsonPatched headers
     client
     negb andb fst snd].

Lemma run_v1_CallJson conf key body k st :
  run_handler_v1 conf key (CallJson body k) st =
  run_handler_v1 conf key (k (fst (res_json_v1 conf key body st)))
    (snd (res_json_v1 conf key body st)).
Proof. cbn [run_handler_v1]. now rewrite bind_eq. Qed.

Lemma res_json_v1_unpatched conf key body st :
  jsonPatched (res st) = false ->
  let st' := snd (res_json_v1 conf key body st) in
  world st' = world st /\ res st' = res st /\ vars st' = vars st /\
  trace st' = trace st ++ [EvJson (Some body)].
Proof.
  intros Hp. unfold res_json_v1. rewrite bind_eq. cbn [read fst snd]. rewrite Hp.
  repeat split; reflexivity.
Qed.

Lemma res_json_v1_patched conf key body st :
  jsonPatched (res st) = true ->
  let st' := snd (res_json_v1 conf key body st) in
  jsonPatched (res st') = true /\ nextClient (world st') = nextClient (world st) /\
  exists evs, trace st' = trace st ++ evs /\
    count is_set evs = 1%nat /\ count is_expire evs = 1%nat /\ count is_json evs = 1%nat /\
    count is_close evs = 0%nat /\ count is_new evs = 0%nat /\ count is_next evs = 0%nat /\
    Forall (write_event conf key) evs.
Proof.
  intros Hp. unfold res_json_v1. rewrite bind_eq. cbn [read fst snd]. rewrite Hp.
  destruct st as [m [rg s fs nc] [jp hd] v o t]. cbn in Hp. subst jp. run_first.
  destruct fs as [|[|code] [|[|code2] rest]]; run_first.
  all: (split; [reflexivity|]); (split; [reflexivity|]).
  all: eexists; (split; [rewrite <- ?app_assoc; cbn [app]; reflexivity|]).
  all: repeat (split; [reflexivity|]).
  all: repeat constructor; eauto.
Qed.

Lemma run_v1_patched conf key h st :
  jsonPatched (res st) = true ->
  let st' := snd (run_handler_v1 conf key h st) in
  nextClient (world st') = nextClient (world st) /\
  exists evs, trace st' = trace st ++ evs /\
    count is_set evs = count is_json evs /\ count is_expire evs = count is_json evs /\
    count is_close evs = 0%nat /\ count is_new evs = 0%nat /\ count is_next evs = 0%nat /\
    Forall (write_event conf key) evs.
Proof.
  revert st. induction h as [r|body k IH|i k IH]; intros st Hp; cbn zeta.
  - cbn. split; [reflexivity|]. exists []. rewrite app_nil_r. repeat split; constructor.
  - rewrite run_v1_CallJson.
    pose proof (res_json_v1_patched conf key body st Hp) as Hj. cbn zeta in Hj.
    destruct Hj as (J1 & J2 & evs1 & J3 & J4 & J5 & J6 & J7 & J8 & J9 & J10).
    specialize (IH (fst (res_json_v1 conf key body st)) (snd (res_json_v1 conf key body st)) J1).
    cbn zeta in IH. destruct IH as (I1 & evs & I2 & I3 & I4 & I5 & I6 & I7 & I8).
    split; [congruence|]. exists (evs1 ++ evs). rewrite I2, J3, <- app_assoc.
    split; [reflexivity|]. rewrite !count_app.
    repeat split; try lia. apply Forall_app. now split.
  - cbn. split; [reflexivity|]. exists []. rewrite app_nil_r. repeat split; constructor.
Qed.

Lemma run_v1_unpatched conf key h st :
  jsonPatched (res st) = false ->
  let st' := snd (run_handler_v1 conf key h st) in
  world st' = world st /\ res st' = res st /\
  exists evs, trace st' = trace st ++ evs /\ Forall (fun e => is_json e = true) evs.
Proof.
  revert st. induction h as [r|body k IH|i k IH]; intros st Hp; cbn zeta.
  - cbn. repeat split. exists []. now rewrite app_nil_r.
  - rewrite run_v1_CallJson.
    pose proof (res_json_v1_unpatched conf key body st Hp) as Hj. cbn zeta in Hj.
    destruct Hj as (J1 & J2 & _ & J3).
    specialize (IH (fst (res_json_v1 conf key body st)) (snd (res_json_v1 conf key body st))).
    cbn zeta in IH. rewrite J1, J2, J3 in IH.
    destruct IH as (I1 & I2 & evs & I3 & I4); [exact Hp|].
    split; [exact I1|]. split; [exact I2|].
    exists (EvJson (Some body) :: evs). rewrite I3, <- app_assoc. split; [reflexivity|].
    now constructor.
  - cbn. repeat split. exists []. now rewrite app_nil_r.
Qed.


Lemma cacheMiddleware_v1_active conf req next data st :
  caching_config_v1 (world st) req = Some data ->
  cacheMiddleware_v1 conf req next st =
  (let* c := new_RedisClient (redisUrl data) in
   write (on_vars (with_client c)) ;;
   let* got := client_get c (url req) in
   match got with
   | Throw code => ret (Throw code)
   | Normal text =>
       let* served :=
         match text with
         | Some t =>
             if truthy t then
               res_header X_BREEZEAPI_CACHE HIT ;;
               match JSON_parse t with
               | Some v =>
                   let* r := res_json_v1 conf (url req) v in
                   ret (Some r)
               | None => ret None
               end
             else ret None
         | None => ret None
         end in
       match served with
       | Some r => ret (Normal (Returned (Some r)))
       | None =>
           write (on_res (with_jsonPatched true)) ;;
           emit EvPatch ;;
           call_next_v1 conf (url req) next
       end
   end) st.
Proof.
  unfold caching_config_v1, cacheMiddleware_v1, excluded. rewrite bind_eq. cbn [read fst snd].
  destruct (breezeCacheConfigSchema_v1_safeParse (registry (world st))) as [d|]; [|discriminate].
  destruct (truthy (redisUrl d)); [|discriminate].
  destruct (enabled d); [|discriminate]. cbn [negb andb].
  destruct (match excludedPaths d with Some _ => _ | None => _ end); [discriminate|].
  now intros [= ->].
Qed.

Lemma cacheMiddleware_v1_bypass conf req next st :
  caching_config_v1 (world st) req = None ->
  cacheMiddleware_v1 conf req next st = call_next_v1 conf (url req) next st.
Proof.
  unfold caching_config_v1, cacheMiddleware_v1, excluded. rewrite bind_eq. cbn [read fst snd].
  destruct (breezeCacheConfigSchema_v1_safeParse (registry (world st))) as [d|]; [|reflexivity].
  destruct (truthy (redisUrl d)); [|reflexivity].
  destruct (enabled d); [|reflexivity]. cbn [negb andb].
  destruct (match excludedPaths d with Some _ => _ | None => _ end); [|discriminate].
  reflexivity.
Qed.

Lemma call_next_v1_eq conf key next st :
  call_next_v1 conf key next st =
  (Normal (fst (run_handler_v1 conf key next (entered st))),
   snd (run_handler_v1 conf key next (entered st))).
Proof.
  unfold call_next_v1. rewrite bind_eq. cbn [emit write fst snd].
  rewrite bind_eq. reflexivity.
Qed.

(** X27: In the first version a stored value ends the request: it is sent
    through the framework's own [res.json] with the header [HIT], and the
    downstream handler is not invoked; nothing is written. *)
Theorem first_version_hit_skips_handler conf req next m w h data value :
  caching_config_v1 w req = Some data ->
  first_fault (faults w) = NoFault ->
  stored_value w (url req) = Some value ->
  let run := cacheMiddleware_v1 conf req next (arrival m w h) in
  fst run = Normal (Returned (Some {| sent := Some value; cache_method := NoCacheMethod |})) /\
  trace (snd run) = [EvNew (nextClient w) (redisUrl data); EvGet (nextClient w) (url req);
                     EvHeader X_BREEZEAPI_CACHE HIT; EvJson (Some value)] /\
  headers (res (snd run)) = <[X_BREEZEAPI_CACHE := HIT]> h /\
  store (world (snd run)) = store w /\
  jsonPatched (res (snd run)) = false.
Proof.
  intros Hcfg Hff Hv. cbn zeta.
  rewrite (cacheMiddleware_v1_active conf req next data (arrival m w h) Hcfg).
  unfold stored_value in Hv. destruct w as [rg s fs nc]. cbn [store faults] in *.
  run_first. destruct fs as [|[|code] rest]; try discriminate; run_first.
  all: destruct (s !! url req) as [text|]; [|discriminate]; run_first.
  all: destruct (truthy text); [|discriminate]; run_first.
  all: rewrite Hv; run_first; repeat split; reflexivity.
Qed.

(** X28: In the first version the lookup stands outside of any [try]: when the
    store fails on it, the middleware itself fails with that error, the
    handler is not reached and [res.json] is not wrapped. *)
Theorem first_version_lookup_failure_surfaces conf req next m w h data code :
  caching_config_v1 w req = Some data ->
  first_fault (faults w) = Fails code ->
  let run := cacheMiddleware_v1 conf req next (arrival m w h) in
  fst run = Throw code /\
  trace (snd run) = [EvNew (nextClient w) (redisUrl data); EvGet (nextClient w) (url req)] /\
  jsonPatched (res (snd run)) = false.
Proof.
  intros Hcfg Hff. cbn zeta.
  rewrite (cacheMiddleware_v1_active conf req next data (arrival m w h) Hcfg).
  destruct w as [rg s fs nc]. cbn [faults] in *.
  run_first. destruct fs as [|[|code'] rest]; try discriminate; run_first.
  injection Hff as ->. repeat split; reflexivity.
Qed.

Lemma v1_miss conf req next m w h data :
  caching_config_v1 w req = Some data ->
  first_fault (faults w) = NoFault ->
  stored_value w (url req) = None ->
  exists st2,
    cacheMiddleware_v1 conf req next (arrival m w h) =
    (Normal (fst (run_handler_v1 conf (url req) next st2)),
     snd (run_handler_v1 conf (url req) next st2)) /\
    jsonPatched (res st2) = true /\ nextClient (world st2) = S (nextClient w) /\
    count is_set (trace st2) = 0%nat /\ count is_expire (trace st2) = 0%nat /\
    count is_json (trace st2) = 0%nat /\ count is_close (trace st2) = 0%nat /\
    count is_new (trace st2) = 1%nat /\ count is_next (trace st2) = 1%nat /\
    Forall (write_event conf (url req)) (trace st2).
Proof.
  intros Hcfg Hff Hv.
  rewrite (cacheMiddleware_v1_active conf req next data (arrival m w h) Hcfg).
  unfold stored_value in Hv. destruct w as [rg s fs nc]. cbn [store faults nextClient] in *.
  run_first. destruct fs as [|[|code] rest]; try discriminate; run_first.
  all: destruct (s !! url req) as [text|]; run_first;
    [destruct (truthy text); run_first; [rewrite Hv; run_first|]|].
  all: match goal with
       | |- context [run_handler_v1 _ _ _ ?ST] => exists ST
       end.
  all: (split; [now destruct (run_handler_v1 _ _ _ _)|]).
  all: repeat (split; [reflexivity|]); repeat constructor.
Qed.

(** X29: In the first version every call of [res.json] on a request that found
    nothing writes to the store: there are as many [set]s and [expire]s
    as responses sent, each under the request URL with the time to live of the
    per-route configuration. *)
Theorem first_version_writes_on_every_json conf req next m w h data :
  caching_config_v1 w req = Some data ->
  first_fault (faults w) = NoFault ->
  stored_value w (url req) = None ->
  let t := trace (snd (cacheMiddleware_v1 conf req next (arrival m w h))) in
  count is_set t = count is_json t /\ count is_expire t = count is_json t /\
  count is_next t = 1%nat /\ Forall (write_event conf (url req)) t.
Proof.
  intros Hcfg Hff Hv. cbn zeta.
  destruct (v1_miss conf req next m w h data Hcfg Hff Hv)
    as (st2 & -> & Hp & _ & M1 & M2 & M3 & _ & _ & M6 & M7).
  cbn [snd].
  pose proof (run_v1_patched conf (url req) next st2 Hp) as Hr. cbn zeta in Hr.
  destruct Hr as (_ & evs & -> & R1 & R2 & _ & _ & R5 & R6).
  rewrite !count_app, M1, M2, M3, M6, R5.
  repeat split; try lia. apply Forall_app. now split.
Qed.

Lemma first_version_hit_state conf req next m w h data value :
  caching_config_v1 w req = Some data ->
  first_fault (faults w) = NoFault ->
  stored_value w (url req) = Some value ->
  let run := cacheMiddleware_v1 conf req next (arrival m w h) in
  trace (snd run) = [EvNew (nextClient w) (redisUrl data); EvGet (nextClient w) (url req);
                     EvHeader X_BREEZEAPI_CACHE HIT; EvJson (Some value)] /\
  nextClient (world (snd run)) = S (nextClient w).
Proof.
  intros Hcfg Hff Hv. cbn zeta.
  rewrite (cacheMiddleware_v1_active conf req next data (arrival m w h) Hcfg).
  unfold stored_value in Hv. destruct w as [rg s fs nc]. cbn [store faults] in *.
  run_first. destruct fs as [|[|code] rest]; try discriminate; run_first.
  all: destruct (s !! url req) as [text|]; [|discriminate]; run_first.
  all: destruct (truthy text); [|discriminate]; run_first.
  all: rewrite Hv; run_first; repeat split; reflexivity.
Qed.

Lemma first_version_fail_state conf req next m w h data code :
  caching_config_v1 w req = Some data ->
  first_fault (faults w) = Fails code ->
  let run := cacheMiddleware_v1 conf req next (arrival m w h) in
  trace (snd run) = [EvNew (nextClient w) (redisUrl data); EvGet (nextClient w) (url req)] /\
  nextClient (world (snd run)) = S (nextClient w).
Proof.
  intros Hcfg Hff. cbn zeta.
  rewrite (cacheMiddleware_v1_active conf req next data (arrival m w h) Hcfg).
  destruct w as [rg s fs nc]. cbn [faults] in *.
  run_first. destruct fs as [|[|code'] rest]; try discriminate; run_first.
  repeat split; reflexivity.
Qed.


(** X30: The first version opens a connection for every request that goes to
    the store and never closes one. *)
Theorem first_version_never_closes conf req next m w h :
  let run := cacheMiddleware_v1 conf req next (arrival m w h) in
  count is_close (trace (snd run)) = 0%nat /\
  (forall data, caching_config_v1 w req = Some data ->
     count is_new (trace (snd run)) = 1%nat /\
     nextClient (world (snd run)) = S (nextClient w)).
Proof.
  cbn zeta. destruct (caching_config_v1 w req) as [data|] eqn:Hcfg.
  - assert (Hgoal : count is_close (trace (snd (cacheMiddleware_v1 conf req next (arrival m w h)))) = 0%nat /\
       count is_new (trace (snd (cacheMiddleware_v1 conf req next (arrival m w h)))) = 1%nat /\
       nextClient (world (snd (cacheMiddleware_v1 conf req next (arrival m w h)))) = S (nextClient w)).
    { destruct (first_fault (faults w)) as [|code] eqn:Hff.
      - destruct (stored_value w (url req)) as [value|] eqn:Hv.
        + destruct (first_version_hit_state conf req next m w h data value Hcfg Hff Hv)
            as (H1 & H2).
          rewrite H1. repeat split; try reflexivity. exact H2.
        + destruct (v1_miss conf req next m w h data Hcfg Hff Hv)
            as (st2 & -> & Hp & Hn & _ & _ & _ & M4 & M5 & _).
          cbn [snd].
          pose proof (run_v1_patched conf (url req) next st2 Hp) as Hr. cbn zeta in Hr.
          destruct Hr as (Hn' & evs & -> & _ & _ & R3 & R4 & _).
          rewrite !count_app, M4, M5, R3, R4. repeat split; lia.
      - destruct (first_version_fail_state conf req next m w h data code Hcfg Hff)
          as (H1 & H2).
        rewrite H1. repeat split; try reflexivity. exact H2. }
    destruct Hgoal as (G1 & G2 & G3). split; [exact G1|].
    intros d [= <-]. now split.
  - split; [|discriminate].
    rewrite (cacheMiddleware_v1_bypass conf req next (arrival m w h) Hcfg), call_next_v1_eq.
    cbn [snd].
    pose proof (run_v1_unpatched conf (url req) next (entered (arrival m w h)) eq_refl) as Hr.
    cbn zeta in Hr. destruct Hr as (_ & _ & evs & -> & Hev).
    rewrite count_app. cbn. apply count_zero.
    eapply Forall_impl; [exact Hev|]. intros e He. now destruct e.
Qed.

End FirstVersionProperties.

(** * The properties on concrete requests *)

#[local] Existing Instance text_json.

Lemma polite_json_then_cache body : @polite text_json 0 (json_then_cache body).
Proof. repeat constructor. Qed.



(** C2, the failing input: with [cacheKey: custom] in the per-route
    configuration the lookup and the write both use the request URL, and
    nothing is stored under [custom]. *)
Theorem custom_cacheKey_is_ignored :
  let run := sample_run custom_key (sample_world [] []) in
  fst run = Returned (Some {| sent := Some (units "fresh");
                              cache_method := CacheCommit (units "fresh") |}) /\
  trace (snd run) =
    [EvNew 5%nat (units "redis://cache"); EvPatch; EvGet 5%nat (units "/a"); EvNext;
     EvJson (Some (units "fresh")); EvSet 5%nat (units "/a") (units "fresh");
     EvExpire 5%nat (units "/a") (Fin 3600); EvClose 5%nat;
     EvHeader X_BREEZEAPI_CACHE MISS] /\
  store (world (snd run)) !! units "/a" = Some (units "fresh") /\
  store (world (snd run)) !! units "custom" = None.
Proof. vm_compute. repeat split. Qed.

(** C3, for a lookup that finds the connection closed twice. *)
Lemma patch_precedes_store_witness :
  let run := sample_run one_hour (sample_world [] closed_twice) in
  count is_next (trace (snd run)) = 1%nat /\
  jsonPatched (res (snd run)) = true /\
  Forall commit_object (objects (snd run)) /\
  (polite 0 (json_then_cache (units "fresh")) -> exists r, fst run = Returned r).
Proof.
  apply (proj2 (@patch_precedes_store text_json one_hour sample_request
                  (json_then_cache (units "fresh")) no_shared
                  (sample_world [] closed_twice) ∅) sample_data);
    vm_compute; reflexivity.
Defined.

(** C4, for a lookup that finds the connection closed twice. *)
Lemma reconnects_at_most_once_witness :
  let run := sample_run one_hour (sample_world [] closed_twice) in
  count is_next (trace (snd run)) = 1%nat /\
  count is_get (trace (snd run)) = 2%nat /\
  reconnects (trace (snd run)) = 1%nat /\
  Forall commit_object (objects (snd run)).
Proof.
  pose proof (@reconnects_at_most_once text_json one_hour sample_request
                (json_then_cache (units "fresh")) no_shared
                (sample_world [] closed_twice) ∅ sample_data eq_refl) as W.
  cbn zeta in W. destruct W as (W1 & _ & W2 & W3 & W4).
  exact (conj W1 (conj W2 (conj W3 W4))).
Defined.

(** C5, for three commits on a miss. *)
Lemma commit_writes_once_witness :
  let run := @cacheMiddleware text_json one_hour sample_request
               (@CallJson text_json (units "fresh") (@commit_times text_json 3))
               (@arrival text_json no_shared (sample_world [] []) ∅) in
  fst run = Returned (Some {| sent := Some (units "fresh");
                              cache_method := CacheCommit (units "fresh") |}) /\
  count is_set (trace (snd run)) = 1%nat.
Proof.
  apply (proj2 (proj2 (proj2 (@commit_writes_once text_json))) one_hour sample_request
           no_shared (sample_world [] []) ∅ sample_data (units "fresh") 3%nat);
    [vm_compute; reflexivity | vm_compute; reflexivity | lia].
Defined.

(** C6, for the second connection of a request that had to reconnect. *)
Lemma closes_only_own_connections_witness :
  let run := sample_run one_hour (sample_world [] closed_twice) in
  In (EvClose 6%nat) (trace (snd run)) /\
  (5 <= 6 < nextClient (world (snd run)))%nat /\
  _sharedRedisClient no_shared <> Some 6%nat /\
  _sharedRedisClient (module_ (snd run)) <> Some 6%nat.
Proof.
  assert (Hin : In (@EvClose text_json 6%nat)
                   (trace (snd (sample_run one_hour (sample_world [] closed_twice))))).
  { vm_compute. do 6 right. left. reflexivity. }
  split; [exact Hin|].
  apply (@closes_only_own_connections text_json one_hour sample_request
           (json_then_cache (units "fresh")) no_shared
           (sample_world [] closed_twice) ∅ 6%nat);
    [intros s Hs; discriminate Hs | exact Hin].
Defined.

(** C8 as stated fails: a per-route configuration without [duration] is served,
    and its entry expires after 60 seconds. *)
Lemma missing_duration_is_accepted :
  let run := sample_run no_duration (sample_world [] []) in
  conf_duration no_duration = None /\
  fst run = Returned (Some {| sent := Some (units "fresh");
                              cache_method := CacheCommit (units "fresh") |}) /\
  In (EvExpire 5%nat (units "/a") (Fin 60)) (trace (snd run)).
Proof.
  vm_compute. split; [reflexivity|]. split; [reflexivity|].
  do 6 right. left. reflexivity.
Qed.

(** C8 (as amended), for the configuration without [duration]. *)
Lemma duration_default_sixty_witness :
  cacheConfigSchema_safeParse no_duration = None /\
  durationSeconds no_duration = Fin 60 /\
  In (EvExpire 5%nat (units "/a") (Fin 60))
     (trace (snd (@cache text_json no_duration (units "/a")
                    (@Build_Response text_json (Some (units "fresh"))
                       (@CacheCommit text_json (units "fresh")))
                    (units "fresh")
                    (on_vars (with_client 5%nat)
                       (@arrival text_json no_shared (sample_world [] []) ∅))))).
Proof.
  split; [apply (proj1 (@duration_default_sixty text_json)); reflexivity|].
  split; [apply (proj1 (proj2 (proj2 (@duration_default_sixty text_json)))); reflexivity|].
  apply (proj2 (proj2 (proj2 (@duration_default_sixty text_json))) no_duration (units "/a")
           (@Build_Response text_json (Some (units "fresh"))
              (@CacheCommit text_json (units "fresh")))
           (units "fresh")
           (on_vars (with_client 5%nat) (@arrival text_json no_shared (sample_world [] []) ∅)));
    reflexivity.
Defined.

(** C9 *)
Lemma well_formed_big : well_formed (units "10000000000000000s").
Proof.
  apply (wf_pair (units "10000000000000000") (units "s") []);
    [discriminate | reflexivity | reflexivity | constructor].
Qed.

Lemma well_formed_small : well_formed (units "1s1s").
Proof.
  apply (wf_pair (units "1") (units "s") (units "1s")); [discriminate|reflexivity|reflexivity|].
  apply (wf_pair (units "1") (units "s") []); [discriminate|reflexivity|reflexivity|constructor].
Qed.

(** C9 as stated fails: for the well-formed [10000000000000000s] and [1s1s] the
    parse of the concatenation is [10^19], the sum of the parses is
    [10^19 + 2048]. *)
Lemma concat_law_fails_beyond_exact_range :
  well_formed (units "10000000000000000s") /\ well_formed (units "1s1s") /\
  parseDuration (units "10000000000000000s" ++ units "1s1s")
  <> jsadd (parseDuration (units "10000000000000000s")) (parseDuration (units "1s1s")).
Proof.
  split; [exact well_formed_big|]. split; [exact well_formed_small|].
  vm_compute. discriminate.
Qed.

(** C9, at [1h] and [30m]. *)
Lemma parse_concat_exact_witness :
  parseDuration (units "1h" ++ units "30m")
  = jsadd (parseDuration (units "1h")) (parseDuration (units "30m")).
Proof.
  apply parse_concat_exact.
  - apply (wf_pair (units "1") (units "h") []);
      [discriminate | reflexivity | reflexivity | constructor].
  - apply (wf_pair (units "30") (units "m") []);
      [discriminate | reflexivity | reflexivity | constructor].
  - vm_compute. discriminate.
Defined.

(** * The further properties on concrete inputs *)

Lemma safe_integers_sample : safe_integers (units "1w 2D3hours").
Proof.
  unfold safe_integers.
  replace (tokens (units "1w 2D3hours")) with [(1, Week); (2, Day); (3, Hour)]
    by (vm_compute; reflexivity).
  repeat constructor; cbn [fst]; lia.
Qed.

(** X2, at [1w 2D3hours]. *)
Lemma parseDuration_survives_toString_witness :
  parseDurationToString (units "1w 2D3hours") = units "1 week 2 days 3 hours" /\
  tokens (parseDurationToString (units "1w 2D3hours")) = tokens (units "1w 2D3hours") /\
  parseDuration (parseDurationToString (units "1w 2D3hours"))
  = parseDuration (units "1w 2D3hours").
Proof.
  split; [vm_compute; reflexivity|].
  apply parseDuration_survives_toString. exact safe_integers_sample.
Defined.

(** X3, at [1w 2D3hours], printed as [1 week 2 days 3 hours]. *)
Lemma parseDurationToString_idempotent_witness :
  parseDurationToString (parseDurationToString (units "1w 2D3hours"))
  = parseDurationToString (units "1w 2D3hours").
Proof. apply parseDurationToString_idempotent. exact safe_integers_sample. Defined.

(** X4, at [1H30Min] and [1h30min]. *)
Lemma parsers_ignore_letter_case_witness :
  parseDuration (units "1H30Min") = parseDuration (units "1h30min") /\
  parseDurationToString (units "1H30Min") = parseDurationToString (units "1h30min").
Proof. apply parsers_ignore_letter_case. vm_compute. reflexivity. Defined.

(** X5, at [5  min, then] and [5min, then]. *)
Lemma space_before_unit_is_skipped_witness :
  parseDuration (units "5" ++ units "  " ++ units "min" ++ units ", then")
  = parseDuration (units "5" ++ units "min" ++ units ", then") /\
  parseDurationToString (units "5" ++ units "  " ++ units "min" ++ units ", then")
  = parseDurationToString (units "5" ++ units "min" ++ units ", then").
Proof.
  apply space_before_unit_is_skipped;
    [discriminate | reflexivity | reflexivity | reflexivity | reflexivity].
Defined.

(** X6, at the duration [60]. *)
Lemma duration_without_unit_is_zero_witness :
  parseDuration (units "60") = Fin 0 /\ parseDurationToString (units "60") = [] /\
  durationSeconds bare_sixty = Fin 0.
Proof.
  destruct (duration_without_unit_is_zero (units "60") eq_refl) as (W1 & W2 & W3).
  split; [exact W1|]. split; [exact W2|]. apply W3. reflexivity.
Defined.

(** X7, at the duration [1h]: 3600 seconds. *)
Lemma ttl_is_total_in_seconds_witness :
  durationSeconds one_hour = Fin (total (tokens (units "1h")) / 1000) /\
  1000 * (total (tokens (units "1h")) / 1000) = total (tokens (units "1h")).
Proof.
  apply ttl_is_total_in_seconds; [reflexivity | vm_compute; discriminate].
Defined.

(** X8, at [1.5h], which counts as [5h]. *)
Lemma integer_before_stray_character_is_dropped_witness :
  parseDuration (units "1" ++ 46%N :: units "5h") = parseDuration (units "5h") /\
  parseDurationToString (units "1" ++ 46%N :: units "5h") = parseDurationToString (units "5h").
Proof.
  apply integer_before_stray_character_is_dropped; reflexivity.
Defined.

(** X9, for a request under an excluded path. *)
Lemma bypass_leaves_json_untouched_witness :
  caching_config (sample_world [] []) excluded_request = None /\
  fst (cacheMiddleware one_hour excluded_request
         (@CallJson text_json (units "fresh")
            (fun _ => @CallCache text_json 0 (@commit_times text_json 0)))
         (arrival no_shared (sample_world [] []) ∅)) = Threw.
Proof.
  split; [vm_compute; reflexivity|].
  apply (proj2 (@bypass_leaves_json_untouched text_json one_hour excluded_request no_shared
                  (sample_world [] []) ∅ ltac:(vm_compute; reflexivity))).
Defined.

(** X12, for a request whose URL holds the text [corrupt]. *)
Lemma corrupt_entry_sends_undefined_witness :
  let run := sample_run one_hour (sample_world [(units "/a", units "corrupt")] []) in
  Forall (fun r => r = {| sent := None; cache_method := CacheNoop |}) (objects (snd run)) /\
  count is_next (trace (snd run)) = 1%nat /\
  count is_set (trace (snd run)) = 0%nat /\
  store (world (snd run)) = store (sample_world [(units "/a", units "corrupt")] []) /\
  headers (res (snd run)) = ∅.
Proof.
  apply (@corrupt_entry_sends_undefined text_json one_hour sample_request
           (json_then_cache (units "fresh")) no_shared
           (sample_world [(units "/a", units "corrupt")] []) ∅ sample_data
           (units "corrupt")); vm_compute; reflexivity.
Defined.



(** X15, for a shared connection that turns out closed. *)
Lemma closed_shared_connection_is_replaced_witness :
  let run := @cacheMiddleware text_json one_hour sample_request
               (json_then_cache (units "fresh"))
               (@arrival text_json (shared_on "redis://cache")
                  (sample_world [] closed_once) ∅) in
  shared_for (units "redis://cache") (module_ (snd run)) = Some 5%nat /\
  count is_close (trace (snd run)) = 0%nat /\
  exists post, trace (snd run)
               = EvPatch :: EvGet 1%nat (units "/a") :: EvNew 5%nat (units "redis://cache")
                   :: EvGet 5%nat (units "/a") :: post.
Proof.
  apply (@closed_shared_connection_is_replaced text_json one_hour sample_request
           (json_then_cache (units "fresh")) (shared_on "redis://cache")
           (sample_world [] closed_once) ∅ sample_data 1%nat
           (Some ERR_REDIS_CONNECTION_CLOSED) []);
    vm_compute; reflexivity.
Defined.

(** X16, for a handler that sends a response and does not commit it. *)
Lemma miss_without_commit_leaves_connection_open_witness :
  let t := trace (snd (@cacheMiddleware text_json one_hour sample_request
                         (json_only_handler (units "fresh"))
                         (@arrival text_json no_shared (sample_world [] []) ∅))) in
  count is_new t = S (count is_close t).
Proof.
  apply (@miss_without_commit_leaves_connection_open text_json one_hour sample_request
           (json_only_handler (units "fresh")) no_shared (sample_world [] []) ∅
           sample_data None);
    [vm_compute; reflexivity | vm_compute; reflexivity | vm_compute; reflexivity
    | vm_compute; reflexivity | repeat constructor].
Defined.

(** X17, for a lookup that fails with an error other than a closed connection. *)
Lemma commit_after_failed_lookup_uses_closed_connection_witness :
  let run := @cacheMiddleware text_json one_hour sample_request
               (@CallJson text_json (units "fresh") (@commit_times text_json 1))
               (@arrival text_json no_shared (sample_world [] [Fails None]) ∅) in
  exists c pre post,
    trace (snd run) = pre ++ EvSet c (url sample_request) (units "fresh") :: post /\
    In (EvClose c) pre.
Proof.
  apply (@commit_after_failed_lookup_uses_closed_connection text_json one_hour
           sample_request no_shared (sample_world [] [Fails None]) ∅ sample_data
           (units "fresh") 1%nat);
    [vm_compute; reflexivity | vm_compute; reflexivity | vm_compute; reflexivity | lia].
Defined.

(** X18, for a request whose URL is stored, without a shared connection. *)
Lemma hit_closes_own_connection_witness :
  let t := trace (snd (sample_run one_hour (sample_world [(units "/a", units "stored")] []))) in
  count is_new t = count is_close t /\ (1 <= count is_new t)%nat.
Proof.
  apply (@hit_closes_own_connection text_json one_hour sample_request
           (json_then_cache (units "fresh")) no_shared
           (sample_world [(units "/a", units "stored")] []) ∅ sample_data
           (units "stored") (units "stored")); vm_compute; reflexivity.
Defined.

(** X19, for [/auth/login] under the excluded [/auth]. *)
Lemma excluded_prefix_bypasses_store_witness :
  let run := @cacheMiddleware text_json one_hour excluded_request
               (json_only_handler (units "fresh"))
               (@arrival text_json no_shared (sample_world [] []) ∅) in
  world (snd run) = sample_world [] [] /\ jsonPatched (res (snd run)) = false /\
  headers (res (snd run)) = ∅ /\
  fst (isCacheInitialized (snd run)) = false.
Proof.
  apply (@excluded_prefix_bypasses_store text_json one_hour excluded_request
           (json_only_handler (units "fresh")) no_shared (sample_world [] []) ∅
           sample_data [units "/auth"] (units "/auth") (units "/login"));
    [vm_compute; reflexivity | reflexivity | left; reflexivity | reflexivity].
Defined.


(** X23, with a shared connection for another URL. *)
Lemma initializeCache_replaces_connection_witness :
  let st := @arrival text_json (shared_on "redis://old") (sample_world [] []) ∅ in
  let st0 := snd (initializeCache st) in
  trace st0 = [EvClose 1%nat; EvNew 5%nat (units "redis://cache")] /\
  shared_for (units "redis://cache") (module_ st0) = Some 5%nat /\
  shared_for (units "redis://old") (module_ st0) = None /\
  fst (isCacheInitialized st0) = true.
Proof.
  apply (@initializeCache_replaces_connection text_json
           (@arrival text_json (shared_on "redis://old") (sample_world [] []) ∅)
           sample_data 1%nat (units "redis://old"));
    [vm_compute; reflexivity | reflexivity | reflexivity | reflexivity
    | vm_compute; discriminate].
Defined.


(** X27, for a request whose URL is stored. *)
Lemma first_version_hit_skips_handler_witness :
  let w := sample_world [(units "/a", units "stored")] [] in
  let run := @cacheMiddleware_v1 text_json one_hour sample_request
               (json_then_cache (units "fresh")) (@arrival text_json no_shared w ∅) in
  fst run = Normal (Returned (Some {| sent := Some (units "stored");
                                      cache_method := NoCacheMethod |})) /\
  trace (snd run) = [EvNew 5%nat (units "redis://cache"); EvGet 5%nat (units "/a");
                     EvHeader X_BREEZEAPI_CACHE HIT; EvJson (Some (units "stored"))] /\
  headers (res (snd run)) = <[X_BREEZEAPI_CACHE := HIT]> ∅ /\
  store (world (snd run)) = store w /\
  jsonPatched (res (snd run)) = false.
Proof.
  apply (@first_version_hit_skips_handler text_json one_hour sample_request
           (json_then_cache (units "fresh")) no_shared
           (sample_world [(units "/a", units "stored")] []) ∅ sample_data (units "stored"));
    vm_compute; reflexivity.
Defined.

(** X28, for a lookup that finds the connection closed. *)
Lemma first_version_lookup_failure_surfaces_witness :
  let run := @cacheMiddleware_v1 text_json one_hour sample_request
               (json_then_cache (units "fresh"))
               (@arrival text_json no_shared (sample_world [] closed_once) ∅) in
  fst run = Throw (Some ERR_REDIS_CONNECTION_CLOSED) /\
  trace (snd run) = [EvNew 5%nat (units "redis://cache"); EvGet 5%nat (units "/a")] /\
  jsonPatched (res (snd run)) = false.
Proof.
  apply (@first_version_lookup_failure_surfaces text_json one_hour sample_request
           (json_then_cache (units "fresh")) no_shared (sample_world [] closed_once) ∅
           sample_data (Some ERR_REDIS_CONNECTION_CLOSED));
    vm_compute; reflexivity.
Defined.

(** X29, for a handler that calls [res.json] twice. *)
Lemma first_version_writes_on_every_json_witness :
  let t := trace (snd (@cacheMiddleware_v1 text_json one_hour sample_request
                         (json_twice (units "one") (units "two"))
                         (@arrival text_json no_shared (sample_world [] []) ∅))) in
  count is_json t = 2%nat /\
  count is_set t = count is_json t /\ count is_expire t = count is_json t /\
  count is_next t = 1%nat /\ Forall (write_event one_hour (url sample_request)) t.
Proof.
  split; [vm_compute; reflexivity|].
  apply (@first_version_writes_on_every_json text_json one_hour sample_request
           (json_twice (units "one") (units "two")) no_shared (sample_world [] []) ∅
           sample_data);
    vm_compute; reflexivity.
Defined.
